(** * kakoune-smooth-scroll: the wire protocol and the scroll pacing

    A shallow embedding of [smooth-scroll.py].

    - Python [int] is [Z]. On the paths that send and sleep a Python
      [float] is an exact rational ([Q]): a true division raises
      [ZeroDivisionError] exactly when its divisor is zero, as in Python,
      and rounding, infinities and NaN are left out. Where these decide the
      outcome (the line count of [main], the velocities of
      [inertial_scroll]) the arithmetic is modelled a second time on IEEE 754
      binary64, with the operations of [SpecFloat].
    - Python [str] is a list of Unicode code points, [bytes] a list of
      integers in [0, 255].
    - Exceptions are an error monad over an explicit world: a clock and the
      chronological trace of what the process did. *)

From Stdlib Require Import ZArith QArith Qabs Qround Qminmax List Bool Lia Lqa String Ascii.
From Stdlib Require Import DecimalString SpecFloat Qpower.
Import ListNotations.
Local Open Scope Z_scope.

(** ** Python values *)

Definition pystr := list Z.
Definition bytes := list Z.

Definition len {A} (l : list A) : Z := Z.of_nat (List.length l).

(** A [str] holds code points of the Unicode range. *)
Definition code_point (c : Z) : Prop := 0 <= c <= 0x10FFFF.
Definition wf_str (s : pystr) : Prop := Forall code_point s.

Definition is_byte (b : Z) : Prop := 0 <= b < 256.

(** An ASCII literal of the source as a [str]. *)
Fixpoint lit (s : string) : pystr :=
  match s with
  | EmptyString => []
  | String a r => Z.of_nat (nat_of_ascii a) :: lit r
  end.

(** [str(n)] for an [int], as an f-string field formats it. *)
Definition str_of_int (n : Z) : pystr := lit (NilZero.string_of_int (Z.to_int n)).

Inductive exn : Set :=
| UnicodeEncodeError
| OverflowError
| OSError
| KeyError
| ZeroDivisionError
| ValueError
| IndexError.

Inductive result (A : Type) : Type :=
| Ok (a : A)
| Raise (e : exn).
Arguments Ok {A} a.
Arguments Raise {A} e.

(** ** [str.encode('utf-8')] *)

Definition surrogate (c : Z) : bool := (0xD800 <=? c) && (c <=? 0xDFFF).

Definition utf8_char (c : Z) : option bytes :=
  if c <? 0x80 then Some [c]
  else if c <? 0x800 then
    Some [Z.lor 0xC0 (Z.shiftr c 6); Z.lor 0x80 (Z.land c 0x3F)]
  else if surrogate c then None
  else if c <? 0x10000 then
    Some [Z.lor 0xE0 (Z.shiftr c 12);
          Z.lor 0x80 (Z.land (Z.shiftr c 6) 0x3F);
          Z.lor 0x80 (Z.land c 0x3F)]
  else
    Some [Z.lor 0xF0 (Z.shiftr c 18);
          Z.lor 0x80 (Z.land (Z.shiftr c 12) 0x3F);
          Z.lor 0x80 (Z.land (Z.shiftr c 6) 0x3F);
          Z.lor 0x80 (Z.land c 0x3F)].

Fixpoint utf8_encode (s : pystr) : option bytes :=
  match s with
  | [] => Some []
  | c :: r =>
      match utf8_char c, utf8_encode r with
      | Some b, Some br => Some (b ++ br)
      | _, _ => None
      end
  end.

Definition encode_utf8 (s : pystr) : result bytes :=
  match utf8_encode s with
  | Some b => Ok b
  | None => Raise UnicodeEncodeError
  end.

(** ** [int.to_bytes(4, byteorder=sys.byteorder)] *)

Inductive byteorder : Set := little | big.

Definition le_bytes4 (n : Z) : bytes :=
  [n mod 256; (n / 256) mod 256; (n / 65536) mod 256; (n / 16777216) mod 256].

Definition to_bytes4 (bo : byteorder) (n : Z) : result bytes :=
  if (n <? 0) || (2 ^ 32 <=? n) then Raise OverflowError
  else Ok (match bo with little => le_bytes4 n | big => rev (le_bytes4 n) end).

(** [KakSender._get_length_bytes] *)
Definition _get_length_bytes (bo : byteorder) (str_length : Z) : result bytes :=
  to_bytes4 bo str_length.

(** The bytes [send_cmd] hands to the socket (lines 40, 43-45), the
    connection left aside. *)
Definition frame (bo : byteorder) (b_cmd : bytes) : result bytes :=
  match _get_length_bytes bo (len b_cmd) with
  | Raise e => Raise e
  | Ok l_cmd =>
      let b_content := l_cmd ++ b_cmd in
      match _get_length_bytes bo (len b_content + 5) with
      | Raise e => Raise e
      | Ok l_msg =>
          let b_header := 0x02 :: l_msg in
          Ok (b_header ++ b_content)
      end
  end.

Definition message (bo : byteorder) (cmd : pystr) : result bytes :=
  match encode_utf8 cmd with
  | Raise e => Raise e
  | Ok b_cmd => frame bo b_cmd
  end.

(** ** The receiving side of the wire format

    What a reader of the format does: magic byte, total length, command
    length, then the command as UTF-8. *)

Definition from_le_bytes4 (b : bytes) : Z :=
  match b with
  | [b0; b1; b2; b3] => b0 + 256 * b1 + 65536 * b2 + 16777216 * b3
  | _ => -1
  end.

Definition from_bytes4 (bo : byteorder) (b : bytes) : Z :=
  match bo with
  | little => from_le_bytes4 b
  | big => from_le_bytes4 (rev b)
  end.

Definition continuation (b : Z) : bool := (0x80 <=? b) && (b <? 0xC0).

Fixpoint utf8_decode (b : bytes) : option pystr :=
  match b with
  | [] => Some []
  | b0 :: r0 =>
      if (0 <=? b0) && (b0 <? 0x80) then
        option_map (cons b0) (utf8_decode r0)
      else if (0xC0 <=? b0) && (b0 <? 0xE0) then
        match r0 with
        | b1 :: r1 =>
            let c := (b0 - 0xC0) * 64 + (b1 - 0x80) in
            if continuation b1 && (0x80 <=? c) then
              option_map (cons c) (utf8_decode r1)
            else None
        | _ => None
        end
      else if (0xE0 <=? b0) && (b0 <? 0xF0) then
        match r0 with
        | b1 :: b2 :: r2 =>
            let c := (b0 - 0xE0) * 4096 + (b1 - 0x80) * 64 + (b2 - 0x80) in
            if continuation b1 && continuation b2 && (0x800 <=? c)
               && negb (surrogate c) then
              option_map (cons c) (utf8_decode r2)
            else None
        | _ => None
        end
      else if (0xF0 <=? b0) && (b0 <? 0xF8) then
        match r0 with
        | b1 :: b2 :: b3 :: r3 =>
            let c := (b0 - 0xF0) * 262144 + (b1 - 0x80) * 4096
                     + (b2 - 0x80) * 64 + (b3 - 0x80) in
            if continuation b1 && continuation b2 && continuation b3
               && (0x10000 <=? c) && (c <=? 0x10FFFF) then
              option_map (cons c) (utf8_decode r3)
            else None
        | _ => None
        end
      else None
  end.

Record Message : Type := {
  magic : Z;
  total_length : Z;
  command_length : Z;
  command : bytes
}.

Definition content_length (m : Message) : Z := 4 + len (command m).

(** Splitting a byte sequence at the offsets 0, 1, 5 and 9. *)
Definition parse (bo : byteorder) (b : bytes) : option Message :=
  match b with
  | m :: r =>
      let total := firstn 4 r in
      let content := skipn 4 r in
      let clen := firstn 4 content in
      let body := skipn 4 content in
      if (List.length total =? 4)%nat && (List.length clen =? 4)%nat then
        Some {| magic := m;
                total_length := from_bytes4 bo total;
                command_length := from_bytes4 bo clen;
                command := body |}
      else None
  | [] => None
  end.

Definition well_framed (m : Message) : bool :=
  (magic m =? 0x02) && (total_length m =? content_length m + 5)
  && (command_length m =? len (command m)).

Definition decode (bo : byteorder) (b : bytes) : option pystr :=
  match parse bo b with
  | Some m => if well_framed m then utf8_decode (command m) else None
  | None => None
  end.

(** ** Numbers *)

Definition b2q (b : bool) : Q := if b then 1%Q else 0%Q.

Definition Qltb (x y : Q) : bool := negb (Qle_bool y x).

(** True division [x / y]. *)
Definition truediv (x y : Q) : result Q :=
  if Qeq_bool y 0 then Raise ZeroDivisionError else Ok (x / y)%Q.

(** [int(x)] of a float: truncation toward zero. *)
Definition py_int (x : Q) : Z := Z.quot (Qnum x) (Z.pos (Qden x)).

(** [sum(xs)]: from 0, left to right. *)
Definition py_sum (xs : list Q) : Q := fold_left Qplus xs 0%Q.

(** [range(a, b)] *)
Definition range (a b : Z) : list Z :=
  map (fun k => a + Z.of_nat k) (seq 0 (Z.to_nat (b - a))).

(** ** The world: clock, socket and trace *)

Inductive event : Type :=
| Scroll (step : Z) (duration : Q)
    (** [scroll_once] was entered with these arguments *)
| Sent (path cmd : pystr) (msg : bytes) (accepted : Z)
    (** [sock.send(msg)] on a connection to [path] accepted that many bytes *)
| Slept (d : Q).
    (** [time.sleep(d)] *)

Record world : Type := { now : Q; trace : list event }.

(** What the process cannot decide: whether a connection is accepted, how
    many bytes a send takes (or that it fails), how long a send lasts. *)
Record system : Type := {
  connects : world -> pystr -> bool;
  accepts : world -> bytes -> option Z;
  send_time : world -> Q
}.

Definition M (A : Type) : Type := world -> result A * world.

Definition ret {A} (a : A) : M A := fun w => (Ok a, w).

Definition bind {A B} (m : M A) (k : A -> M B) : M B :=
  fun w => match m w with
           | (Ok a, w') => k a w'
           | (Raise e, w') => (Raise e, w')
           end.

Definition lift {A} (r : result A) : M A := fun w => (r, w).

Notation "x <- m ;; k" := (bind m (fun x => k))
  (at level 61, m at next level, right associativity).
Notation "m ;;; k" := (bind m (fun _ => k))
  (at level 61, right associativity).

Definition log (e : event) : M unit :=
  fun w => (Ok tt, {| now := now w; trace := trace w ++ [e] |}).

Definition time : M Q := fun w => (Ok (now w), w).

Definition sleep (d : Q) : M unit :=
  fun w => (Ok tt, {| now := (now w + d)%Q; trace := trace w ++ [Slept d] |}).

Fixpoint for_fold {A S} (l : list A) (body : A -> S -> M S) (s : S) : M S :=
  match l with
  | [] => ret s
  | i :: r => s' <- body i s ;; for_fold r body s'
  end.

Definition for_each {A} (l : list A) (body : A -> M unit) : M unit :=
  for_fold l (fun i _ => body i) tt.

(** ** [KakSender] *)

Record environ : Type := {
  kak_session : option pystr;
  kak_client : option pystr;
  XDG_RUNTIME_DIR : option pystr;
  TMPDIR : option pystr;
  USER : option pystr
}.

Definition getenv (v : option pystr) : result pystr :=
  match v with Some s => Ok s | None => Raise KeyError end.

Definition sep : Z := 47.

Definition starts_with_sep (s : pystr) : bool :=
  match s with c :: _ => c =? sep | [] => false end.

Definition ends_with_sep (s : pystr) : bool := starts_with_sep (rev s).

(** [os.path.join(a, *p)] *)
Definition path_join (a : pystr) (p : list pystr) : pystr :=
  fold_left (fun path b =>
               if starts_with_sep b then b
               else if match path with [] => true | _ => ends_with_sep path end
                    then path ++ b
                    else path ++ sep :: b) p a.

Record KakSender : Type := {
  session : pystr;
  client : pystr;
  socket_path : pystr
}.

Definition bindr {A B} (r : result A) (k : A -> result B) : result B :=
  match r with Ok a => k a | Raise e => Raise e end.

Definition KakSender_init (env : environ) : result KakSender :=
  bindr (getenv (kak_session env)) (fun session_ =>
  bindr (getenv (kak_client env)) (fun client_ =>
  bindr (match XDG_RUNTIME_DIR env with
         | None =>
             bindr (getenv (USER env)) (fun user =>
             Ok (path_join (match TMPDIR env with Some t => t | None => lit "/tmp" end)
                           [lit "kakoune"; user]))
         | Some xdg_runtime_dir => Ok (path_join xdg_runtime_dir [lit "kakoune"])
         end) (fun runtime_path =>
  Ok {| session := session_; client := client_;
        socket_path := path_join runtime_path [session_] |}))).

Section Process.

Variable bo : byteorder.
Variable sys : system.

Definition connect (path : pystr) : M unit :=
  fun w => if connects sys w path then (Ok tt, w) else (Raise OSError, w).

(** The world once a send of [b] has accepted [k] bytes. *)
Definition after_send (path cmd : pystr) (b : bytes) (k : Z) (w : world) : world :=
  {| now := (now w + send_time sys w)%Q;
     trace := trace w ++ [Sent path cmd b k] |}.

Definition sock_send (path cmd : pystr) (b : bytes) : M Z :=
  fun w => match accepts sys w b with
           | Some k => (Ok k, after_send path cmd b k w)
           | None => (Raise OSError, w)
           end.

Definition send_cmd (self : KakSender) (cmd : pystr) : M bool :=
  b_cmd <- lift (encode_utf8 cmd) ;;
  connect (socket_path self) ;;;
  b_message <- lift (frame bo b_cmd) ;;
  n <- sock_send (socket_path self) cmd b_message ;;
  ret (n =? len b_message).

Definition send_keys (self : KakSender) (keys : pystr) : M bool :=
  let cmd := lit "execute-keys -client " ++ client self ++ lit " " ++ keys in
  send_cmd self cmd.

(** ** Pacing *)

Definition scroll_keys (step : Z) : pystr :=
  let speed := Z.abs step in
  if step >? 0
  then str_of_int speed ++ lit "j" ++ str_of_int speed ++ lit "vj"
  else str_of_int speed ++ lit "k" ++ str_of_int speed ++ lit "vk".

Definition scroll_once (sender : KakSender) (step : Z) (duration : Q) : M unit :=
  log (Scroll step duration) ;;;
  t_start <- time ;;
  let keys := scroll_keys step in
  send_keys sender keys ;;;
  t_end <- time ;;
  let elapsed := (t_end - t_start)%Q in
  if Qltb elapsed duration then sleep (duration - elapsed)%Q else ret tt.

Definition harmonic (n_lines : Z) : Q :=
  py_sum (map (fun x => 1 / inject_Z x)%Q (range 2 (n_lines + 1))).

Definition inertial_body (sender : KakSender) (step n_lines : Z) (d_velocity : Q)
    (i : Z) (velocity : Q) : M Q :=
  inv <- lift (truediv 1 velocity) ;;
  scroll_once sender step (inv * b2q (i <? n_lines - 1))%Q ;;;
  ret (velocity - d_velocity)%Q.

Definition inertial_scroll (sender : KakSender) (target : Z) (duration : Q) : M unit :=
  let n_lines := Z.abs target in
  let step := if target >? 0 then 1 else -1 in
  velocity <- lift (truediv (inject_Z n_lines * harmonic n_lines)%Q
                            (inject_Z (n_lines - 1) * duration)%Q) ;;
  d_velocity <- lift (truediv velocity (inject_Z n_lines)) ;;
  for_fold (range 0 n_lines) (inertial_body sender step n_lines d_velocity) velocity ;;;
  ret tt.

(** ** [main] *)

(** The values of lines 100-106, the conversions [int(...)] and [float(...)]
    done; [kak_count] is the count before [max(1, ...)]. *)
Record inputs : Type := {
  cursor_line : Z;
  line_count : Z;
  window_height : Z;
  kak_count : Z;
  amount : Q;
  duration_ms : Q;
  speed : Z
}.

Definition count (a : inputs) : Z := Z.max 1 (kak_count a).

Definition duration_s (a : inputs) : Q := (duration_ms a / 1000)%Q.

Definition maxscroll (a : inputs) : Z :=
  if Qltb 0 (amount a) then line_count a - cursor_line a else cursor_line a - 1.

Definition requested (a : inputs) : Q :=
  (inject_Z (count a) * Qabs (amount a) * inject_Z (window_height a - 2))%Q.

Definition n_lines (a : inputs) : Z := Z.min (py_int (requested a)) (maxscroll a).

Definition sign (a : inputs) : Z := if Qltb 0 (amount a) then 1 else -1.

Definition fixed_path (a : inputs) : bool :=
  (speed a >? 0) || Qltb (duration_s a) (1 # 1000)%Q.

Definition fixed_scroll (sender : KakSender) (n sgn spd : Z) (duration : Q) : M unit :=
  let times := n / Z.max spd 1 in
  for_each (range 0 times)
    (fun i => scroll_once sender (sgn * spd) (duration * b2q (i <? times - 1))%Q).

Definition main (env : environ) (a : inputs) : M unit :=
  if maxscroll a =? 0 then ret tt
  else
    sender <- lift (KakSender_init env) ;;
    if fixed_path a
    then fixed_scroll sender (n_lines a) (sign a) (speed a) (duration_s a)
    else inertial_scroll sender (sign a * n_lines a) (duration_s a).

End Process.

(** ** Reading a trace *)

Definition call_of (e : event) : list (Z * Q) :=
  match e with Scroll s d => [(s, d)] | _ => [] end.

Definition command_of (e : event) : list pystr :=
  match e with Sent _ cmd _ _ => [cmd] | _ => [] end.

(** The [scroll_once] invocations, in order: step and hold duration. *)
Definition calls (t : list event) : list (Z * Q) := flat_map call_of t.

Definition steps (t : list event) : list Z := map fst (calls t).

Definition holds (t : list event) : list Q := map snd (calls t).

(** The commands handed to the socket, in order. *)
Definition commands (t : list event) : list pystr := flat_map command_of t.

Definition execute_keys (self : KakSender) (keys : pystr) : pystr :=
  lit "execute-keys -client " ++ client self ++ lit " " ++ keys.

Fixpoint Qsum (l : list Q) : Q :=
  match l with
  | [] => 0%Q
  | x :: r => (x + Qsum r)%Q
  end.

Definition increasing (l : list Q) : Prop :=
  forall i j, (i < j < List.length l)%nat -> (nth i l 0 < nth j l 0)%Q.

Definition decreasing (l : list Q) : Prop :=
  forall i j, (i < j < List.length l)%nat -> (nth j l 0 < nth i l 0)%Q.

(** ** The velocity of the inertial loop *)

(** Lines 84-85, when the division is defined. *)
Definition initial_velocity (S : Z) (duration : Q) : Q :=
  (inject_Z S * harmonic S / (inject_Z (S - 1) * duration))%Q.

(** [velocity] on entry to the iteration of index [i], after [i] updates
    [velocity -= d_velocity]. *)
Definition velocity_at (S : Z) (duration : Q) (i : nat) : Q :=
  Nat.iter i (fun velocity => velocity - initial_velocity S duration / inject_Z S)%Q
           (initial_velocity S duration).

(** The hold duration line 88 computes in that iteration. *)
Definition hold_at (S : Z) (duration : Q) (i : nat) : Q :=
  (1 / velocity_at S duration i * b2q (Z.of_nat i <? S - 1))%Q.

(** ** Rounding to the nearest integer, as [round(x)] does (ties to even) *)

Definition py_round (x : Q) : Z :=
  let f := Qfloor x in
  let r := (x - inject_Z f)%Q in
  if Qltb r (1 # 2) then f
  else if Qltb (1 # 2) r then f + 1
  else if Z.even f then f else f + 1.

(** ** Concrete surroundings *)

(** Every connection is accepted and every send takes the whole message, in
    one millisecond. *)
Definition reliable : system :=
  {| connects := fun _ _ => true;
     accepts := fun _ b => Some (len b);
     send_time := fun _ => (1 # 1000)%Q |}.

(** As [reliable], but a send takes one byte less than it is given. *)
Definition short_writes : system :=
  {| connects := fun _ _ => true;
     accepts := fun _ b => Some (len b - 1);
     send_time := fun _ => (1 # 1000)%Q |}.

Definition demo_environ : environ :=
  {| kak_session := Some (lit "s");
     kak_client := Some (lit "c");
     XDG_RUNTIME_DIR := Some (lit "/run/user/1000");
     TMPDIR := None;
     USER := Some (lit "u") |}.

Definition demo_sender : KakSender :=
  {| session := lit "s"; client := lit "c";
     socket_path := lit "/run/user/1000/kakoune/s" |}.

Definition boot : world := {| now := 0%Q; trace := [] |}.

(** A full page down in a 42-line window, from line 1 of 1000. *)
Definition page_down (duration speed_ : Z) : inputs :=
  {| cursor_line := 1; line_count := 1000; window_height := 42; kak_count := 0;
     amount := 1%Q; duration_ms := inject_Z duration; speed := speed_ |}.

(** ** More ways to read a trace *)

Definition sleep_of (e : event) : list Q :=
  match e with Slept d => [d] | _ => [] end.

(** The arguments of [time.sleep], in order. *)
Definition sleeps (t : list event) : list Q := flat_map sleep_of t.

Fixpoint Zsum (l : list Z) : Z :=
  match l with
  | [] => 0
  | x :: r => x + Zsum r
  end.

(** The lines the [scroll_once] calls of a trace ask for, whatever their
    direction. *)
Definition lines_moved (t : list event) : Z := Zsum (map Z.abs (steps t)).

(** The key sequences of line 63 for [m] lines. *)
Definition down_keys (m : Z) : pystr :=
  str_of_int m ++ lit "j" ++ str_of_int m ++ lit "vj".

Definition up_keys (m : Z) : pystr :=
  str_of_int m ++ lit "k" ++ str_of_int m ++ lit "vk".

(** A command that scrolls up, sent for the client of [sender]. *)
Definition scrolls_up (sender : KakSender) (cmd : pystr) : Prop :=
  exists m, 0 <= m /\ cmd = execute_keys sender (up_keys m).

Definition scrolls_down (sender : KakSender) (cmd : pystr) : Prop :=
  exists m, 0 < m /\ cmd = execute_keys sender (down_keys m).

(** The commands sent between two worlds all satisfy [P]. *)
Definition sent_only (P : pystr -> Prop) (w w' : world) : Prop :=
  exists l, commands (trace w') = commands (trace w) ++ l /\ Forall P l.

(** A system whose sends all take at most [L]. *)
Definition latency_at_most (sys : system) (L : Q) : Prop :=
  forall w, (send_time sys w <= L)%Q.

(** Between two worlds the clock has advanced by at least the holds of the
    [scroll_once] calls made, and, when no send takes longer than [L], by at
    most the longer of each hold and [L]. *)
Definition paced (sys : system) (L : Q) (w w' : world) : Prop :=
  exists hs,
    holds (trace w') = holds (trace w) ++ hs /\
    (now w + Qsum hs <= now w')%Q /\
    (latency_at_most sys L ->
     (now w' <= now w + Qsum (map (fun d => Qmax d L) hs))%Q).


(** ** More concrete surroundings *)

(** No connection is ever accepted. *)
Definition unreachable : system :=
  {| connects := fun _ _ => false;
     accepts := fun _ b => Some (len b);
     send_time := fun _ => (1 # 1000)%Q |}.

(** No [XDG_RUNTIME_DIR]: the socket lives under the temporary directory. *)
Definition tmp_environ : environ :=
  {| kak_session := Some (lit "s");
     kak_client := Some (lit "c");
     XDG_RUNTIME_DIR := None;
     TMPDIR := None;
     USER := Some (lit "u") |}.

(** No [kak_session]: the script was not started by the editor. *)
Definition bare_environ : environ :=
  {| kak_session := None;
     kak_client := Some (lit "c");
     XDG_RUNTIME_DIR := Some (lit "/run/user/1000");
     TMPDIR := None;
     USER := Some (lit "u") |}.

(** A scroll in an 8-line window from the middle of a long buffer, at 10 ms
    per tick. *)
Definition short_scroll (amount_ : Q) (speed_ : Z) : inputs :=
  {| cursor_line := 500; line_count := 1000; window_height := 8; kak_count := 0;
     amount := amount_; duration_ms := 10%Q; speed := speed_ |}.

(** ** The tail of [main] *)

(** Lines 117-123, for the number of lines [n] and the sign that lines 115
    and 116 arrive at; [fixed] is the test of line 118. *)
Definition scroll_by (bo : byteorder) (sys : system) (sender : KakSender)
    (fixed : bool) (sgn spd : Z) (duration : Q) (n : Z) : M unit :=
  if fixed
  then fixed_scroll bo sys sender n sgn spd duration
  else inertial_scroll bo sys sender (sgn * n) duration.

(** ** Binary64

    Where rounding, overflow and NaN decide what the code does, a [float] is
    an IEEE 754 binary64 value with the operations of [SpecFloat], rounding
    to nearest, ties to even. *)

Definition float : Set := spec_float.

Definition fmul : float -> float -> float := SFmul 53 1024.
Definition fdiv : float -> float -> float := SFdiv 53 1024.
Definition fadd : float -> float -> float := SFadd 53 1024.
Definition fsub : float -> float -> float := SFsub 53 1024.
Definition fabs : float -> float := SFabs.
Definition fltb : float -> float -> bool := SFltb.

(** The double nearest an integer. *)
Definition nearest_int (n : Z) : float := binary_normalize 53 1024 n 0 false.

(** The double nearest [n / d], what [float()] makes of a decimal literal of
    that value, for [n] and [d] below [2^53]. *)
Definition nearest_ratio (n d : Z) : float := fdiv (nearest_int n) (nearest_int d).

Definition infinity : float := S754_infinity false.

(** An [int] where a [float] is expected: [float(n)]. *)
Definition float_of_int (n : Z) : result float :=
  match nearest_int n with
  | S754_infinity _ => Raise OverflowError
  | f => Ok f
  end.

(** [int(x)] of a [float]: truncation toward zero. *)
Definition int_of_float (x : float) : result Z :=
  match x with
  | S754_zero _ => Ok 0
  | S754_infinity _ => Raise OverflowError
  | S754_nan => Raise ValueError
  | S754_finite s m e =>
      let magnitude :=
        if 0 <=? e then Z.shiftl (Z.pos m) e else Z.shiftr (Z.pos m) (- e) in
      Ok (if s then - magnitude else magnitude)
  end.

(** True division of floats. *)
Definition ftruediv (x y : float) : result float :=
  match y with
  | S754_zero _ => Raise ZeroDivisionError
  | _ => Ok (fdiv x y)
  end.

Definition finite (x : float) : bool :=
  match x with
  | S754_zero _ | S754_finite _ _ _ => true
  | _ => false
  end.

(** The rational a finite float stands for. *)
Definition float_value (x : float) : Q :=
  match x with
  | S754_finite s m e =>
      let z := if s then Z.neg m else Z.pos m in
      if 0 <=? e then inject_Z (z * 2 ^ e) else z # (2 ^ Z.to_pos (- e))
  | _ => 0%Q
  end.

(** Line 115 on binary64: [count] and [window_height - 2] are converted to
    floats for the two products, the second product is truncated. *)
Definition n_lines_float (count_ : Z) (amount_ : float)
    (window_height_ maxscroll_ : Z) : result Z :=
  bindr (float_of_int count_) (fun c =>
  bindr (float_of_int (window_height_ - 2)) (fun h =>
  bindr (int_of_float (fmul (fmul c (fabs amount_)) h)) (fun lines =>
  Ok (Z.min lines maxscroll_)))).

(** [sum(1. / x for x in range(2, n_lines + 1))], added from the left: one
    rounding for each division and each addition. *)
Definition harmonic_float (n_lines_ : Z) : float :=
  fold_left (fun acc x => fadd acc (fdiv (nearest_int 1) (nearest_int x)))
            (range 2 (n_lines_ + 1)) (S754_zero false).

(** Lines 84-85 on binary64, for the double [total] that the sum comes to. *)
Definition initial_velocity_from (total : float) (n_lines_ : Z) (duration : float)
    : result float :=
  bindr (float_of_int n_lines_) (fun n =>
  bindr (float_of_int (n_lines_ - 1)) (fun n1 =>
  ftruediv (fmul n total) (fmul n1 duration))).

Definition initial_velocity_float (n_lines_ : Z) (duration : float) : result float :=
  initial_velocity_from (harmonic_float n_lines_) n_lines_ duration.

(** The loop of lines 87-89 on binary64, the sends left aside: the holds it
    passes to [scroll_once], or the exception of its arithmetic. *)
Fixpoint inertial_loop_float (n_lines_ : Z) (d_velocity : float) (idx : list Z)
    (velocity : float) : result (list float) :=
  match idx with
  | [] => Ok []
  | i :: r =>
      bindr (ftruediv (nearest_int 1) velocity) (fun inv =>
      let hold := fmul inv (nearest_int (if i <? n_lines_ - 1 then 1 else 0)) in
      bindr (inertial_loop_float n_lines_ d_velocity r (fsub velocity d_velocity))
            (fun rest => Ok (hold :: rest)))
  end.

(** Lines 83-89 on binary64, the sends left aside, for the double [total]
    that the sum of line 84 comes to. *)
Definition inertial_holds_from (total : float) (target : Z) (duration : float)
    : result (list float) :=
  let n_lines_ := Z.abs target in
  bindr (initial_velocity_from total n_lines_ duration) (fun velocity =>
  bindr (float_of_int n_lines_) (fun n =>
  bindr (ftruediv velocity n) (fun d_velocity =>
  inertial_loop_float n_lines_ d_velocity (range 0 n_lines_) velocity))).

Definition inertial_holds_float (target : Z) (duration : float) : result (list float) :=
  inertial_holds_from (harmonic_float (Z.abs target)) target duration.

(** ** Reading binary64 values *)

(** [m * 2^e] as a rational. *)
Definition F2Q (m e : Z) : Q := (inject_Z m * 2 ^ e)%Q.

(** A positive normal double: 53 digits, the exponent in range. *)
Definition normal (x : float) : Prop :=
  exists m e, x = S754_finite false m e /\ digits2_pos m = 53%positive
              /\ -1074 <= e <= 971.

(** Half the distance from 1 to the next double is [2^-53]; a rounded
    result is within twice that, relatively, of what it rounds. *)
Definition eps : Q := 1 # 4503599627370496.

Definition near (v x : Q) : Prop := (x * (1 - eps) <= v <= x * (1 + eps))%Q.

(** The velocity on entry to iteration [i] of the loop of lines 87-89. *)
Definition velocity_at_float (velocity d_velocity : float) (i : nat) : float :=
  Nat.iter i (fun v => fsub v d_velocity) velocity.

(** The hold that iteration [i] passes to [scroll_once], line 88. *)
Definition hold_at_float (n_lines_ : Z) (velocity d_velocity : float) (i : Z) : float :=
  fmul (fdiv (nearest_int 1) (velocity_at_float velocity d_velocity (Z.to_nat i)))
       (nearest_int (if i <? n_lines_ - 1 then 1 else 0)).

(** ** [main] from its first line *)

(** A string, as far as [int()] and [float()] read it: [None] where the
    conversion raises [ValueError]. [float()] accepts the spellings of the
    infinities and of NaN. *)
Record text : Type := {
  as_int : option Z;
  as_float : option float
}.




Definition to_int (t : text) : result Z :=
  match as_int t with Some z => Ok z | None => Raise ValueError end.


(** The values of lines 100-106, before [max] and the division by 1000. *)
Module Args.
Record t : Type := {
  cursor_line : Z;
  line_count : Z;
  window_height : Z;
  kak_count : Z;
  amount : float;
  duration_ms : float;
  speed : Z
}.
End Args.













(** * Properties *)

(** ** Bytes and lengths *)

Lemma lor_high_low (h k y : Z) :
  0 <= k -> 0 <= y < 2 ^ k -> Z.lor (h * 2 ^ k) y = h * 2 ^ k + y.
Proof.
  intros Hk Hy.
  assert (Hland : Z.land (h * 2 ^ k) y = 0).
  { apply Z.bits_inj'. intros n Hn.
    rewrite Z.land_spec, Z.bits_0.
    destruct (Z.lt_ge_cases n k) as [Hlt | Hge].
    - rewrite Z.mul_pow2_bits_low by assumption. reflexivity.
    - rewrite <- (Z.mod_small y (2 ^ k)) by assumption.
      rewrite Z.mod_pow2_bits_high by lia. apply andb_false_r. }
  rewrite <- Z.lxor_lor by assumption.
  symmetry. apply Z.add_nocarry_lxor. assumption.
Qed.

Lemma lor_80 (y : Z) : 0 <= y < 64 -> Z.lor 0x80 y = 128 + y.
Proof. intros H. apply (lor_high_low 2 6 y); lia. Qed.

Lemma lor_C0 (y : Z) : 0 <= y < 64 -> Z.lor 0xC0 y = 192 + y.
Proof. intros H. apply (lor_high_low 3 6 y); lia. Qed.

Lemma lor_E0 (y : Z) : 0 <= y < 16 -> Z.lor 0xE0 y = 224 + y.
Proof. intros H. apply (lor_high_low 14 4 y); lia. Qed.

Lemma lor_F0 (y : Z) : 0 <= y < 8 -> Z.lor 0xF0 y = 240 + y.
Proof. intros H. apply (lor_high_low 30 3 y); lia. Qed.

Lemma land_3F (x : Z) : Z.land x 0x3F = x mod 64.
Proof. change 0x3F with (Z.ones 6). rewrite Z.land_ones by lia. reflexivity. Qed.

Lemma shiftr_6 (x : Z) : Z.shiftr x 6 = x / 64.
Proof. rewrite Z.shiftr_div_pow2 by lia. reflexivity. Qed.

Lemma shiftr_12 (x : Z) : Z.shiftr x 12 = x / 4096.
Proof. rewrite Z.shiftr_div_pow2 by lia. reflexivity. Qed.

Lemma shiftr_18 (x : Z) : Z.shiftr x 18 = x / 262144.
Proof. rewrite Z.shiftr_div_pow2 by lia. reflexivity. Qed.

(** The encoding of one code point, in arithmetic. *)
Lemma utf8_char_arith (c : Z) :
  code_point c ->
  utf8_char c =
    if c <? 0x80 then Some [c]
    else if c <? 0x800 then Some [192 + c / 64; 128 + c mod 64]
    else if surrogate c then None
    else if c <? 0x10000 then
      Some [224 + c / 4096; 128 + (c / 64) mod 64; 128 + c mod 64]
    else
      Some [240 + c / 262144; 128 + (c / 4096) mod 64;
            128 + (c / 64) mod 64; 128 + c mod 64].
Proof.
  intros [H0 H1]. unfold utf8_char.
  rewrite !shiftr_6, !shiftr_12, !shiftr_18, !land_3F.
  rewrite !lor_80 by (apply Z.mod_pos_bound; lia).
  destruct (c <? 0x80) eqn:E1; [reflexivity|].
  destruct (c <? 0x800) eqn:E2.
  { apply Z.ltb_lt in E2. rewrite lor_C0; [reflexivity|].
    split; [apply Z.div_pos; lia | apply Z.div_lt_upper_bound; lia]. }
  destruct (surrogate c); [reflexivity|].
  destruct (c <? 0x10000) eqn:E3.
  { apply Z.ltb_lt in E3. rewrite lor_E0; [reflexivity|].
    split; [apply Z.div_pos; lia | apply Z.div_lt_upper_bound; lia]. }
  rewrite lor_F0; [reflexivity|].
  split; [apply Z.div_pos; lia | apply Z.div_lt_upper_bound; lia].
Qed.

Ltac decide_tests :=
  repeat match goal with
  | |- context [?a <? ?b] =>
      let E := fresh "E" in
      destruct (a <? b) eqn:E;
      [apply Z.ltb_lt in E | apply Z.ltb_ge in E]; try lia
  | |- context [?a <=? ?b] =>
      let E := fresh "E" in
      destruct (a <=? b) eqn:E;
      [apply Z.leb_le in E | apply Z.leb_gt in E]; try lia
  end.

(** The decoder on each of the four sequence lengths. *)
Lemma utf8_decode_1 (b0 : Z) (rest : bytes) :
  0 <= b0 < 0x80 ->
  utf8_decode (b0 :: rest) = option_map (cons b0) (utf8_decode rest).
Proof. intros H. cbn [utf8_decode]. decide_tests. reflexivity. Qed.

Lemma utf8_decode_2 (b0 b1 : Z) (rest : bytes) :
  0xC0 <= b0 < 0xE0 -> 0x80 <= b1 < 0xC0 ->
  0x80 <= (b0 - 0xC0) * 64 + (b1 - 0x80) ->
  utf8_decode (b0 :: b1 :: rest) =
  option_map (cons ((b0 - 0xC0) * 64 + (b1 - 0x80))) (utf8_decode rest).
Proof.
  intros H0 H1 Hc. cbn [utf8_decode]. unfold continuation.
  decide_tests. reflexivity.
Qed.

Lemma utf8_decode_3 (b0 b1 b2 : Z) (rest : bytes) :
  0xE0 <= b0 < 0xF0 -> 0x80 <= b1 < 0xC0 -> 0x80 <= b2 < 0xC0 ->
  0x800 <= (b0 - 0xE0) * 4096 + (b1 - 0x80) * 64 + (b2 - 0x80) ->
  surrogate ((b0 - 0xE0) * 4096 + (b1 - 0x80) * 64 + (b2 - 0x80)) = false ->
  utf8_decode (b0 :: b1 :: b2 :: rest) =
  option_map (cons ((b0 - 0xE0) * 4096 + (b1 - 0x80) * 64 + (b2 - 0x80)))
             (utf8_decode rest).
Proof.
  intros H0 H1 H2 Hc Hs. cbn [utf8_decode]. rewrite Hs. unfold continuation.
  decide_tests. reflexivity.
Qed.

Lemma utf8_decode_4 (b0 b1 b2 b3 : Z) (rest : bytes) :
  0xF0 <= b0 < 0xF8 -> 0x80 <= b1 < 0xC0 -> 0x80 <= b2 < 0xC0 ->
  0x80 <= b3 < 0xC0 ->
  0x10000 <= (b0 - 0xF0) * 262144 + (b1 - 0x80) * 4096
             + (b2 - 0x80) * 64 + (b3 - 0x80) <= 0x10FFFF ->
  utf8_decode (b0 :: b1 :: b2 :: b3 :: rest) =
  option_map (cons ((b0 - 0xF0) * 262144 + (b1 - 0x80) * 4096
                    + (b2 - 0x80) * 64 + (b3 - 0x80)))
             (utf8_decode rest).
Proof.
  intros H0 H1 H2 H3 Hc. cbn [utf8_decode]. unfold continuation.
  decide_tests. reflexivity.
Qed.

Lemma utf8_decode_char (c : Z) (b rest : bytes) :
  code_point c -> utf8_char c = Some b ->
  utf8_decode (b ++ rest) = option_map (cons c) (utf8_decode rest).
Proof.
  intros Hc. rewrite (utf8_char_arith c Hc). destruct Hc as [H0 H1].
  pose proof (Z.div_mod c 64 ltac:(lia)) as D1.
  pose proof (Z.mod_pos_bound c 64 ltac:(lia)) as B1.
  pose proof (Z.div_mod (c / 64) 64 ltac:(lia)) as D2.
  pose proof (Z.mod_pos_bound (c / 64) 64 ltac:(lia)) as B2.
  pose proof (Z.div_mod (c / 4096) 64 ltac:(lia)) as D3.
  pose proof (Z.mod_pos_bound (c / 4096) 64 ltac:(lia)) as B3.
  assert (Q2 : c / 4096 = c / 64 / 64) by (rewrite Z.div_div by lia; reflexivity).
  assert (Q3 : c / 262144 = c / 4096 / 64) by (rewrite Z.div_div by lia; reflexivity).
  rewrite <- Q2 in D2. rewrite <- Q3 in D3.
  set (r0 := c mod 64) in *. set (r1 := (c / 64) mod 64) in *.
  set (r2 := (c / 4096) mod 64) in *.
  set (q1 := c / 64) in *. set (q2 := c / 4096) in *. set (q3 := c / 262144) in *.
  clearbody r0 r1 r2 q1 q2 q3. clear Q2 Q3.
  destruct (c <? 0x80) eqn:E1.
  { apply Z.ltb_lt in E1. intros Hb; apply (f_equal (fun o => match o with Some x => x | None => b end)) in Hb; cbv beta iota in Hb; subst b.
    apply utf8_decode_1. lia. }
  apply Z.ltb_ge in E1.
  destruct (c <? 0x800) eqn:E2.
  { apply Z.ltb_lt in E2. intros Hb; apply (f_equal (fun o => match o with Some x => x | None => b end)) in Hb; cbv beta iota in Hb; subst b.
    change ([192 + q1; 128 + r0] ++ rest) with ((192 + q1) :: (128 + r0) :: rest).
    rewrite utf8_decode_2 by lia. do 2 f_equal. lia. }
  apply Z.ltb_ge in E2.
  destruct (surrogate c) eqn:Es; [discriminate|].
  assert (Hs : forall x, x = c -> surrogate x = false) by (intros x ->; exact Es).
  destruct (c <? 0x10000) eqn:E3.
  { apply Z.ltb_lt in E3. intros Hb; apply (f_equal (fun o => match o with Some x => x | None => b end)) in Hb; cbv beta iota in Hb; subst b.
    change ([224 + q2; 128 + r1; 128 + r0] ++ rest)
      with ((224 + q2) :: (128 + r1) :: (128 + r0) :: rest).
    rewrite utf8_decode_3; [do 2 f_equal; lia | lia .. | apply Hs; lia]. }
  apply Z.ltb_ge in E3. intros Hb; apply (f_equal (fun o => match o with Some x => x | None => b end)) in Hb; cbv beta iota in Hb; subst b.
  change ([240 + q3; 128 + r2; 128 + r1; 128 + r0] ++ rest)
    with ((240 + q3) :: (128 + r2) :: (128 + r1) :: (128 + r0) :: rest).
  rewrite utf8_decode_4 by lia. do 2 f_equal. lia.
Qed.

Lemma utf8_roundtrip (s : pystr) (b : bytes) :
  wf_str s -> utf8_encode s = Some b -> utf8_decode b = Some s.
Proof.
  intros Hwf. revert b. induction Hwf as [|c s Hc Hs IH]; intros b.
  - intros [= <-]. reflexivity.
  - cbn [utf8_encode].
    destruct (utf8_char c) as [bc|] eqn:Ec; [|discriminate].
    destruct (utf8_encode s) as [bs|] eqn:Es; [|discriminate].
    intros [= <-]. rewrite (utf8_decode_char c bc bs Hc Ec).
    rewrite (IH bs eq_refl). reflexivity.
Qed.

Lemma to_bytes4_inv (bo : byteorder) (n : Z) (b : bytes) :
  to_bytes4 bo n = Ok b ->
  0 <= n < 2 ^ 32 /\ List.length b = 4%nat /\ from_bytes4 bo b = n
  /\ Forall is_byte b.
Proof.
  unfold to_bytes4.
  destruct (n <? 0) eqn:E0; [discriminate|].
  destruct (2 ^ 32 <=? n) eqn:E1; [discriminate|].
  apply Z.ltb_ge in E0. apply Z.leb_gt in E1. cbn [orb].
  intros Hb.
  assert (Hle : from_le_bytes4 (le_bytes4 n) = n).
  { unfold le_bytes4, from_le_bytes4.
    change (2 ^ 32) with 4294967296 in E1.
    assert (H4 : n / 16777216 < 256) by (apply Z.div_lt_upper_bound; lia).
    assert (H5 : 0 <= n / 16777216) by (apply Z.div_pos; lia).
    rewrite (Z.mod_small (n / 16777216)) by lia.
    replace 16777216 with (65536 * 256) by reflexivity.
    rewrite <- Z.div_div by lia.
    replace 65536 with (256 * 256) by reflexivity.
    rewrite <- Z.div_div by lia.
    pose proof (Z.div_mod n 256 ltac:(lia)).
    pose proof (Z.div_mod (n / 256) 256 ltac:(lia)).
    pose proof (Z.div_mod (n / 256 / 256) 256 ltac:(lia)).
    lia. }
  assert (Hby : Forall is_byte (le_bytes4 n)).
  { unfold le_bytes4, is_byte.
    repeat constructor; apply Z.mod_pos_bound; lia. }
  split; [lia|].
  destruct bo; apply (f_equal (fun r => match r with Ok x => x | Raise _ => b end)) in Hb;
    cbv beta iota in Hb; subst b.
  - repeat split; auto.
  - repeat split.
    + unfold from_bytes4. rewrite rev_involutive. exact Hle.
    + apply Forall_rev. exact Hby.
Qed.

Lemma to_bytes4_ok (bo : byteorder) (n : Z) :
  0 <= n < 2 ^ 32 -> exists b, to_bytes4 bo n = Ok b.
Proof.
  intros [H0 H1]. unfold to_bytes4.
  destruct (n <? 0) eqn:E0; [apply Z.ltb_lt in E0; lia|].
  destruct (2 ^ 32 <=? n) eqn:E1; [apply Z.leb_le in E1; lia|].
  cbn [orb]. eexists. reflexivity.
Qed.

Lemma len_app {A} (a b : list A) : len (a ++ b) = len a + len b.
Proof. unfold len. rewrite length_app. lia. Qed.

Lemma four_cells {A} (l : list A) :
  List.length l = 4%nat -> exists a b c d, l = [a; b; c; d].
Proof.
  destruct l as [|a [|b [|c [|d [|e l]]]]]; try discriminate.
  intros _. exists a, b, c, d. reflexivity.
Qed.

(** What [frame] returns, field by field. *)
Lemma frame_inv (bo : byteorder) (b_cmd m : bytes) :
  frame bo b_cmd = Ok m ->
  exists l_msg l_cmd,
    to_bytes4 bo (len b_cmd + 4 + 5) = Ok l_msg /\
    to_bytes4 bo (len b_cmd) = Ok l_cmd /\
    m = 0x02 :: l_msg ++ l_cmd ++ b_cmd /\
    parse bo m = Some {| magic := 0x02;
                         total_length := len b_cmd + 4 + 5;
                         command_length := len b_cmd;
                         command := b_cmd |}.
Proof.
  unfold frame, _get_length_bytes.
  destruct (to_bytes4 bo (len b_cmd)) as [l_cmd|] eqn:Ec; [|discriminate].
  destruct (to_bytes4 bo (len (l_cmd ++ b_cmd) + 5)) as [l_msg|] eqn:Em;
    [|discriminate].
  intros Hm.
  apply (f_equal (fun r => match r with Ok x => x | Raise _ => m end)) in Hm.
  cbv beta iota in Hm. subst m.
  destruct (to_bytes4_inv _ _ _ Ec) as (_ & Lc & Fc & _).
  destruct (to_bytes4_inv _ _ _ Em) as (_ & Lm & Fm & _).
  assert (Hlen : len (l_cmd ++ b_cmd) + 5 = len b_cmd + 4 + 5).
  { rewrite len_app. unfold len at 1. rewrite Lc. lia. }
  rewrite Hlen in Em, Fm.
  exists l_msg, l_cmd. repeat split; try assumption.
  destruct (four_cells _ Lc) as (c0 & c1 & c2 & c3 & ->).
  destruct (four_cells _ Lm) as (m0 & m1 & m2 & m3 & ->).
  unfold parse. cbn [app firstn skipn List.length Nat.eqb andb].
  rewrite Fc, Fm. reflexivity.
Qed.

Lemma message_inv (bo : byteorder) (cmd : pystr) (m : bytes) :
  message bo cmd = Ok m ->
  exists b_cmd, utf8_encode cmd = Some b_cmd /\ frame bo b_cmd = Ok m.
Proof.
  unfold message, encode_utf8.
  destruct (utf8_encode cmd) as [b_cmd|]; [|discriminate].
  intros H. exists b_cmd. split; [reflexivity | exact H].
Qed.

(** A command whose encoding leaves room for the nine bytes before it is
    framed. *)
Lemma message_built (bo : byteorder) (cmd : pystr) (b_cmd : bytes) :
  utf8_encode cmd = Some b_cmd -> len b_cmd + 9 < 2 ^ 32 ->
  exists m, message bo cmd = Ok m.
Proof.
  intros He Hl. unfold message, encode_utf8. rewrite He.
  unfold frame, _get_length_bytes.
  assert (H0 : 0 <= len b_cmd) by (unfold len; lia).
  destruct (to_bytes4_ok bo (len b_cmd) ltac:(lia)) as [l_cmd Ec]. rewrite Ec.
  destruct (to_bytes4_inv _ _ _ Ec) as (_ & Lc & _).
  assert (Hlen : len (l_cmd ++ b_cmd) + 5 = len b_cmd + 9).
  { rewrite len_app. unfold len at 1. rewrite Lc. lia. }
  destruct (to_bytes4_ok bo (len (l_cmd ++ b_cmd) + 5) ltac:(lia)) as [l_msg Em].
  rewrite Em. eexists. reflexivity.
Qed.

Lemma utf8_char_bytes (c : Z) (b : bytes) :
  code_point c -> utf8_char c = Some b -> Forall is_byte b.
Proof.
  intros Hc. rewrite (utf8_char_arith c Hc). destruct Hc as [H0 H1].
  pose proof (Z.mod_pos_bound c 64 ltac:(lia)).
  pose proof (Z.mod_pos_bound (c / 64) 64 ltac:(lia)).
  pose proof (Z.mod_pos_bound (c / 4096) 64 ltac:(lia)).
  assert (0 <= c / 64 < 17408)
    by (split; [apply Z.div_pos | apply Z.div_lt_upper_bound]; lia).
  assert (0 <= c / 4096 < 272)
    by (split; [apply Z.div_pos | apply Z.div_lt_upper_bound]; lia).
  assert (0 <= c / 262144 < 5)
    by (split; [apply Z.div_pos | apply Z.div_lt_upper_bound]; lia).
  destruct (c <? 0x80) eqn:E1.
  { apply Z.ltb_lt in E1. intros Hb. assert (b = [c]) by congruence. subst b.
    repeat constructor; lia. }
  destruct (c <? 0x800) eqn:E2.
  { apply Z.ltb_lt in E2.
    assert (c / 64 < 32) by (apply Z.div_lt_upper_bound; lia).
    intros Hb. assert (b = [192 + c / 64; 128 + c mod 64]) by congruence. subst b.
    repeat constructor; lia. }
  destruct (surrogate c); [discriminate|].
  destruct (c <? 0x10000) eqn:E3.
  { apply Z.ltb_lt in E3.
    assert (c / 4096 < 16) by (apply Z.div_lt_upper_bound; lia).
    intros Hb.
    assert (b = [224 + c / 4096; 128 + (c / 64) mod 64; 128 + c mod 64])
      by congruence.
    subst b. repeat constructor; lia. }
  intros Hb.
  assert (b = [240 + c / 262144; 128 + (c / 4096) mod 64;
               128 + (c / 64) mod 64; 128 + c mod 64]) by congruence.
  subst b. repeat constructor; lia.
Qed.

Lemma utf8_encode_bytes (s : pystr) (b : bytes) :
  wf_str s -> utf8_encode s = Some b -> Forall is_byte b.
Proof.
  intros Hwf. revert b. induction Hwf as [|c s Hc Hs IH]; intros b.
  - intros Hb. assert (b = []) by (cbn in Hb; congruence). subst b. constructor.
  - cbn [utf8_encode].
    destruct (utf8_char c) as [bc|] eqn:Ec; [|discriminate].
    destruct (utf8_encode s) as [bs|] eqn:Es; [|discriminate].
    intros Hb. assert (b = bc ++ bs) by congruence. subst b.
    apply Forall_app. split; [exact (utf8_char_bytes c bc Hc Ec) | apply IH; reflexivity].
Qed.

(** ** C1: the framing of a command *)

(** C1. Whatever command [send_cmd] frames, the message is the magic byte
    0x02, the four bytes of the total length in the machine's byte order,
    the four bytes of the length of the UTF-8 encoding of the command, and
    that encoding; the total length is the content length plus 5, the
    content length is the length of the content, and reading the message
    back gives the command. *)
Theorem message_roundtrip (bo : byteorder) (cmd : pystr) (m : bytes) :
  wf_str cmd ->
  message bo cmd = Ok m ->
  exists b_cmd l_msg l_cmd msg,
    utf8_encode cmd = Some b_cmd /\
    to_bytes4 bo (len b_cmd) = Ok l_cmd /\
    to_bytes4 bo (len (l_cmd ++ b_cmd) + 5) = Ok l_msg /\
    m = 0x02 :: l_msg ++ l_cmd ++ b_cmd /\
    List.length l_msg = 4%nat /\ List.length l_cmd = 4%nat /\
    Forall is_byte m /\
    parse bo m = Some msg /\
    magic msg = 0x02 /\
    command msg = b_cmd /\
    command_length msg = len b_cmd /\
    total_length msg = content_length msg + 5 /\
    content_length msg = len (l_cmd ++ b_cmd) /\
    decode bo m = Some cmd.
Proof.
  intros Hwf Hm.
  destruct (message_inv _ _ _ Hm) as (b_cmd & He & Hf).
  destruct (frame_inv _ _ _ Hf) as (l_msg & l_cmd & Em & Ec & Hmsg & Hp).
  destruct (to_bytes4_inv _ _ _ Ec) as (_ & Lc & _ & Bc).
  destruct (to_bytes4_inv _ _ _ Em) as (_ & Lm & _ & Bm).
  assert (Hlen : len (l_cmd ++ b_cmd) = 4 + len b_cmd).
  { rewrite len_app. unfold len at 1. rewrite Lc. lia. }
  assert (Hbytes : Forall is_byte m).
  { rewrite Hmsg. constructor; [unfold is_byte; lia|].
    apply Forall_app. split; [exact Bm|]. apply Forall_app. split; [exact Bc|].
    exact (utf8_encode_bytes cmd b_cmd Hwf He). }
  exists b_cmd, l_msg, l_cmd.
  eexists. repeat split; try eassumption; try reflexivity.
  - rewrite Hlen. rewrite <- Em. f_equal. lia.
  - unfold content_length. cbn [command total_length]. lia.
  - unfold content_length. cbn [command]. lia.
  - unfold decode. rewrite Hp. unfold well_framed, content_length.
    cbn [magic total_length command_length command].
    replace (len b_cmd + 4 + 5 =? 4 + len b_cmd + 5) with true
      by (symmetry; apply Z.eqb_eq; lia).
    rewrite !Z.eqb_refl. cbn [andb]. apply utf8_roundtrip; assumption.
Qed.

Lemma message_roundtrip_witness :
  message little (lit "execute-keys -client c 3j3vj")
  = Ok ([2; 37; 0; 0; 0; 28; 0; 0; 0]
        ++ lit "execute-keys -client c 3j3vj")
  /\ decode little ([2; 37; 0; 0; 0; 28; 0; 0; 0]
                    ++ lit "execute-keys -client c 3j3vj")
     = Some (lit "execute-keys -client c 3j3vj").
Proof.
  split; [reflexivity|].
  destruct (message_roundtrip little (lit "execute-keys -client c 3j3vj")
              ([2; 37; 0; 0; 0; 28; 0; 0; 0]
               ++ lit "execute-keys -client c 3j3vj"))
    as (b & lm & lc & msg & H).
  - unfold wf_str. repeat constructor; vm_compute; discriminate.
  - reflexivity.
  - apply H.
Defined.

(** ** Sums of rationals *)

Lemma Qsum_app (a b : list Q) : (Qsum (a ++ b) == Qsum a + Qsum b)%Q.
Proof.
  induction a as [|x a IH]; cbn [app Qsum].
  - ring.
  - rewrite IH. ring.
Qed.

Lemma py_sum_from (l : list Q) (acc : Q) :
  (fold_left Qplus l acc == acc + Qsum l)%Q.
Proof.
  revert acc. induction l as [|x l IH]; intros acc; cbn [fold_left Qsum].
  - ring.
  - rewrite IH. ring.
Qed.

Lemma py_sum_Qsum (l : list Q) : (py_sum l == Qsum l)%Q.
Proof. unfold py_sum. rewrite py_sum_from. ring. Qed.

Lemma Qsum_map_ext {A} (f g : A -> Q) (l : list A) :
  (forall x, In x l -> (f x == g x)%Q) ->
  (Qsum (map f l) == Qsum (map g l))%Q.
Proof.
  induction l as [|x l IH]; intros H; cbn [map Qsum].
  - reflexivity.
  - rewrite (H x (or_introl eq_refl)).
    rewrite IH by (intros y Hy; apply H; right; exact Hy).
    reflexivity.
Qed.

Lemma Qsum_scale {A} (c : Q) (f : A -> Q) (l : list A) :
  (Qsum (map (fun x => c * f x) l) == c * Qsum (map f l))%Q.
Proof.
  induction l as [|x l IH]; cbn [map Qsum].
  - ring.
  - rewrite IH. ring.
Qed.

Lemma Qsum_pos {A} (f : A -> Q) (l : list A) :
  l <> [] -> (forall x, In x l -> (0 < f x)%Q) -> (0 < Qsum (map f l))%Q.
Proof.
  induction l as [|x l IH]; intros Hne H; [contradiction|].
  cbn [map Qsum].
  pose proof (H x (or_introl eq_refl)) as Hx.
  destruct l as [|y l].
  - cbn [map Qsum]. lra.
  - assert (0 < Qsum (map f (y :: l)))%Q.
    { apply IH; [discriminate|]. intros z Hz. apply H. right. exact Hz. }
    lra.
Qed.

(** Summing from the top index down is summing from the bottom up. *)
Lemma Qsum_descending (f : nat -> Q) (N : nat) :
  (Qsum (map (fun k => f (N - 1 - k)%nat) (seq 0 N)) == Qsum (map f (seq 0 N)))%Q.
Proof.
  induction N as [|N IH].
  - reflexivity.
  - rewrite seq_S at 2. rewrite map_app, Qsum_app.
    cbn [seq map Qsum Nat.add].
    rewrite <- seq_shift, map_map.
    rewrite (Qsum_map_ext (fun k => f (S N - 1 - S k)%nat)
                          (fun k => f (N - 1 - k)%nat)).
    + rewrite IH. replace (S N - 1 - 0)%nat with N by lia. ring.
    + intros k Hk. replace (S N - 1 - S k)%nat with (N - 1 - k)%nat by lia.
      reflexivity.
Qed.

(** ** The velocity schedule of the inertial loop *)

Section Schedule.

Variable S : Z.
Variable D : Q.
Hypothesis S_ge_2 : 2 <= S.
Hypothesis D_pos : (0 < D)%Q.

Local Abbreviation s := (inject_Z S).
Local Abbreviation N := (Z.to_nat (S - 1)).

Lemma s_ge_2 : (2 <= s)%Q.
Proof. change 2%Q with (inject_Z 2). rewrite <- Zle_Qle. exact S_ge_2. Qed.

Lemma inject_pred : (inject_Z (S - 1) == s - 1)%Q.
Proof.
  unfold Z.sub. rewrite inject_Z_plus, inject_Z_opp. reflexivity.
Qed.

Lemma index_bound (k : nat) : (k < N)%nat -> (inject_Z (Z.of_nat k) <= s - 2)%Q.
Proof.
  intros Hk.
  assert (Z.of_nat k <= S - 2) by lia.
  rewrite Zle_Qle in H. unfold Z.sub in H.
  rewrite inject_Z_plus, inject_Z_opp in H. exact H.
Qed.

Lemma harmonic_Qsum :
  (harmonic S == Qsum (map (fun k => 1 / inject_Z (2 + Z.of_nat k)) (seq 0 N)))%Q.
Proof.
  unfold harmonic. rewrite py_sum_Qsum. unfold range. rewrite map_map.
  replace (Z.to_nat (S + 1 - 2)) with N by (f_equal; lia).
  reflexivity.
Qed.

Lemma harmonic_pos : (0 < harmonic S)%Q.
Proof.
  rewrite harmonic_Qsum. apply Qsum_pos.
  - assert (HN : N <> 0%nat) by lia.
    destruct N; [contradiction | discriminate].
  - intros k _. apply Qlt_shift_div_l.
    + change 0%Q with (inject_Z 0). rewrite <- Zlt_Qlt. lia.
    + lra.
Qed.

Lemma initial_velocity_pos : (0 < initial_velocity S D)%Q.
Proof.
  unfold initial_velocity. pose proof s_ge_2. pose proof harmonic_pos.
  apply Qlt_shift_div_l.
  - rewrite inject_pred. apply Qmult_lt_0_compat; lra.
  - assert (0 < s * harmonic S)%Q by (apply Qmult_lt_0_compat; lra).
    lra.
Qed.

(** After [i] decrements the velocity is [v_1 * (S - i) / S]. *)
Lemma velocity_at_closed (i : nat) :
  (velocity_at S D i
   == initial_velocity S D * (s - inject_Z (Z.of_nat i)) / s)%Q.
Proof.
  pose proof s_ge_2.
  induction i as [|i IH].
  - change (velocity_at S D 0) with (initial_velocity S D).
    change (inject_Z (Z.of_nat 0)) with 0%Q. field. lra.
  - change (velocity_at S D (Datatypes.S i))
      with (velocity_at S D i - initial_velocity S D / inject_Z S)%Q.
    rewrite IH.
    rewrite Nat2Z.inj_succ. unfold Z.succ. rewrite inject_Z_plus.
    change (inject_Z 1) with 1%Q. field. lra.
Qed.

Lemma velocity_at_pos (i : nat) : (i <= N)%nat -> (0 < velocity_at S D i)%Q.
Proof.
  intros Hi. rewrite velocity_at_closed.
  pose proof s_ge_2. pose proof initial_velocity_pos.
  assert (Hk : (inject_Z (Z.of_nat i) <= s - 1)%Q).
  { rewrite <- inject_pred. rewrite <- Zle_Qle. lia. }
  apply Qlt_shift_div_l; [lra|].
  assert (0 < initial_velocity S D * (s - inject_Z (Z.of_nat i)))%Q
    by (apply Qmult_lt_0_compat; lra).
  lra.
Qed.

Lemma velocity_at_last_paced :
  (velocity_at S D (Z.to_nat (S - 2)) == initial_velocity S D * 2 / s)%Q.
Proof.
  rewrite velocity_at_closed. pose proof s_ge_2.
  rewrite Z2Nat.id by lia.
  unfold Z.sub. rewrite inject_Z_plus, inject_Z_opp.
  change (inject_Z 2) with 2%Q. field. lra.
Qed.

Lemma hold_at_paced (k : nat) :
  (k < N)%nat -> (hold_at S D k == 1 / velocity_at S D k)%Q.
Proof.
  intros Hk. unfold hold_at.
  replace (Z.of_nat k <? S - 1) with true
    by (symmetry; apply Z.ltb_lt; lia).
  cbn [b2q]. ring.
Qed.

Lemma hold_at_last : (hold_at S D N == 0)%Q.
Proof.
  unfold hold_at.
  replace (Z.of_nat N <? S - 1) with false
    by (symmetry; apply Z.ltb_ge; lia).
  cbn [b2q]. ring.
Qed.

Lemma hold_at_closed (k : nat) :
  (k < N)%nat ->
  (hold_at S D k
   == s / initial_velocity S D * (1 / (s - inject_Z (Z.of_nat k))))%Q.
Proof.
  intros Hk. rewrite hold_at_paced by assumption. rewrite velocity_at_closed.
  pose proof s_ge_2. pose proof initial_velocity_pos.
  pose proof (index_bound k Hk).
  field. repeat split; lra.
Qed.

(** The paced holds add up to [(S - 1) * duration]. *)
Lemma hold_at_sum :
  (Qsum (map (hold_at S D) (seq 0 N)) == inject_Z (S - 1) * D)%Q.
Proof.
  pose proof s_ge_2 as Hs. pose proof harmonic_pos as Hh.
  rewrite (Qsum_map_ext (hold_at S D)
             (fun k => s / initial_velocity S D
                       * (1 / (s - inject_Z (Z.of_nat k))))%Q).
  2:{ intros k Hk. apply in_seq in Hk. apply hold_at_closed. lia. }
  rewrite (Qsum_scale (s / initial_velocity S D)%Q
             (fun k => 1 / (s - inject_Z (Z.of_nat k)))%Q).
  rewrite (Qsum_map_ext (fun k => 1 / (s - inject_Z (Z.of_nat k)))%Q
             (fun k => 1 / inject_Z (2 + Z.of_nat (N - 1 - k)))%Q).
  2:{ intros k Hk. apply in_seq in Hk.
      replace (2 + Z.of_nat (N - 1 - k)) with (S + - Z.of_nat k)
        by lia.
      rewrite inject_Z_plus, inject_Z_opp. reflexivity. }
  rewrite (Qsum_descending (fun j => 1 / inject_Z (2 + Z.of_nat j))%Q N).
  rewrite <- harmonic_Qsum.
  unfold initial_velocity. rewrite inject_pred.
  field. repeat split; lra.
Qed.

(** Each paced hold is shorter than the next one. *)
Lemma hold_at_increasing (i j : nat) :
  (i < j < N)%nat -> (hold_at S D i < hold_at S D j)%Q.
Proof.
  intros Hij.
  rewrite !hold_at_paced by lia.
  pose proof (velocity_at_pos i ltac:(lia)) as Pi.
  pose proof (velocity_at_pos j ltac:(lia)) as Pj.
  assert (Hlt : (velocity_at S D j < velocity_at S D i)%Q).
  { rewrite !velocity_at_closed.
    pose proof s_ge_2. pose proof initial_velocity_pos as Pv.
    assert (Hidx : (inject_Z (Z.of_nat i) < inject_Z (Z.of_nat j))%Q)
      by (rewrite <- Zlt_Qlt; lia).
    unfold Qdiv. apply Qmult_lt_compat_r; [apply Qinv_lt_0_compat; lra|].
    apply Qmult_lt_l; [exact Pv | lra]. }
  unfold Qdiv. rewrite !Qmult_1_l.
  apply -> Qinv_lt_contravar; assumption.
Qed.

End Schedule.

(** ** Runs of the process *)

Lemma truediv_ok (x y : Q) : ~ (y == 0)%Q -> truediv x y = Ok (x / y)%Q.
Proof.
  intros Hy. unfold truediv.
  destruct (Qeq_bool y 0) eqn:E; [|reflexivity].
  apply Qeq_bool_iff in E. contradiction.
Qed.

Lemma truediv_zero (x y : Q) : (y == 0)%Q -> truediv x y = Raise ZeroDivisionError.
Proof.
  intros Hy. unfold truediv. apply Qeq_bool_iff in Hy. rewrite Hy. reflexivity.
Qed.

Lemma Qltb_lt (x y : Q) : Qltb x y = true <-> (x < y)%Q.
Proof.
  unfold Qltb. rewrite negb_true_iff. split.
  - intros E. apply Qnot_le_lt. intros Hle. apply Qle_bool_iff in Hle. congruence.
  - intros Hlt. destruct (Qle_bool y x) eqn:E; [|reflexivity].
    apply Qle_bool_iff in E. lra.
Qed.

Lemma calls_app (a b : list event) : calls (a ++ b) = calls a ++ calls b.
Proof. apply flat_map_app. Qed.

Lemma commands_app (a b : list event) : commands (a ++ b) = commands a ++ commands b.
Proof. apply flat_map_app. Qed.

Lemma frame_raises (bo : byteorder) (b : bytes) (e : exn) :
  frame bo b = Raise e -> e = OverflowError.
Proof.
  unfold frame, _get_length_bytes, to_bytes4.
  repeat match goal with
         | |- context [if ?c then _ else _] => destruct c
         end; cbv beta iota zeta; congruence.
Qed.

Section Runs.

Variable bo : byteorder.
Variable sys : system.

Lemma send_cmd_ok (self : KakSender) (cmd : pystr) (w : world) (msg : bytes) (k : Z) :
  connects sys w (socket_path self) = true ->
  message bo cmd = Ok msg ->
  accepts sys w msg = Some k ->
  send_cmd bo sys self cmd w = (Ok (k =? len msg), after_send sys (socket_path self) cmd msg k w).
Proof.
  intros Hc Hm Ha. unfold send_cmd, bind, lift, connect, sock_send, ret.
  unfold message in Hm.
  destruct (encode_utf8 cmd) as [b_cmd|]; [|discriminate].
  rewrite Hc, Hm, Ha. reflexivity.
Qed.

Lemma send_cmd_inv (self : KakSender) (cmd : pystr) (w w' : world) (r : result bool) :
  send_cmd bo sys self cmd w = (r, w') ->
  match r with
  | Ok b =>
      exists msg k,
        connects sys w (socket_path self) = true /\
        message bo cmd = Ok msg /\ accepts sys w msg = Some k /\
        b = (k =? len msg) /\ w' = after_send sys (socket_path self) cmd msg k w
  | Raise e => w' = w /\ e <> ZeroDivisionError
  end.
Proof.
  unfold send_cmd, bind, lift, connect, sock_send, ret, message.
  destruct (encode_utf8 cmd) as [b_cmd|e0] eqn:Ee.
  2:{ unfold encode_utf8 in Ee. destruct (utf8_encode cmd); [discriminate|].
      intros [= <- <-]. split; congruence. }
  destruct (connects sys w (socket_path self)) eqn:Ec.
  2:{ intros [= <- <-]. split; congruence. }
  destruct (frame bo b_cmd) as [msg|e1] eqn:Ef.
  2:{ apply frame_raises in Ef. intros [= <- <-]. split; congruence. }
  destruct (accepts sys w msg) as [k|] eqn:Ea.
  2:{ intros [= <- <-]. split; congruence. }
  intros [= <- <-]. exists msg, k. repeat split; assumption.
Qed.

Lemma scroll_once_inv (sender : KakSender) (step : Z) (d : Q)
    (w w' : world) (r : result unit) :
  scroll_once bo sys sender step d w = (r, w') ->
  calls (trace w') = calls (trace w) ++ [(step, d)] /\
  match r with
  | Ok _ =>
      commands (trace w')
      = commands (trace w) ++ [execute_keys sender (scroll_keys step)]
  | Raise e => e <> ZeroDivisionError /\ commands (trace w') = commands (trace w)
  end.
Proof.
  unfold scroll_once, bind, log, time, send_keys.
  fold (execute_keys sender (scroll_keys step)).
  set (w1 := {| now := now w; trace := trace w ++ [Scroll step d] |}).
  destruct (send_cmd bo sys sender (execute_keys sender (scroll_keys step)) w1)
    as [[b|e] w2] eqn:Es; apply send_cmd_inv in Es.
  - destruct Es as (msg & k & _ & _ & _ & _ & ->).
    destruct (Qltb _ d); unfold sleep, ret; intros [= <- <-];
      cbn [trace after_send w1];
      rewrite ?calls_app, ?commands_app; cbn [calls commands flat_map call_of command_of app];
      rewrite ?app_nil_r; split; reflexivity.
  - destruct Es as [-> Hne]. intros [= <- <-]. cbn [trace w1].
    rewrite calls_app, commands_app. cbn [calls commands flat_map call_of command_of app].
    rewrite ?app_nil_r. repeat split; assumption.
Qed.

(** The loop of lines 120-121. *)
Lemma fixed_loop_inv (sender : KakSender) (step : Z) (f : Z -> Q) (l : list Z)
    (w w' : world) (u : unit) :
  for_each l (fun i => scroll_once bo sys sender step (f i)) w = (Ok u, w') ->
  calls (trace w') = calls (trace w) ++ map (fun i => (step, f i)) l /\
  commands (trace w')
  = commands (trace w)
    ++ repeat (execute_keys sender (scroll_keys step)) (List.length l).
Proof.
  unfold for_each. revert w.
  induction l as [|i l IH]; intros w; cbn [for_fold].
  - unfold ret. intros H. assert (w' = w) by congruence. subst w'.
    cbn [map repeat List.length]. rewrite !app_nil_r. split; reflexivity.
  - unfold bind at 1.
    destruct (scroll_once bo sys sender step (f i) w) as [[u1|e] w1] eqn:E1;
      [|discriminate].
    apply scroll_once_inv in E1. destruct E1 as [Hc Hk]. destruct u1.
    intros Hrest. apply IH in Hrest. destruct Hrest as [Hc' Hk'].
    rewrite Hc', Hc, Hk', Hk. cbn [map repeat List.length].
    rewrite <- !app_assoc. split; reflexivity.
Qed.

(** The loop of lines 87-89, entered at index [a] with the velocity that
    [a] decrements leave. *)
Lemma inertial_loop_inv (sender : KakSender) (step S : Z) (D : Q) (n a : nat)
    (w w' : world) (vf : Q) :
  for_fold (map (fun k => 0 + Z.of_nat k) (seq a n))
    (inertial_body bo sys sender step S (initial_velocity S D / inject_Z S)%Q)
    (velocity_at S D a) w = (Ok vf, w') ->
  calls (trace w')
  = calls (trace w) ++ map (fun k => (step, hold_at S D k)) (seq a n).
Proof.
  revert a w. induction n as [|n IH]; intros a w; cbn [seq map for_fold].
  - unfold ret. intros H. assert (w' = w) by congruence. subst w'.
    rewrite app_nil_r. reflexivity.
  - unfold bind at 1. unfold inertial_body at 1. unfold bind at 1, lift at 1.
    destruct (truediv 1 (velocity_at S D a)) as [inv|e] eqn:Ed; [|discriminate].
    unfold truediv in Ed. destruct (Qeq_bool (velocity_at S D a) 0); [discriminate|].
    apply (f_equal (fun r => match r with Ok x => x | Raise _ => inv end)) in Ed.
    cbv beta iota in Ed. subst inv.
    unfold bind at 1.
    destruct (scroll_once bo sys sender step _ w) as [[u1|e] w1] eqn:E1;
      [|discriminate].
    apply scroll_once_inv in E1. destruct E1 as [Hc _].
    unfold ret at 1.
    change (velocity_at S D a - initial_velocity S D / inject_Z S)%Q
      with (velocity_at S D (Datatypes.S a)).
    intros Hrest. apply IH in Hrest. rewrite Hrest, Hc.
    rewrite <- app_assoc. reflexivity.
Qed.

Lemma inertial_loop_no_division_error (sender : KakSender) (step S : Z) (D : Q)
    (n a : nat) (w w' : world) (e : exn) :
  (forall k, (a <= k < a + n)%nat -> ~ (velocity_at S D k == 0)%Q) ->
  for_fold (map (fun k => 0 + Z.of_nat k) (seq a n))
    (inertial_body bo sys sender step S (initial_velocity S D / inject_Z S)%Q)
    (velocity_at S D a) w = (Raise e, w') ->
  e <> ZeroDivisionError.
Proof.
  revert a w. induction n as [|n IH]; intros a w Hv; cbn [seq map for_fold].
  - unfold ret. discriminate.
  - unfold bind at 1. unfold inertial_body at 1. unfold bind at 1, lift at 1.
    rewrite truediv_ok by (apply Hv; lia).
    unfold bind at 1.
    destruct (scroll_once bo sys sender step _ w) as [[u1|e1] w1] eqn:E1.
    + unfold ret at 1.
      change (velocity_at S D a - initial_velocity S D / inject_Z S)%Q
        with (velocity_at S D (Datatypes.S a)).
      apply IH. intros k Hk. apply Hv. lia.
    + apply scroll_once_inv in E1. destruct E1 as [_ [Hne _]].
      intros [= <- <-]. exact Hne.
Qed.

End Runs.

(** ** C9: what [send_cmd] reports *)

(** C9. On a connection that was opened, [send_cmd] returns [True] exactly
    when the socket accepted as many bytes as the framed message has, and
    [False] on a short write. *)
Theorem send_cmd_reports_full_write (bo : byteorder) (sys : system)
    (self : KakSender) (cmd : pystr) (w : world) (msg : bytes) (k : Z) :
  connects sys w (socket_path self) = true ->
  message bo cmd = Ok msg ->
  accepts sys w msg = Some k ->
  exists b w',
    send_cmd bo sys self cmd w = (Ok b, w') /\
    trace w' = trace w ++ [Sent (socket_path self) cmd msg k] /\
    (b = true <-> k = len msg) /\
    (k < len msg -> b = false).
Proof.
  intros Hc Hm Ha.
  exists (k =? len msg), (after_send sys (socket_path self) cmd msg k w).
  split; [apply send_cmd_ok; assumption|].
  split; [reflexivity|].
  split; [apply Z.eqb_eq|].
  intros Hlt. apply Z.eqb_neq. lia.
Qed.

Lemma send_cmd_reports_full_write_witness :
  exists b w',
    send_cmd little short_writes demo_sender (lit "nop") boot = (Ok b, w') /\
    trace w' = trace boot
               ++ [Sent (socket_path demo_sender) (lit "nop")
                        [2; 12; 0; 0; 0; 3; 0; 0; 0; 110; 111; 112] 11] /\
    (b = true <-> 11 = len [2; 12; 0; 0; 0; 3; 0; 0; 0; 110; 111; 112]) /\
    (11 < len [2; 12; 0; 0; 0; 3; 0; 0; 0; 110; 111; 112] -> b = false).
Proof.
  apply (send_cmd_reports_full_write little short_writes demo_sender (lit "nop")
           boot [2; 12; 0; 0; 0; 3; 0; 0; 0; 110; 111; 112] 11); reflexivity.
Defined.

(** ** C8: nothing to scroll *)

(** C8. When [maxscroll] is 0, that is [line_count - cursor_line] for a
    positive amount and [cursor_line - 1] otherwise, [main] returns at once:
    the world is as it was, no command was sent. *)
Theorem main_nothing_to_scroll (bo : byteorder) (sys : system) (env : environ)
    (a : inputs) (w : world) :
  ((0 < amount a)%Q /\ line_count a - cursor_line a = 0)
  \/ (~ (0 < amount a)%Q /\ cursor_line a - 1 = 0) ->
  maxscroll a = 0 /\ main bo sys env a w = (Ok tt, w).
Proof.
  intros H.
  assert (Hm : maxscroll a = 0).
  { unfold maxscroll. destruct (Qltb 0 (amount a)) eqn:E.
    - apply Qltb_lt in E. destruct H as [[_ H]|[H _]]; [exact H | contradiction].
    - destruct H as [[H _]|[_ H]]; [|exact H].
      apply Qltb_lt in H. congruence. }
  split; [exact Hm|]. unfold main. rewrite Hm. reflexivity.
Qed.

Lemma main_nothing_to_scroll_witness :
  main little reliable demo_environ
    {| cursor_line := 1000; line_count := 1000; window_height := 42;
       kak_count := 0; amount := 1%Q; duration_ms := 10%Q; speed := 0 |} boot
  = (Ok tt, boot).
Proof.
  apply (main_nothing_to_scroll little reliable demo_environ
           {| cursor_line := 1000; line_count := 1000; window_height := 42;
              kak_count := 0; amount := 1%Q; duration_ms := 10%Q; speed := 0 |}
           boot).
  left. split; reflexivity.
Defined.

(** ** C3: the number of lines to scroll *)

Lemma py_int_nonneg (x : Q) : (0 <= x)%Q -> py_int x = Qfloor x.
Proof.
  destruct x as [n d]. unfold Qle, py_int, Qfloor. cbn [Qnum Qden].
  intros H. apply Z.quot_div_nonneg; lia.
Qed.

Lemma py_int_nonpos (x : Q) : (x <= 0)%Q -> py_int x = Qceiling x.
Proof.
  destruct x as [n d]. unfold Qle, py_int, Qceiling, Qfloor, Qopp.
  cbn [Qnum Qden]. intros H.
  rewrite <- (Z.opp_involutive n) at 1. rewrite Z.quot_opp_l by lia.
  rewrite Z.quot_div_nonneg by lia. reflexivity.
Qed.

(** [int()] truncates the rational a finite float stands for, and fails on
    the others. *)
Lemma int_of_float_value (x : float) (n : Z) :
  int_of_float x = Ok n -> finite x = true /\ n = py_int (float_value x).
Proof.
  destruct x as [s | s | | s m e]; cbn [int_of_float finite float_value];
    try discriminate.
  - intros H. assert (n = 0) by congruence. subst n.
    split; reflexivity.
  - intros H. split; [reflexivity|].
    assert (Hn : n = (if s
                      then - (if 0 <=? e then Z.shiftl (Z.pos m) e
                              else Z.shiftr (Z.pos m) (- e))
                      else (if 0 <=? e then Z.shiftl (Z.pos m) e
                            else Z.shiftr (Z.pos m) (- e)))) by congruence.
    rewrite Hn. clear H Hn.
    destruct (0 <=? e) eqn:E.
    + apply Z.leb_le in E. rewrite Z.shiftl_mul_pow2 by exact E.
      unfold py_int, inject_Z. cbn [Qnum Qden]. rewrite Z.quot_1_r.
      destruct s; [rewrite <- Z.mul_opp_l|]; reflexivity.
    + apply Z.leb_gt in E. rewrite Z.shiftr_div_pow2 by lia.
      unfold py_int. cbn [Qnum Qden].
      assert (Hd : Z.pos (2 ^ Z.to_pos (- e)) = 2 ^ (- e)).
      { rewrite Pos2Z.inj_pow, Z2Pos.id by lia. reflexivity. }
      rewrite Hd.
      assert (Hpos : 0 < 2 ^ (- e)) by (apply Z.pow_pos_nonneg; lia).
      destruct s.
      * change (Z.neg m) with (- Z.pos m). rewrite Z.quot_opp_l by lia.
        rewrite Z.quot_div_nonneg by lia. reflexivity.
      * rewrite Z.quot_div_nonneg by lia. reflexivity.
Qed.

Lemma n_lines_float_inv (count_ : Z) (amount_ : float)
    (window_height_ maxscroll_ n : Z) :
  n_lines_float count_ amount_ window_height_ maxscroll_ = Ok n ->
  exists c h,
    float_of_int count_ = Ok c /\
    float_of_int (window_height_ - 2) = Ok h /\
    finite (fmul (fmul c (fabs amount_)) h) = true /\
    n = Z.min (py_int (float_value (fmul (fmul c (fabs amount_)) h))) maxscroll_.
Proof.
  intros Hrun. unfold n_lines_float in Hrun.
  destruct (float_of_int count_) as [c|] eqn:Ec; [|discriminate].
  destruct (float_of_int (window_height_ - 2)) as [h|] eqn:Eh; [|discriminate].
  cbn [bindr] in Hrun.
  destruct (int_of_float (fmul (fmul c (fabs amount_)) h)) as [lines|] eqn:Ei;
    [|discriminate].
  cbn [bindr] in Hrun.
  assert (Hn : n = Z.min lines maxscroll_) by congruence.
  destruct (int_of_float_value _ _ Ei) as [Hfin Hl].
  exists c, h. split; [reflexivity|]. split; [reflexivity|].
  split; [exact Hfin|]. rewrite Hn, Hl. reflexivity.
Qed.

Lemma int_of_float_finite (x : float) :
  finite x = true -> int_of_float x = Ok (py_int (float_value x)).
Proof.
  intros Hf. destruct (int_of_float x) as [n|e] eqn:E.
  - destruct (int_of_float_value x n E) as [_ ->]. reflexivity.
  - destruct x; cbn [finite int_of_float] in *; discriminate.
Qed.

(** C3, as the code has it. When the double product
    [count * abs(amount) * (window_height - 2)] is finite, the number of
    lines is the smaller of [maxscroll] and that product truncated toward
    zero (its floor when it is not negative, its ceiling otherwise); for a
    full page in a 42-line window and a count of 1 it is
    [min(40, maxscroll)]. *)
Theorem n_lines_float_truncates (count_ : Z) (amount_ : float)
    (window_height_ maxscroll_ : Z) (c h : float) :
  float_of_int count_ = Ok c ->
  float_of_int (window_height_ - 2) = Ok h ->
  finite (fmul (fmul c (fabs amount_)) h) = true ->
  n_lines_float count_ amount_ window_height_ maxscroll_
  = Ok (Z.min (py_int (float_value (fmul (fmul c (fabs amount_)) h))) maxscroll_) /\
  ((0 <= float_value (fmul (fmul c (fabs amount_)) h))%Q ->
   n_lines_float count_ amount_ window_height_ maxscroll_
   = Ok (Z.min (Qfloor (float_value (fmul (fmul c (fabs amount_)) h))) maxscroll_)) /\
  ((float_value (fmul (fmul c (fabs amount_)) h) <= 0)%Q ->
   n_lines_float count_ amount_ window_height_ maxscroll_
   = Ok (Z.min (Qceiling (float_value (fmul (fmul c (fabs amount_)) h))) maxscroll_)) /\
  (forall m, n_lines_float 1 (nearest_int 1) 42 m = Ok (Z.min 40 m)).
Proof.
  intros Hc Hh Hfin.
  assert (Hrun : n_lines_float count_ amount_ window_height_ maxscroll_
                 = Ok (Z.min (py_int (float_value (fmul (fmul c (fabs amount_)) h)))
                         maxscroll_)).
  { unfold n_lines_float. rewrite Hc, Hh. cbn [bindr].
    rewrite (int_of_float_finite _ Hfin). reflexivity. }
  split; [exact Hrun|]. split; [|split].
  - intros H. rewrite Hrun, py_int_nonneg by exact H. reflexivity.
  - intros H. rewrite Hrun, py_int_nonpos by exact H. reflexivity.
  - intros m. reflexivity.
Qed.

Lemma n_lines_float_truncates_witness :
  n_lines_float 1 (nearest_ratio 3 10) 12 999
  = Ok (Z.min (py_int (float_value
                 (fmul (fmul (nearest_int 1) (fabs (nearest_ratio 3 10)))
                       (nearest_int 10)))) 999)
  /\ n_lines_float 1 (nearest_ratio 3 10) 12 999 = Ok 3.
Proof.
  destruct (n_lines_float_truncates 1 (nearest_ratio 3 10) 12 999
              (nearest_int 1) (nearest_int 10)) as [H _].
  - reflexivity.
  - reflexivity.
  - vm_compute. reflexivity.
  - split; [exact H | vm_compute; reflexivity].
Defined.

(** C3 as stated fails: with [amount = 0.9] in a 5-line window the double
    product is 2.7000000000000001776, the code plans 2 lines, rounding to
    the nearest gives 3. *)
Lemma n_lines_float_not_rounded :
  n_lines_float 1 (nearest_ratio 9 10) 5 999 = Ok 2 /\
  fmul (fmul (nearest_int 1) (fabs (nearest_ratio 9 10))) (nearest_int (5 - 2))
  = S754_finite false 6079859496950170 (-51) /\
  py_round (float_value (S754_finite false 6079859496950170 (-51))) = 3 /\
  Z.min (py_round (float_value (S754_finite false 6079859496950170 (-51)))) 999 <> 2.
Proof.
  split; [vm_compute; reflexivity|]. split; [vm_compute; reflexivity|].
  split; [vm_compute; reflexivity | vm_compute; discriminate].
Qed.

(** Where the two roundings of the double product count: 0.3 in a 12-line
    window is 3 lines, 0.29 in a 102-line window is 28; a product that
    overflows or is not a number makes [int()] fail. *)
Lemma n_lines_float_roundings :
  n_lines_float 1 (nearest_ratio 3 10) 12 999 = Ok 3 /\
  n_lines_float 1 (nearest_ratio 29 100) 102 999 = Ok 28 /\
  n_lines_float 2 (nearest_int (2 ^ 1023)) 42 999 = Raise OverflowError /\
  n_lines_float 1 S754_nan 42 999 = Raise ValueError.
Proof. repeat split; vm_compute; reflexivity. Qed.

(** ** C10 and C2: targets of magnitude 0 and 1 *)

Lemma inertial_zero_raises (bo : byteorder) (sys : system) (sender : KakSender)
    (duration : Q) (w : world) :
  inertial_scroll bo sys sender 0 duration w = (Raise ZeroDivisionError, w).
Proof.
  unfold inertial_scroll, bind, lift. cbn [Z.abs].
  destruct (truediv (inject_Z 0 * harmonic 0) (inject_Z (0 - 1) * duration))
    as [velocity|e] eqn:E1.
  - rewrite truediv_zero by reflexivity. reflexivity.
  - unfold truediv in E1.
    destruct (Qeq_bool (inject_Z (0 - 1) * duration) 0); [|discriminate].
    congruence.
Qed.



(** C2, on the code. An inertial run with a target of one line, down or
    up, raises [ZeroDivisionError] at the first division, by
    [(n_lines - 1) * duration], before anything is sent; [main] gets there
    one line above the end of the buffer. *)
Theorem inertial_single_line_raises (bo : byteorder) (sys : system)
    (sender : KakSender) (duration : Q) (w : world) :
  truediv (inject_Z 1 * harmonic 1) (inject_Z (1 - 1) * duration)
  = Raise ZeroDivisionError /\
  inertial_scroll bo sys sender 1 duration w = (Raise ZeroDivisionError, w) /\
  inertial_scroll bo sys sender (-1) duration w = (Raise ZeroDivisionError, w) /\
  main little reliable demo_environ
    {| cursor_line := 999; line_count := 1000; window_height := 42;
       kak_count := 0; amount := 1%Q; duration_ms := 10%Q; speed := 0 |} boot
  = (Raise ZeroDivisionError, boot).
Proof.
  assert (Hz : truediv (inject_Z 1 * harmonic 1) (inject_Z (1 - 1) * duration)
               = Raise ZeroDivisionError).
  { apply truediv_zero. change (inject_Z (1 - 1)) with 0%Q. ring. }
  split; [exact Hz|]. split; [|split].
  - unfold inertial_scroll, bind, lift. cbn [Z.abs]. rewrite Hz. reflexivity.
  - unfold inertial_scroll, bind, lift. cbn [Z.abs Pos.of_nat]. rewrite Hz.
    reflexivity.
  - vm_compute. reflexivity.
Qed.

(** ** C4 and C5: the fixed-speed path *)

(** C4, on the code. With speed 0 and a tick of 0 ms the fixed-speed path
    is taken and a full page of 40 lines is sent as 40 commands, each with
    step 0 and the keys [0k0vk], not with magnitude [max(speed, 1) = 1]. *)
Theorem fixed_path_zero_speed_steps :
  let run := main little reliable demo_environ (page_down 0 0) boot in
  fixed_path (page_down 0 0) = true /\
  n_lines (page_down 0 0) / Z.max (speed (page_down 0 0)) 1 = 40 /\
  fst run = Ok tt /\
  steps (trace (snd run)) = repeat 0 40 /\
  commands (trace (snd run)) = repeat (lit "execute-keys -client c 0k0vk") 40.
Proof.
  cbv zeta. split; [|split; [|split; [|split]]]; vm_compute; reflexivity.
Qed.

Lemma range_length (a b : Z) : List.length (range a b) = Z.to_nat (b - a).
Proof. unfold range. rewrite length_map, length_seq. reflexivity. Qed.

Lemma map_const {A B} (c : B) (l : list A) :
  map (fun _ => c) l = repeat c (List.length l).
Proof. induction l as [|x l IH]; cbn [map repeat List.length]; congruence. Qed.

(** C5. A fixed-speed run over [n] lines at [s >= 1] lines per tick that
    runs to its end sends exactly [n // s] commands, each for [s] lines in
    the direction of the sign; the lines sent do not exceed [n]. *)
Theorem fixed_scroll_ticks (bo : byteorder) (sys : system) (sender : KakSender)
    (n sgn s : Z) (duration : Q) (w w' : world) :
  0 <= n -> 1 <= s -> sgn = 1 \/ sgn = -1 ->
  fixed_scroll bo sys sender n sgn s duration w = (Ok tt, w') ->
  steps (trace w') = steps (trace w) ++ repeat (sgn * s) (Z.to_nat (n / s)) /\
  commands (trace w')
  = commands (trace w)
    ++ repeat (execute_keys sender (scroll_keys (sgn * s))) (Z.to_nat (n / s)) /\
  scroll_keys (sgn * s)
  = (if sgn =? 1
     then str_of_int s ++ lit "j" ++ str_of_int s ++ lit "vj"
     else str_of_int s ++ lit "k" ++ str_of_int s ++ lit "vk") /\
  Z.abs (sgn * s) = s /\
  Z.of_nat (Z.to_nat (n / s)) = n / s /\
  Z.of_nat (Z.to_nat (n / s)) * s <= n.
Proof.
  intros Hn Hs Hsgn Hrun. unfold fixed_scroll in Hrun.
  rewrite Z.max_l in Hrun by lia.
  apply fixed_loop_inv in Hrun. destruct Hrun as [Hc Hk].
  rewrite range_length, Z.sub_0_r in Hk.
  assert (Hq : 0 <= n / s) by (apply Z.div_pos; lia).
  repeat split.
  - unfold steps. rewrite Hc, map_app, map_map. cbn [fst].
    rewrite map_const, range_length, Z.sub_0_r. reflexivity.
  - exact Hk.
  - unfold scroll_keys. destruct Hsgn as [-> | ->].
    + rewrite Z.mul_1_l. replace (s >? 0) with true by (symmetry; lia).
      rewrite Z.abs_eq by lia. reflexivity.
    + replace (-1 * s >? 0) with false by (symmetry; lia).
      replace (Z.abs (-1 * s)) with s by lia. reflexivity.
  - destruct Hsgn as [-> | ->]; lia.
  - lia.
  - rewrite Z2Nat.id by lia. rewrite Z.mul_comm. apply Z.mul_div_le. lia.
Qed.

Lemma fixed_scroll_ticks_witness :
  steps (trace (snd (fixed_scroll little reliable demo_sender 10 1 3 (1 # 100) boot)))
  = [3; 3; 3]
  /\ commands
       (trace (snd (fixed_scroll little reliable demo_sender 10 1 3 (1 # 100) boot)))
     = repeat (lit "execute-keys -client c 3j3vj") 3.
Proof.
  destruct (fixed_scroll_ticks little reliable demo_sender 10 1 3 (1 # 100) boot
              (snd (fixed_scroll little reliable demo_sender 10 1 3 (1 # 100) boot)))
    as (Hs & Hc & _).
  - lia.
  - lia.
  - left. reflexivity.
  - vm_compute. reflexivity.
  - split; [exact Hs | exact Hc].
Defined.

(** ** C6 and C7: the inertial path *)

Lemma nth_map_seq {A} (f : nat -> A) (n i : nat) (d : A) :
  (i < n)%nat -> nth i (map f (seq 0 n)) d = f i.
Proof.
  intros Hi. rewrite (nth_indep _ d (f 0%nat)) by (rewrite length_map, length_seq; exact Hi).
  rewrite map_nth, seq_nth by exact Hi. reflexivity.
Qed.

Lemma firstn_map_seq_from {A} (f : nat -> A) (a n m : nat) :
  (m <= n)%nat -> firstn m (map f (seq a n)) = map f (seq a m).
Proof.
  revert a n. induction m as [|m IH]; intros a n Hm; [reflexivity|].
  destruct n as [|n]; [lia|].
  cbn [seq map firstn]. rewrite IH by lia. reflexivity.
Qed.

Lemma firstn_map_seq {A} (f : nat -> A) (n m : nat) :
  (m <= n)%nat -> firstn m (map f (seq 0 n)) = map f (seq 0 m).
Proof. apply firstn_map_seq_from. Qed.

Section InertialRun.

Variable bo : byteorder.
Variable sys : system.
Variable sender : KakSender.
Variable target : Z.
Variable duration : Q.
Hypothesis target_ge_2 : 2 <= Z.abs target.
Hypothesis duration_pos : (0 < duration)%Q.

Local Abbreviation S := (Z.abs target).
Local Abbreviation step := (if target >? 0 then 1 else -1).

Lemma inertial_scroll_loop (w : world) :
  inertial_scroll bo sys sender target duration w
  = bind (for_fold (map (fun k => 0 + Z.of_nat k) (seq 0 (Z.to_nat S)))
            (inertial_body bo sys sender step S
               (initial_velocity S duration / inject_Z S)%Q)
            (velocity_at S duration 0))
         (fun _ => ret tt) w.
Proof.
  unfold inertial_scroll. cbv zeta.
  unfold bind at 1, lift at 1.
  rewrite truediv_ok.
  2:{ rewrite (inject_pred S). pose proof (s_ge_2 S target_ge_2).
      intros H0. assert (0 < (inject_Z S - 1) * duration)%Q
        by (apply Qmult_lt_0_compat; lra). lra. }
  unfold bind at 1, lift at 1.
  rewrite truediv_ok.
  2:{ pose proof (s_ge_2 S target_ge_2). lra. }
  unfold range. rewrite Z.sub_0_r. reflexivity.
Qed.

Lemma inertial_scroll_calls (w w' : world) :
  inertial_scroll bo sys sender target duration w = (Ok tt, w') ->
  calls (trace w')
  = calls (trace w)
    ++ map (fun k => (step, hold_at S duration k)) (seq 0 (Z.to_nat S)).
Proof.
  rewrite inertial_scroll_loop. unfold bind.
  destruct (for_fold _ _ _ w) as [[vf|e] w1] eqn:E; [|discriminate].
  unfold ret. intros H. assert (w1 = w') by congruence. subst w1.
  apply inertial_loop_inv in E. exact E.
Qed.

Lemma inertial_scroll_no_division_error (w : world) :
  fst (inertial_scroll bo sys sender target duration w) <> Raise ZeroDivisionError.
Proof.
  rewrite inertial_scroll_loop. unfold bind.
  destruct (for_fold _ _ _ w) as [[vf|e] w1] eqn:E.
  - unfold ret. cbn [fst]. discriminate.
  - cbn [fst]. apply inertial_loop_no_division_error in E.
    + congruence.
    + intros k Hk.
      pose proof (velocity_at_pos S duration target_ge_2 duration_pos k) as Hp.
      assert (0 < velocity_at S duration k)%Q by (apply Hp; lia).
      lra.
Qed.

End InertialRun.

(** C6, as the code has it. In an inertial run over [S >= 2] lines that
    runs to its end the holds of the first [S - 1] steps are the inverses of
    the velocities, strictly increasing from one step to the next, and add
    up to [(S - 1) * duration]; the hold of the last step is 0. *)
Theorem inertial_hold_durations (bo : byteorder) (sys : system)
    (sender : KakSender) (target : Z) (duration : Q) (w w' : world) :
  2 <= Z.abs target -> (0 < duration)%Q ->
  inertial_scroll bo sys sender target duration w = (Ok tt, w') ->
  exists hs,
    holds (trace w') = holds (trace w) ++ hs /\
    List.length hs = Z.to_nat (Z.abs target) /\
    (forall i, (i < Z.to_nat (Z.abs target - 1))%nat ->
       (nth i hs 0 == 1 / velocity_at (Z.abs target) duration i)%Q) /\
    increasing (firstn (Z.to_nat (Z.abs target - 1)) hs) /\
    (Qsum (firstn (Z.to_nat (Z.abs target - 1)) hs)
     == inject_Z (Z.abs target - 1) * duration)%Q /\
    (nth (Z.to_nat (Z.abs target - 1)) hs 0 == 0)%Q.
Proof.
  intros HS HD Hrun.
  set (S := Z.abs target) in *.
  exists (map (hold_at S duration) (seq 0 (Z.to_nat S))).
  split.
  { unfold holds. rewrite (inertial_scroll_calls _ _ _ _ _ HS HD _ _ Hrun).
    rewrite map_app, map_map. reflexivity. }
  split; [rewrite length_map, length_seq; reflexivity|].
  split.
  { intros i Hi. rewrite nth_map_seq by lia.
    apply hold_at_paced; assumption. }
  rewrite firstn_map_seq by lia.
  split.
  { intros i j Hij. rewrite length_map, length_seq in Hij.
    rewrite !nth_map_seq by lia.
    apply hold_at_increasing; assumption. }
  split; [apply hold_at_sum; assumption|].
  rewrite nth_map_seq by lia. apply hold_at_last; assumption.
Qed.

Lemma inertial_hold_durations_witness :
  exists hs,
    holds (trace (snd (inertial_scroll little reliable demo_sender 5 (1 # 100) boot)))
    = holds (trace boot) ++ hs /\
    List.length hs = 5%nat /\
    (Qsum (firstn 4 hs) == 4 # 100)%Q.
Proof.
  destruct (inertial_hold_durations little reliable demo_sender 5 (1 # 100) boot
              (snd (inertial_scroll little reliable demo_sender 5 (1 # 100) boot)))
    as (hs & H1 & H2 & _ & _ & H5 & _).
  - cbn. lia.
  - reflexivity.
  - vm_compute. reflexivity.
  - exists hs. split; [exact H1|]. split; [exact H2|].
    rewrite H5. reflexivity.
Defined.

(** C6 as stated fails: in the run over 5 lines at 10 ms per tick the holds
    of the paced steps are 12/1925, 15/1925, 20/1925 and 30/1925 of a second,
    not a decreasing sequence. *)
Lemma inertial_holds_not_decreasing :
  let run := inertial_scroll little reliable demo_sender 5 (1 # 100) boot in
  fst run = Ok tt /\
  Forall2 Qeq (firstn 4 (holds (trace (snd run))))
    [12 # 1925; 15 # 1925; 20 # 1925; 30 # 1925]%Q /\
  ~ decreasing (firstn 4 (holds (trace (snd run)))).
Proof.
  cbv zeta. split; [vm_compute; reflexivity|]. split.
  - vm_compute. repeat constructor.
  - intros H. specialize (H 0%nat 1%nat). vm_compute in H.
    assert (Hlt : (0 < 1 < 4)%nat) by lia.
    specialize (H Hlt). discriminate H.
Qed.

(** Over exact rationals, as the spec argues: for [S >= 2] and a positive
    tick the velocity is positive at every paced step, and [v_1 * 2 / S] at
    the last of them. *)
Lemma velocity_at_exact (target : Z) (duration : Q) :
  2 <= Z.abs target -> (0 < duration)%Q ->
  (forall i, (i <= Z.to_nat (Z.abs target - 2))%nat ->
     (0 < velocity_at (Z.abs target) duration i)%Q /\
     truediv 1 (velocity_at (Z.abs target) duration i)
     = Ok (1 / velocity_at (Z.abs target) duration i)%Q) /\
  (velocity_at (Z.abs target) duration (Z.to_nat (Z.abs target - 2))
   == initial_velocity (Z.abs target) duration * 2 / inject_Z (Z.abs target))%Q.
Proof.
  intros HS HD. split.
  - intros i Hi.
    assert (Hp : (0 < velocity_at (Z.abs target) duration i)%Q)
      by (apply velocity_at_pos; try assumption; lia).
    split; [exact Hp|]. apply truediv_ok. lra.
  - apply velocity_at_last_paced. exact HS.
Qed.

(** C7 as stated fails on binary64: with an infinite tick, or a tick of
    1e308 ms over 3000 lines, [(n_lines - 1) * duration] is infinite, the
    velocity of lines 84-85 is 0.0 and the first [1 / velocity] raises
    [ZeroDivisionError]. *)
Lemma inertial_velocity_zero_on_overflow :
  fltb (S754_zero false) infinity = true /\
  initial_velocity_float 5 infinity = Ok (S754_zero false) /\
  ftruediv (nearest_int 1) (S754_zero false) = Raise ZeroDivisionError /\
  inertial_holds_float 5 infinity = Raise ZeroDivisionError /\
  finite (fdiv (nearest_int (10 ^ 308)) (nearest_int 1000)) = true /\
  fltb (S754_zero false) (fdiv (nearest_int (10 ^ 308)) (nearest_int 1000)) = true /\
  initial_velocity_float 3000 (fdiv (nearest_int (10 ^ 308)) (nearest_int 1000))
  = Ok (S754_zero false) /\
  inertial_holds_float 3000 (fdiv (nearest_int (10 ^ 308)) (nearest_int 1000))
  = Raise ZeroDivisionError.
Proof. repeat split; vm_compute; reflexivity. Qed.


(** ** Rounding on binary64 *)

Lemma digits2_pos_bounds (m : positive) :
  2 ^ (Z.pos (digits2_pos m) - 1) <= Z.pos m < 2 ^ Z.pos (digits2_pos m).
Proof.
  induction m as [m IH | m IH |]; cbn [digits2_pos].
  3: cbn; lia.
  all: rewrite Pos2Z.inj_succ;
    replace (Z.succ (Z.pos (digits2_pos m)) - 1) with (Z.pos (digits2_pos m))
      by lia;
    rewrite Z.pow_succ_r by lia;
    assert (E : 2 ^ Z.pos (digits2_pos m) = 2 * 2 ^ (Z.pos (digits2_pos m) - 1))
      by (rewrite <- Z.pow_succ_r by lia; f_equal; lia).
  all: set (a := 2 ^ Z.pos (digits2_pos m)) in *;
    set (b := 2 ^ (Z.pos (digits2_pos m) - 1)) in *; clearbody a b.
  - change (Z.pos m~1) with (2 * Z.pos m + 1). lia.
  - change (Z.pos m~0) with (2 * Z.pos m). lia.
Qed.

(** The number of digits is the only [d] with [2^(d-1) <= m < 2^d]. *)
Lemma digits2_pos_unique (m : positive) (d : Z) :
  2 ^ (d - 1) <= Z.pos m < 2 ^ d -> Z.pos (digits2_pos m) = d.
Proof.
  intros [Hl Hu]. pose proof (digits2_pos_bounds m) as [Bl Bu].
  assert (Hd : 0 < d).
  { destruct (Z_lt_le_dec 0 d) as [H|H]; [exact H|].
    destruct (Z.eq_dec d 0) as [->|Hn]; [cbn in Hu; lia|].
    rewrite Z.pow_neg_r in Hu by lia. lia. }
  destruct (Z.lt_trichotomy (Z.pos (digits2_pos m)) d) as [H | [H | H]];
    [|exact H|].
  - assert (2 ^ Z.pos (digits2_pos m) <= 2 ^ (d - 1))
      by (apply Z.pow_le_mono_r; lia). lia.
  - assert (2 ^ d <= 2 ^ (Z.pos (digits2_pos m) - 1))
      by (apply Z.pow_le_mono_r; lia). lia.
Qed.

Lemma shr_1_m (r : shr_record) :
  0 <= shr_m r -> shr_m (shr_1 r) = shr_m r / 2.
Proof.
  destruct r as [m r s]. cbn [shr_m]. intros Hm.
  destruct m as [|p|p]; [reflexivity| |lia].
  destruct p as [p|p|]; cbn [shr_1 shr_m].
  - change (Z.pos p~1) with (2 * Z.pos p + 1). apply Z.div_unique with (r := 1); lia.
  - change (Z.pos p~0) with (2 * Z.pos p). apply Z.div_unique with (r := 0); lia.
  - reflexivity.
Qed.

Lemma iter_shr_1_m (p : positive) (r : shr_record) :
  0 <= shr_m r -> shr_m (iter_pos shr_1 p r) = shr_m r / 2 ^ Z.pos p.
Proof.
  revert r. induction p as [p IH | p IH |]; intros r Hr; cbn [iter_pos].
  - assert (H1 : 0 <= shr_m (shr_1 r))
      by (rewrite shr_1_m by exact Hr; apply Z.div_pos; lia).
    assert (H2 : 0 <= shr_m (iter_pos shr_1 p (shr_1 r)))
      by (rewrite IH by exact H1; apply Z.div_pos; [exact H1 | lia]).
    rewrite IH by exact H2. rewrite IH by exact H1. rewrite shr_1_m by exact Hr.
    rewrite !Z.div_div by lia. f_equal.
    change (Z.pos p~1) with (2 * Z.pos p + 1).
    replace (2 * Z.pos p + 1) with (1 + Z.pos p + Z.pos p) by lia.
    rewrite !Z.pow_add_r by lia. change (2 ^ 1) with 2. ring.
  - assert (H2 : 0 <= shr_m (iter_pos shr_1 p r))
      by (rewrite IH by exact Hr; apply Z.div_pos; [exact Hr | lia]).
    rewrite IH by exact H2. rewrite IH by exact Hr.
    rewrite !Z.div_div by lia. f_equal.
    change (Z.pos p~0) with (2 * Z.pos p).
    replace (2 * Z.pos p) with (Z.pos p + Z.pos p) by lia.
    rewrite Z.pow_add_r by lia. ring.
  - rewrite shr_1_m by exact Hr. reflexivity.
Qed.

Lemma shr_record_of_loc_m (m : Z) (l : location) :
  shr_m (shr_record_of_loc m l) = m.
Proof. destruct l as [|[]]; reflexivity. Qed.

Lemma loc_of_shr_record_of_loc (m : Z) (l : location) :
  loc_of_shr_record (shr_record_of_loc m l) = l.
Proof. destruct l as [|[]]; reflexivity. Qed.

(** Shifting right by [n] digits divides the mantissa by [2^n]. *)
Lemma shr_m_div (m : Z) (l : location) (e n : Z) :
  0 <= m -> 0 <= n ->
  shr_m (fst (shr (shr_record_of_loc m l) e n)) = m / 2 ^ n /\
  snd (shr (shr_record_of_loc m l) e n) = e + n.
Proof.
  intros Hm Hn. destruct n as [|p|p]; [| |lia]; cbn [shr fst snd].
  - rewrite shr_record_of_loc_m, Z.div_1_r. split; [reflexivity | lia].
  - rewrite iter_shr_1_m by (rewrite shr_record_of_loc_m; exact Hm).
    rewrite shr_record_of_loc_m. split; reflexivity.
Qed.

Lemma round_nearest_even_cases (m : Z) (l : location) :
  round_nearest_even m l = m \/ round_nearest_even m l = m + 1.
Proof.
  destruct l as [|[]]; cbn [round_nearest_even]; auto.
  destruct (Z.even m); auto.
Qed.

Lemma fexp_normal (x : Z) : -1074 <= x - 53 -> fexp 53 1024 x = x - 53.
Proof. unfold fexp, emin. lia. Qed.

(** A mantissa of at least 53 digits whose value lies in the normal range
    is rounded to one of the two 53-digit neighbours of its leading part. *)
Lemma binary_round_aux_normal (sx : bool) (m : positive) (e : Z) (l : location) :
  let d := Z.pos (digits2_pos m) in
  53 <= d -> -1074 <= d + e - 53 -> d + e <= 1023 ->
  exists m' e',
    binary_round_aux 53 1024 sx (Z.pos m) e l = S754_finite sx m' e' /\
    digits2_pos m' = 53%positive /\
    -1074 <= e' <= 971 /\
    d + e - 53 <= e' /\
    (Z.pos m' * 2 ^ (e' - (d + e - 53)) = Z.pos m / 2 ^ (d - 53) \/
     Z.pos m' * 2 ^ (e' - (d + e - 53)) = Z.pos m / 2 ^ (d - 53) + 1) /\
    (l = loc_Exact -> d = 53 -> m' = m /\ e' = e).
Proof.
  intros d Hd Hlo Hhi.
  pose proof (digits2_pos_bounds m) as [Bl Bu]. fold d in Bl, Bu.
  set (q := Z.pos m / 2 ^ (d - 53)).
  assert (Hq : 2 ^ 52 <= q < 2 ^ 53).
  { unfold q. assert (Hp : 0 < 2 ^ (d - 53)) by (apply Z.pow_pos_nonneg; lia).
    split.
    - apply Z.div_le_lower_bound; [exact Hp|].
      rewrite <- Z.pow_add_r by lia. replace (d - 53 + 52) with (d - 1) by lia.
      exact Bl.
    - apply Z.div_lt_upper_bound; [exact Hp|].
      rewrite <- Z.pow_add_r by lia. replace (d - 53 + 53) with d by lia.
      exact Bu. }
  change (2 ^ 52) with 4503599627370496 in Hq.
  change (2 ^ 53) with 9007199254740992 in Hq.
  unfold binary_round_aux, shr_fexp.
  change (Zdigits2 (Z.pos m)) with d.
  rewrite (fexp_normal (d + e)) by exact Hlo.
  replace (d + e - 53 - e) with (d - 53) by lia.
  destruct (shr_m_div (Z.pos m) l e (d - 53) ltac:(lia) ltac:(lia)) as [Hm1 He1].
  destruct (shr (shr_record_of_loc (Z.pos m) l) e (d - 53)) as [mrs1 e1] eqn:E1.
  cbn [fst snd] in Hm1, He1. fold q in Hm1. subst e1.
  set (m1 := round_nearest_even (shr_m mrs1) (loc_of_shr_record mrs1)).
  assert (Hm1' : m1 = q \/ m1 = q + 1)
    by (unfold m1; rewrite <- Hm1; apply round_nearest_even_cases).
  assert (Hexact : l = loc_Exact -> d = 53 -> m1 = Z.pos m).
  { intros -> Hd53. unfold m1.
    replace (d - 53) with 0 in E1 by lia. cbn [shr shr_record_of_loc] in E1.
    assert (mrs1 = {| shr_m := Z.pos m; shr_r := false; shr_s := false |})
      by congruence.
    subst mrs1. reflexivity. }
  clearbody m1.
  destruct m1 as [|m1|m1]; [lia| |lia].
  destruct (Z_lt_le_dec (Z.pos m1) 9007199254740992) as [Hlt | Hge].
  - (* no carry *)
    assert (Hd1 : Z.pos (digits2_pos m1) = 53)
      by (apply digits2_pos_unique;
          change (2 ^ (53 - 1)) with 4503599627370496;
          change (2 ^ 53) with 9007199254740992; lia).
    cbn [Zdigits2]. rewrite Hd1.
    rewrite (fexp_normal (53 + (e + (d - 53)))) by lia.
    replace (53 + (e + (d - 53)) - 53 - (e + (d - 53))) with 0 by lia.
    cbn [shr shr_record_of_loc shr_m].
    assert (Hle : (e + (d - 53) <=? 1024 - 53) = true) by (apply Z.leb_le; lia).
    rewrite Hle.
    exists m1, (e + (d - 53)).
    split; [reflexivity|]. split; [lia|]. split; [lia|]. split; [lia|].
    replace (e + (d - 53) - (d + e - 53)) with 0 by lia.
    rewrite Z.pow_0_r, Z.mul_1_r. split; [exact Hm1'|].
    intros Hl Hd53. specialize (Hexact Hl Hd53). split; [congruence | lia].
  - (* the rounding carried into a 54th digit *)
    assert (Hm : Z.pos m1 = 9007199254740992) by lia.
    assert (Hm1p : m1 = 9007199254740992%positive) by lia.
    subst m1.
    change (Zdigits2 9007199254740992) with 54.
    rewrite (fexp_normal (54 + (e + (d - 53)))) by lia.
    replace (54 + (e + (d - 53)) - 53 - (e + (d - 53))) with 1 by lia.
    cbn [shr shr_record_of_loc iter_pos shr_1 shr_m].
    assert (Hle : (e + (d - 53) + 1 <=? 1024 - 53) = true) by (apply Z.leb_le; lia).
    rewrite Hle.
    exists 4503599627370496%positive, (e + (d - 53) + 1).
    split; [reflexivity|]. split; [reflexivity|]. split; [lia|]. split; [lia|].
    replace (e + (d - 53) + 1 - (d + e - 53)) with 1 by lia.
    change (4503599627370496 * 2 ^ 1) with 9007199254740992.
    split; [lia|].
    intros Hl Hd53. specialize (Hexact Hl Hd53). exfalso.
    rewrite Hd53 in Bu. change (2 ^ 53) with 9007199254740992 in Bu. lia.
Qed.


(** ** Values of binary64 numbers *)

Lemma pow2_pos (e : Z) : (0 < 2 ^ e)%Q.
Proof. apply Qpower_0_lt. reflexivity. Qed.

Lemma pow2_add (a b : Z) : (2 ^ (a + b) == 2 ^ a * 2 ^ b)%Q.
Proof. apply Qpower_plus. discriminate. Qed.

Lemma inject_pow2 (n : Z) : 0 <= n -> (inject_Z (2 ^ n) == 2 ^ n)%Q.
Proof. intros Hn. rewrite Zpower_Qpower by exact Hn. reflexivity. Qed.

Lemma pow2_le (a b : Z) : a <= b -> (2 ^ a <= 2 ^ b)%Q.
Proof. intros H. apply Qpower_le_compat_l; [exact H | discriminate]. Qed.

Lemma pow2_lt (a b : Z) : a < b -> (2 ^ a < 2 ^ b)%Q.
Proof. intros H. apply Qpower_lt_compat_l; [exact H | reflexivity]. Qed.

Lemma pow2_lt_inv (a b : Z) : (2 ^ a < 2 ^ b)%Q -> a < b.
Proof. intros H. apply (Qpower_lt_compat_l_inv 2); [exact H | reflexivity]. Qed.

Lemma F2Q_shift (m e k : Z) : 0 <= k -> (F2Q (m * 2 ^ k) e == F2Q m (k + e))%Q.
Proof.
  intros Hk. unfold F2Q. rewrite inject_Z_mult, inject_pow2, pow2_add by exact Hk.
  ring.
Qed.

Lemma F2Q_le (m n e : Z) : m <= n -> (F2Q m e <= F2Q n e)%Q.
Proof.
  intros H. unfold F2Q. apply Qmult_le_compat_r.
  - rewrite <- Zle_Qle. exact H.
  - apply Qlt_le_weak, pow2_pos.
Qed.

(** A mantissa of [d] digits at exponent [e] lies in [[2^(d-1+e), 2^(d+e))]. *)
Lemma F2Q_digits (m : positive) (e : Z) :
  (2 ^ (Z.pos (digits2_pos m) - 1 + e) <= F2Q (Z.pos m) e)%Q /\
  (F2Q (Z.pos m) e < 2 ^ (Z.pos (digits2_pos m) + e))%Q.
Proof.
  pose proof (digits2_pos_bounds m) as [Bl Bu].
  rewrite !pow2_add. unfold F2Q. split.
  - apply Qmult_le_compat_r; [|apply Qlt_le_weak, pow2_pos].
    rewrite <- inject_pow2 by lia. rewrite <- Zle_Qle. exact Bl.
  - apply Qmult_lt_compat_r; [apply pow2_pos|].
    rewrite <- inject_pow2 by lia. rewrite <- Zlt_Qlt. exact Bu.
Qed.

Lemma float_value_F2Q (m : positive) (e : Z) :
  (float_value (S754_finite false m e) == F2Q (Z.pos m) e)%Q.
Proof.
  unfold float_value, F2Q. destruct (0 <=? e) eqn:E.
  - apply Z.leb_le in E. rewrite inject_Z_mult, inject_pow2 by exact E.
    reflexivity.
  - apply Z.leb_gt in E. destruct e as [|p|p]; [lia|lia|].
    change (- Z.neg p) with (Z.pos p). cbn [Z.to_pos].
    change (2 ^ Z.neg p)%Q with (/ (2 ^ Z.pos p))%Q.
    rewrite <- inject_pow2 by lia.
    rewrite Qmake_Qdiv. unfold Qdiv.
    rewrite Pos2Z.inj_pow. reflexivity.
Qed.

Lemma eps_pow2 : (eps == 2 ^ (-52))%Q.
Proof. reflexivity. Qed.

(** What [binary_round_aux_normal] means for values: the result is within
    [eps], relatively, of any [x] that the mantissa and its location stand
    for. *)
Lemma binary_round_aux_near (sx : bool) (m : positive) (e : Z) (l : location)
    (x : Q) :
  let d := Z.pos (digits2_pos m) in
  53 <= d -> -1074 <= d + e - 53 -> d + e <= 1023 ->
  (F2Q (Z.pos m) e <= x <= F2Q (Z.pos m + 1) e)%Q ->
  exists m' e',
    binary_round_aux 53 1024 sx (Z.pos m) e l = S754_finite sx m' e' /\
    digits2_pos m' = 53%positive /\
    -1074 <= e' <= 971 /\
    near (F2Q (Z.pos m') e') x /\
    (l = loc_Exact -> d = 53 -> m' = m /\ e' = e).
Proof.
  intros d Hd Hlo Hhi [Hxl Hxu].
  destruct (binary_round_aux_normal sx m e l Hd Hlo Hhi)
    as (m' & e' & Hr & Hd' & He' & HE & Hv & Hex).
  fold d in HE, Hv, Hex.
  exists m', e'. split; [exact Hr|]. split; [exact Hd'|]. split; [exact He'|].
  split; [|exact Hex].
  set (E := d + e - 53) in *. set (q := Z.pos m / 2 ^ (d - 53)) in *.
  assert (Hp : 0 < 2 ^ (d - 53)) by (apply Z.pow_pos_nonneg; lia).
  assert (Hq52 : 2 ^ 52 <= q).
  { unfold q. apply Z.div_le_lower_bound; [exact Hp|].
    rewrite <- Z.pow_add_r by lia. replace (d - 53 + 52) with (d - 1) by lia.
    apply digits2_pos_bounds. }
  assert (Hql : q * 2 ^ (d - 53) <= Z.pos m)
    by (unfold q; rewrite Z.mul_comm; apply Z.mul_div_le; exact Hp).
  assert (Hqu : Z.pos m + 1 <= (q + 1) * 2 ^ (d - 53)).
  { pose proof (Z.mul_succ_div_gt (Z.pos m) (2 ^ (d - 53)) Hp) as H.
    fold q in H. lia. }
  (* the same facts on values *)
  assert (Ht : (0 < 2 ^ E)%Q) by apply pow2_pos.
  assert (HqE : forall c, (F2Q (c * 2 ^ (d - 53)) e == inject_Z c * 2 ^ E)%Q).
  { intros c. rewrite F2Q_shift by lia. unfold F2Q.
    replace (d - 53 + e) with E by (unfold E; lia). reflexivity. }
  assert (Hl1 : (inject_Z q * 2 ^ E <= x)%Q).
  { rewrite <- HqE. apply Qle_trans with (2 := Hxl). apply F2Q_le. exact Hql. }
  assert (Hu1 : (x <= inject_Z (q + 1) * 2 ^ E)%Q).
  { rewrite <- HqE. apply Qle_trans with (1 := Hxu). apply F2Q_le. exact Hqu. }
  assert (H52 : (4503599627370496 * 2 ^ E <= inject_Z q * 2 ^ E)%Q).
  { apply Qmult_le_compat_r; [|apply Qlt_le_weak; exact Ht].
    change 4503599627370496%Q with (inject_Z (2 ^ 52)).
    rewrite <- Zle_Qle. exact Hq52. }
  assert (Hval : (F2Q (Z.pos m') e' == inject_Z q * 2 ^ E)%Q
                 \/ (F2Q (Z.pos m') e' == inject_Z (q + 1) * 2 ^ E)%Q).
  { assert (Hsh : (F2Q (Z.pos m') e'
                   == inject_Z (Z.pos m' * 2 ^ (e' - E)) * 2 ^ E)%Q).
    { change (inject_Z (Z.pos m' * 2 ^ (e' - E)) * 2 ^ E)%Q
        with (F2Q (Z.pos m' * 2 ^ (e' - E)) E).
      rewrite F2Q_shift by lia. replace (e' - E + E) with e' by lia.
      reflexivity. }
    destruct Hv as [Hv | Hv]; rewrite Hv in Hsh; [left | right]; exact Hsh. }
  rewrite inject_Z_plus in Hu1, Hval. change (inject_Z 1) with 1%Q in Hu1, Hval.
  unfold near, eps.
  set (v := F2Q (Z.pos m') e') in *. set (A := (inject_Z q * 2 ^ E)%Q) in *.
  set (t := (2 ^ E)%Q) in *.
  assert (Hu1' : (x <= A + t)%Q) by (unfold A; lra).
  assert (Hval' : (v == A)%Q \/ (v == A + t)%Q)
    by (destruct Hval as [H | H]; [left; exact H | right; unfold A; lra]).
  clearbody v A t.
  destruct Hval' as [Hv' | Hv']; lra.
Qed.

Lemma iter_xO_pos (m d : positive) :
  Z.pos (Pos.iter xO m d) = Z.pos m * 2 ^ Z.pos d.
Proof.
  induction d as [|d IH] using Pos.peano_ind.
  - cbn [Pos.iter]. change (2 ^ 1) with 2. lia.
  - rewrite Pos.iter_succ. change (Z.pos (Pos.iter xO m d)~0)
      with (2 * Z.pos (Pos.iter xO m d)).
    rewrite IH, Pos2Z.inj_succ, Z.pow_succ_r by lia. ring.
Qed.

Lemma near_refl (x y : Q) : (0 <= x)%Q -> (y == x)%Q -> near y x.
Proof. unfold near, eps. intros Hx Hy. lra. Qed.

(** Rounding [m * 2^e] in the normal range: a normal double within [eps],
    and the number itself when [m] has at most 53 digits. *)
Lemma binary_round_near (sx : bool) (m : positive) (e : Z) :
  let d := Z.pos (digits2_pos m) in
  -1074 <= d + e - 53 -> d + e <= 1023 ->
  exists m' e',
    binary_round 53 1024 sx m e = S754_finite sx m' e' /\
    digits2_pos m' = 53%positive /\
    -1074 <= e' <= 971 /\
    near (F2Q (Z.pos m') e') (F2Q (Z.pos m) e) /\
    (d <= 53 -> (F2Q (Z.pos m') e' == F2Q (Z.pos m) e)%Q).
Proof.
  intros d Hlo Hhi. unfold binary_round. fold d.
  rewrite (fexp_normal (d + e)) by exact Hlo.
  assert (Hpos : (0 <= F2Q (Z.pos m) e)%Q).
  { unfold F2Q. apply Qmult_le_0_compat; [|apply Qlt_le_weak, pow2_pos].
    change 0%Q with (inject_Z 0). rewrite <- Zle_Qle. lia. }
  unfold shl_align.
  destruct (d + e - 53 - e) as [|k|k] eqn:Ek.
  - (* exactly 53 digits *)
    assert (Hd : d = 53) by lia.
    destruct (binary_round_aux_near sx m e loc_Exact (F2Q (Z.pos m) e))
      as (m' & e' & Hr & Hd' & He' & Hn & Hex); fold d; try lia.
    { split; [apply Qle_refl | apply F2Q_le; lia]. }
    exists m', e'. split; [exact Hr|]. split; [exact Hd'|]. split; [exact He'|].
    split; [exact Hn|]. intros _.
    destruct (Hex eq_refl Hd) as [-> ->]. reflexivity.
  - (* more than 53 digits: rounded *)
    assert (Hd : 53 < d) by lia.
    destruct (binary_round_aux_near sx m e loc_Exact (F2Q (Z.pos m) e))
      as (m' & e' & Hr & Hd' & He' & Hn & Hex); fold d; try lia.
    { split; [apply Qle_refl | apply F2Q_le; lia]. }
    exists m', e'. split; [exact Hr|]. split; [exact Hd'|]. split; [exact He'|].
    split; [exact Hn|]. intros H. lia.
  - (* fewer than 53 digits: shifted left, exact *)
    assert (Hk : Z.pos k = 53 - d) by lia.
    set (mz := Pos.iter xO m k).
    assert (Hmz : Z.pos mz = Z.pos m * 2 ^ (53 - d))
      by (unfold mz; rewrite iter_xO_pos, Hk; reflexivity).
    assert (Hdz : Z.pos (digits2_pos mz) = 53).
    { apply digits2_pos_unique. rewrite Hmz.
      pose proof (digits2_pos_bounds m) as [Bl Bu]. fold d in Bl, Bu.
      assert (Hp : 0 < 2 ^ (53 - d)) by (apply Z.pow_pos_nonneg; lia).
      assert (E1 : 2 ^ (53 - 1) = 2 ^ (d - 1) * 2 ^ (53 - d))
        by (rewrite <- Z.pow_add_r by lia; f_equal; lia).
      assert (E2 : 2 ^ 53 = 2 ^ d * 2 ^ (53 - d))
        by (rewrite <- Z.pow_add_r by lia; f_equal; lia).
      rewrite E1, E2. split.
      - apply Z.mul_le_mono_nonneg_r; [lia | exact Bl].
      - apply Z.mul_lt_mono_pos_r; [exact Hp | exact Bu]. }
    assert (Hsame : (F2Q (Z.pos mz) (d + e - 53) == F2Q (Z.pos m) e)%Q).
    { rewrite Hmz, F2Q_shift by lia.
      replace (53 - d + (d + e - 53)) with e by lia. reflexivity. }
    destruct (binary_round_aux_near sx mz (d + e - 53) loc_Exact
                (F2Q (Z.pos mz) (d + e - 53)))
      as (m' & e' & Hr & Hd' & He' & Hn & Hex); rewrite ?Hdz; try lia.
    { split; [apply Qle_refl | apply F2Q_le; lia]. }
    rewrite Hdz in Hex. destruct (Hex eq_refl eq_refl) as [Hm' He''].
    exists m', e'. split; [exact Hr|]. split; [exact Hd'|]. split; [exact He'|].
    subst m' e'. split.
    + apply near_refl; [exact Hpos | exact Hsame].
    + intros _. exact Hsame.
Qed.


(** ** The operations on normal doubles *)

Lemma pow2_le_inv (a b : Z) : (2 ^ a <= 2 ^ b)%Q -> a <= b.
Proof. intros H. apply (Qpower_le_compat_l_inv 2); [exact H | reflexivity]. Qed.

Lemma F2Q_pos_inv (z e : Z) : (0 < F2Q z e)%Q -> 0 < z.
Proof.
  unfold F2Q. intros H. destruct (Z_lt_le_dec 0 z) as [Hz | Hz]; [exact Hz|].
  exfalso. pose proof (pow2_pos e) as Hp.
  assert (Hi : (inject_Z z <= 0)%Q)
    by (change 0%Q with (inject_Z 0); rewrite <- Zle_Qle; exact Hz).
  assert (Hm : (inject_Z z * 2 ^ e <= 0 * 2 ^ e)%Q)
    by (apply Qmult_le_compat_r; [exact Hi | apply Qlt_le_weak; exact Hp]).
  lra.
Qed.

(** From bounds on the value to bounds on digits and exponent. *)
Lemma range_of_value (m : positive) (e : Z) :
  (2 ^ (-1022) <= F2Q (Z.pos m) e)%Q -> (F2Q (Z.pos m) e <= 2 ^ 1022)%Q ->
  -1074 <= Z.pos (digits2_pos m) + e - 53 /\ Z.pos (digits2_pos m) + e <= 1023.
Proof.
  intros Hl Hu. destruct (F2Q_digits m e) as [Dl Du]. split.
  - assert (H : (2 ^ (-1022) < 2 ^ (Z.pos (digits2_pos m) + e))%Q)
      by (eapply Qle_lt_trans; [exact Hl | exact Du]).
    apply pow2_lt_inv in H. lia.
  - assert (H : (2 ^ (Z.pos (digits2_pos m) - 1 + e) <= 2 ^ 1022)%Q)
      by (eapply Qle_trans; [exact Dl | exact Hu]).
    apply pow2_le_inv in H. lia.
Qed.

Lemma normal_value (x : float) :
  normal x ->
  exists m e, x = S754_finite false m e /\ digits2_pos m = 53%positive /\
              -1074 <= e <= 971 /\
              (float_value x == F2Q (Z.pos m) e)%Q /\
              (2 ^ (52 + e) <= float_value x)%Q /\
              (float_value x < 2 ^ (53 + e))%Q.
Proof.
  intros (m & e & -> & Hd & He). exists m, e.
  split; [reflexivity|]. split; [exact Hd|]. split; [exact He|].
  rewrite float_value_F2Q. split; [reflexivity|].
  destruct (F2Q_digits m e) as [Dl Du]. rewrite Hd in Dl, Du.
  split; [exact Dl | exact Du].
Qed.

Lemma normal_pos (x : float) : normal x -> (0 < float_value x)%Q.
Proof.
  intros H. destruct (normal_value x H) as (m & e & _ & _ & _ & _ & Hl & _).
  eapply Qlt_le_trans; [apply pow2_pos | exact Hl].
Qed.

Lemma near_eq (v v' x x' : Q) :
  (v == v')%Q -> (x == x')%Q -> near v' x' -> near v x.
Proof. unfold near. intros Hv Hx [H1 H2]. rewrite Hv, Hx. split; assumption. Qed.

(** [binary_normalize] of a positive number in the normal range. *)
Lemma normalize_near (z e : Z) :
  (2 ^ (-1022) <= F2Q z e)%Q -> (F2Q z e <= 2 ^ 1022)%Q ->
  normal (binary_normalize 53 1024 z e false) /\
  near (float_value (binary_normalize 53 1024 z e false)) (F2Q z e) /\
  (z < 2 ^ 53 ->
   (float_value (binary_normalize 53 1024 z e false) == F2Q z e)%Q).
Proof.
  intros Hl Hu.
  assert (Hz : 0 < z).
  { apply (F2Q_pos_inv z e). eapply Qlt_le_trans; [apply pow2_pos | exact Hl]. }
  destruct z as [|m|m]; [lia| |lia]. cbn [binary_normalize].
  destruct (range_of_value m e Hl Hu) as [Rl Ru].
  destruct (binary_round_near false m e Rl Ru)
    as (m' & e' & Hr & Hd' & He' & Hn & Hex).
  rewrite Hr. pose proof (float_value_F2Q m' e') as Hv.
  split; [exists m', e'; auto|].
  split; [apply (near_eq _ _ _ _ Hv (Qeq_refl _)); exact Hn|].
  intros Hlt. rewrite Hv. apply Hex.
  pose proof (digits2_pos_bounds m) as [Bl _].
  assert (H : 2 ^ (Z.pos (digits2_pos m) - 1) < 2 ^ 53) by lia.
  apply Z.pow_lt_mono_r_iff in H; lia.
Qed.

(** [float(n)] is exact up to [2^53]. *)
Lemma nearest_int_exact (n : Z) :
  1 <= n < 2 ^ 53 ->
  normal (nearest_int n) /\ (float_value (nearest_int n) == inject_Z n)%Q /\
  float_of_int n = Ok (nearest_int n).
Proof.
  intros [Hl Hu].
  assert (HF : (F2Q n 0 == inject_Z n)%Q) by (unfold F2Q; cbn; ring).
  assert (H1 : (1 <= inject_Z n)%Q)
    by (change 1%Q with (inject_Z 1); rewrite <- Zle_Qle; exact Hl).
  assert (H2 : (inject_Z n <= inject_Z (2 ^ 53))%Q)
    by (rewrite <- Zle_Qle; lia).
  destruct (normalize_near n 0) as (Hn & _ & Hex).
  - rewrite HF. eapply Qle_trans; [|exact H1]. vm_compute. discriminate.
  - rewrite HF. eapply Qle_trans; [exact H2|]. vm_compute. discriminate.
  - fold (nearest_int n) in Hn, Hex. split; [exact Hn|].
    split; [rewrite Hex by exact Hu; exact HF|].
    unfold float_of_int. destruct Hn as (m & e & -> & _). reflexivity.
Qed.

Lemma shl_align_fst (m : positive) (e ez : Z) :
  ez <= e -> Z.pos (fst (shl_align m e ez)) = Z.pos m * 2 ^ (e - ez).
Proof.
  intros H. unfold shl_align. destruct (ez - e) as [|k|k] eqn:Ek; cbn [fst].
  - replace (e - ez) with 0 by lia. rewrite Z.pow_0_r. lia.
  - lia.
  - rewrite iter_xO_pos. f_equal. f_equal. lia.
Qed.

Lemma F2Q_aligned (m : positive) (e ez : Z) :
  ez <= e -> (F2Q (Z.pos (fst (shl_align m e ez))) ez == F2Q (Z.pos m) e)%Q.
Proof.
  intros H. rewrite shl_align_fst, F2Q_shift by lia.
  replace (e - ez + ez) with e by lia. reflexivity.
Qed.

Lemma F2Q_add (a b e : Z) : (F2Q (a + b) e == F2Q a e + F2Q b e)%Q.
Proof. unfold F2Q. rewrite inject_Z_plus. ring. Qed.

Lemma F2Q_sub (a b e : Z) : (F2Q (a - b) e == F2Q a e - F2Q b e)%Q.
Proof. unfold F2Q, Z.sub. rewrite inject_Z_plus, inject_Z_opp. ring. Qed.

Lemma normal_min (x : float) : normal x -> (2 ^ (-1022) <= float_value x)%Q.
Proof.
  intros H. destruct (normal_value x H) as (m & e & _ & _ & He & _ & Hl & _).
  eapply Qle_trans; [|exact Hl]. apply pow2_le. lia.
Qed.

(** Addition. *)
Lemma fadd_near (x y : float) :
  normal x -> normal y ->
  (float_value x + float_value y <= 2 ^ 1022)%Q ->
  normal (fadd x y) /\
  near (float_value (fadd x y)) (float_value x + float_value y).
Proof.
  intros Hx Hy Hu.
  pose proof (normal_min x Hx) as Lx. pose proof (normal_pos y Hy) as Py.
  destruct (normal_value x Hx) as (mx & ex & -> & _ & _ & Vx & _).
  destruct (normal_value y Hy) as (my & ey & -> & _ & _ & Vy & _).
  unfold fadd. cbn [SFadd cond_Zopp].
  set (ez := Z.min ex ey).
  assert (Hs : (F2Q (Z.pos (fst (shl_align mx ex ez))
                     + Z.pos (fst (shl_align my ey ez))) ez
                == float_value (S754_finite false mx ex)
                   + float_value (S754_finite false my ey))%Q).
  { rewrite F2Q_add, !F2Q_aligned, Vx, Vy by (unfold ez; lia). reflexivity. }
  destruct (normalize_near (Z.pos (fst (shl_align mx ex ez))
                            + Z.pos (fst (shl_align my ey ez))) ez)
    as (Hn & Hnear & _).
  - rewrite Hs. lra.
  - rewrite Hs. exact Hu.
  - split; [exact Hn|]. apply (near_eq _ _ _ _ (Qeq_refl _) (Qeq_sym _ _ Hs)).
    exact Hnear.
Qed.

(** Subtraction of the smaller from the larger. *)
Lemma fsub_near (x y : float) :
  normal x -> normal y ->
  (2 ^ (-1022) <= float_value x - float_value y)%Q ->
  (float_value x - float_value y <= 2 ^ 1022)%Q ->
  normal (fsub x y) /\
  near (float_value (fsub x y)) (float_value x - float_value y).
Proof.
  intros Hx Hy Hl Hu.
  destruct (normal_value x Hx) as (mx & ex & -> & _ & _ & Vx & _).
  destruct (normal_value y Hy) as (my & ey & -> & _ & _ & Vy & _).
  unfold fsub. cbn [SFsub cond_Zopp].
  set (ez := Z.min ex ey).
  assert (Hs : (F2Q (Z.pos (fst (shl_align mx ex ez))
                     - Z.pos (fst (shl_align my ey ez))) ez
                == float_value (S754_finite false mx ex)
                   - float_value (S754_finite false my ey))%Q).
  { rewrite F2Q_sub, !F2Q_aligned, Vx, Vy by (unfold ez; lia). reflexivity. }
  destruct (normalize_near (Z.pos (fst (shl_align mx ex ez))
                            - Z.pos (fst (shl_align my ey ez))) ez)
    as (Hn & Hnear & _).
  - rewrite Hs. exact Hl.
  - rewrite Hs. exact Hu.
  - split; [exact Hn|]. apply (near_eq _ _ _ _ (Qeq_refl _) (Qeq_sym _ _ Hs)).
    exact Hnear.
Qed.

Lemma F2Q_mul (a b e f : Z) : (F2Q (a * b) (e + f) == F2Q a e * F2Q b f)%Q.
Proof. unfold F2Q. rewrite inject_Z_mult, pow2_add. ring. Qed.

(** Multiplication. *)
Lemma fmul_near (x y : float) :
  normal x -> normal y ->
  (2 ^ (-1022) <= float_value x * float_value y)%Q ->
  (float_value x * float_value y <= 2 ^ 1022)%Q ->
  normal (fmul x y) /\
  near (float_value (fmul x y)) (float_value x * float_value y).
Proof.
  intros Hx Hy Hl Hu.
  destruct (normal_value x Hx) as (mx & ex & -> & Dx & _ & Vx & _).
  destruct (normal_value y Hy) as (my & ey & -> & Dy & _ & Vy & _).
  unfold fmul. cbn [SFmul xorb].
  assert (Hs : (F2Q (Z.pos (mx * my)) (ex + ey)
                == float_value (S754_finite false mx ex)
                   * float_value (S754_finite false my ey))%Q)
    by (rewrite Pos2Z.inj_mul, F2Q_mul, Vx, Vy; reflexivity).
  rewrite <- Hs in Hl, Hu.
  destruct (range_of_value _ _ Hl Hu) as [Rl Ru].
  assert (Hd : 53 <= Z.pos (digits2_pos (mx * my))).
  { pose proof (digits2_pos_bounds mx) as [Bx _].
    pose proof (digits2_pos_bounds my) as [By _].
    pose proof (digits2_pos_bounds (mx * my)) as [_ Bu].
    rewrite Dx in Bx. rewrite Dy in By.
    change (2 ^ (53 - 1)) with 4503599627370496 in Bx, By.
    assert (H : 2 ^ 53 < 2 ^ Z.pos (digits2_pos (mx * my))).
    { eapply Z.le_lt_trans; [|exact Bu]. rewrite Pos2Z.inj_mul.
      change (2 ^ 53) with 9007199254740992. nia. }
    apply Z.pow_lt_mono_r_iff in H; lia. }
  destruct (binary_round_aux_near false (mx * my) (ex + ey) loc_Exact
              (F2Q (Z.pos (mx * my)) (ex + ey)) Hd Rl Ru)
    as (m' & e' & Hr & Hd' & He' & Hn & _).
  { split; [apply Qle_refl | apply F2Q_le; lia]. }
  rewrite Hr. split; [exists m', e'; auto|].
  apply (near_eq _ _ _ _ (float_value_F2Q m' e') (Qeq_sym _ _ Hs)). exact Hn.
Qed.

Lemma SFdiv_core_normal (mx my : positive) (ex ey : Z) :
  digits2_pos mx = 53%positive -> digits2_pos my = 53%positive ->
  -1021 <= ex - ey ->
  SFdiv_core_binary 53 1024 (Z.pos mx) ex (Z.pos my) ey
  = (Z.pos mx * 2 ^ 53 / Z.pos my, ex - ey - 53,
     new_location (Z.pos my) ((Z.pos mx * 2 ^ 53) mod Z.pos my)).
Proof.
  intros Dx Dy He. unfold SFdiv_core_binary. cbv zeta. cbn [Zdigits2].
  rewrite Dx, Dy. rewrite (fexp_normal (53 + ex - (53 + ey))) by lia.
  rewrite Z.min_l by lia.
  replace (ex - ey - (53 + ex - (53 + ey) - 53)) with 53 by lia.
  rewrite Z.shiftl_mul_pow2 by lia.
  unfold Z.div, Z.modulo.
  destruct (Z.div_eucl (Z.pos mx * 2 ^ 53) (Z.pos my)) as [q r].
  f_equal. f_equal. lia.
Qed.

(** Division. *)
Lemma fdiv_near (x y : float) :
  normal x -> normal y ->
  (2 ^ (-1021) <= float_value x / float_value y)%Q ->
  (float_value x / float_value y <= 2 ^ 1022)%Q ->
  normal (fdiv x y) /\
  near (float_value (fdiv x y)) (float_value x / float_value y).
Proof.
  intros Hx Hy Hl Hu.
  pose proof (normal_pos y Hy) as Py.
  destruct (normal_value x Hx) as (mx & ex & -> & Dx & _ & Vx & _ & Ux).
  destruct (normal_value y Hy) as (my & ey & -> & Dy & _ & Vy & Ly & _).
  set (vx := float_value (S754_finite false mx ex)) in *.
  set (vy := float_value (S754_finite false my ey)) in *.
  (* the exponents are far enough apart *)
  assert (He : -1021 <= ex - ey).
  { assert (H : (vx / vy < 2 ^ (ex - ey + 1))%Q).
    { apply Qlt_shift_div_r; [exact Py|].
      apply Qlt_le_trans with (1 := Ux).
      replace (53 + ex) with ((ex - ey + 1) + (52 + ey)) by lia.
      rewrite pow2_add. apply Qmult_le_l; [apply pow2_pos | exact Ly]. }
    assert (H' : (2 ^ (-1021) < 2 ^ (ex - ey + 1))%Q)
      by (eapply Qle_lt_trans; [exact Hl | exact H]).
    apply pow2_lt_inv in H'. lia. }
  unfold fdiv. cbn [SFdiv xorb].
  rewrite (SFdiv_core_normal mx my ex ey Dx Dy He).
  set (M := Z.pos mx * 2 ^ 53). set (q := M / Z.pos my).
  set (l := new_location (Z.pos my) (M mod Z.pos my)).
  pose proof (digits2_pos_bounds mx) as [Bx _]. rewrite Dx in Bx.
  pose proof (digits2_pos_bounds my) as [_ By]. rewrite Dy in By.
  change (2 ^ (53 - 1)) with 4503599627370496 in Bx.
  change (2 ^ 53) with 9007199254740992 in By.
  assert (HM : M = Z.pos mx * 9007199254740992) by reflexivity.
  assert (Hq : 4503599627370496 <= q)
    by (unfold q; apply Z.div_le_lower_bound; lia).
  assert (Hql : q * Z.pos my <= M)
    by (unfold q; rewrite Z.mul_comm; apply Z.mul_div_le; lia).
  assert (Hqu : M < (q + 1) * Z.pos my).
  { pose proof (Z.mul_succ_div_gt M (Z.pos my) ltac:(lia)) as H.
    fold q in H. lia. }
  destruct q as [|qp|qp] eqn:Eq; [lia| |lia].
  (* the quotient of the values *)
  set (P := (2 ^ (ex - ey - 53))%Q).
  assert (HP : (0 < P)%Q) by apply pow2_pos.
  assert (Hmy : (0 < inject_Z (Z.pos my))%Q)
    by (change 0%Q with (inject_Z 0); rewrite <- Zlt_Qlt; lia).
  assert (HQ : (vx / vy == inject_Z M / inject_Z (Z.pos my) * P)%Q).
  { rewrite Vx, Vy. unfold F2Q, M, P.
    rewrite inject_Z_mult, inject_pow2 by lia.
    replace ex with ((ex - ey - 53) + (53 + ey)) at 1 by lia.
    rewrite !pow2_add.
    pose proof (pow2_pos ey) as Hey.
    field. split; lra. }
  assert (Hlo : (F2Q (Z.pos qp) (ex - ey - 53) <= vx / vy)%Q).
  { rewrite HQ. unfold F2Q. fold P.
    apply Qmult_le_compat_r; [|apply Qlt_le_weak; exact HP].
    apply Qle_shift_div_l; [exact Hmy|].
    rewrite <- inject_Z_mult, <- Zle_Qle. exact Hql. }
  assert (Hhi : (vx / vy <= F2Q (Z.pos qp + 1) (ex - ey - 53))%Q).
  { rewrite HQ. unfold F2Q. fold P.
    apply Qmult_le_compat_r; [|apply Qlt_le_weak; exact HP].
    apply Qle_shift_div_r; [exact Hmy|].
    rewrite <- inject_Z_mult, <- Zle_Qle. lia. }
  assert (Hd : 53 <= Z.pos (digits2_pos qp)).
  { pose proof (digits2_pos_bounds qp) as [_ Bu].
    assert (H : 2 ^ 52 < 2 ^ Z.pos (digits2_pos qp))
      by (change (2 ^ 52) with 4503599627370496; lia).
    apply Z.pow_lt_mono_r_iff in H; lia. }
  assert (Ru : Z.pos (digits2_pos qp) + (ex - ey - 53) <= 1023).
  { destruct (F2Q_digits qp (ex - ey - 53)) as [Dl _].
    assert (H : (2 ^ (Z.pos (digits2_pos qp) - 1 + (ex - ey - 53)) <= 2 ^ 1022)%Q)
      by (eapply Qle_trans; [exact Dl|]; eapply Qle_trans; [exact Hlo | exact Hu]).
    apply pow2_le_inv in H. lia. }
  destruct (binary_round_aux_near false qp (ex - ey - 53) l (vx / vy) Hd
              ltac:(lia) Ru (conj Hlo Hhi))
    as (m' & e' & Hr & Hd' & He' & Hn & _).
  rewrite Hr. split; [exists m', e'; auto|].
  apply (near_eq _ _ _ _ (float_value_F2Q m' e') (Qeq_refl _)). exact Hn.
Qed.


(** ** Orders of magnitude *)

Lemma pow2_mul_bounds (x y : Q) (a b c d : Z) :
  (2 ^ a <= x <= 2 ^ b)%Q -> (2 ^ c <= y <= 2 ^ d)%Q ->
  (2 ^ (a + c) <= x * y <= 2 ^ (b + d))%Q.
Proof.
  intros [Hxl Hxu] [Hyl Hyu]. rewrite !pow2_add.
  pose proof (pow2_pos a). pose proof (pow2_pos c).
  split.
  - apply Qle_trans with (2 ^ a * y)%Q.
    + apply Qmult_le_l; assumption.
    + apply Qmult_le_compat_r; [assumption | lra].
  - apply Qle_trans with (x * 2 ^ d)%Q.
    + apply Qmult_le_l; [lra | assumption].
    + apply Qmult_le_compat_r; [assumption | apply Qlt_le_weak, pow2_pos].
Qed.

Lemma Qinv_le (p q : Q) : (0 < p)%Q -> (p <= q)%Q -> (/ q <= / p)%Q.
Proof.
  intros Hp Hpq. assert (Hq : (0 < q)%Q) by lra.
  assert (Hip : (0 < / p)%Q) by (apply Qinv_lt_0_compat; exact Hp).
  assert (Hiq : (0 < / q)%Q) by (apply Qinv_lt_0_compat; exact Hq).
  assert (E : (/ p == / q + (q - p) * (/ p * / q))%Q) by (field; split; lra).
  assert (H : (0 <= (q - p) * (/ p * / q))%Q).
  { apply Qmult_le_0_compat; [lra|]. apply Qlt_le_weak.
    apply Qmult_lt_0_compat; assumption. }
  lra.
Qed.

Lemma pow2_inv (a : Z) : (/ 2 ^ a == 2 ^ (- a))%Q.
Proof. rewrite Qpower_opp. reflexivity. Qed.

Lemma pow2_div_bounds (x y : Q) (a b c d : Z) :
  (2 ^ a <= x <= 2 ^ b)%Q -> (2 ^ c <= y <= 2 ^ d)%Q ->
  (2 ^ (a - d) <= x / y <= 2 ^ (b - c))%Q.
Proof.
  intros Hx [Hyl Hyu]. unfold Qdiv, Z.sub.
  apply pow2_mul_bounds; [exact Hx|].
  pose proof (pow2_pos c). pose proof (pow2_pos d).
  rewrite <- !pow2_inv. split.
  - apply Qinv_le; [lra | exact Hyu].
  - apply Qinv_le; [apply pow2_pos | exact Hyl].
Qed.

Lemma near_half_double (v x : Q) :
  (0 <= x)%Q -> near v x -> (x * (1 # 2) <= v <= x * 2)%Q.
Proof. unfold near, eps. intros Hx [H1 H2]. split; nra. Qed.

Lemma near_pow2_bounds (v x : Q) (a b : Z) :
  (2 ^ a <= x <= 2 ^ b)%Q -> near v x -> (2 ^ (a - 1) <= v <= 2 ^ (b + 1))%Q.
Proof.
  intros [Hl Hu] Hn. pose proof (pow2_pos a) as Ha.
  destruct (near_half_double v x ltac:(lra) Hn) as [H1 H2].
  unfold Z.sub. rewrite !pow2_add.
  change (2 ^ (Z.opp 1))%Q with (1 # 2)%Q. change (2 ^ 1)%Q with 2%Q.
  split; lra.
Qed.

Lemma inject_pow2_bounds (n a b : Z) :
  0 <= a -> 0 <= b -> 2 ^ a <= n <= 2 ^ b ->
  (2 ^ a <= inject_Z n <= 2 ^ b)%Q.
Proof.
  intros Ha Hb [Hl Hu]. rewrite <- !inject_pow2 by assumption.
  rewrite <- !Zle_Qle. split; assumption.
Qed.

Lemma pow2_1022_big : (1267650600228229401496703205376 <= 2 ^ 1022)%Q.
Proof.
  change 1267650600228229401496703205376%Q with (2 ^ 100)%Q. apply pow2_le. lia.
Qed.

Lemma pow2_1021_small : (2 ^ (-1021) <= 1 # 1267650600228229401496703205376)%Q.
Proof.
  change (1 # 1267650600228229401496703205376)%Q with (2 ^ (-100))%Q.
  apply pow2_le. lia.
Qed.

Lemma pow2_1022_small : (2 ^ (-1022) <= 1 # 1267650600228229401496703205376)%Q.
Proof.
  change (1 # 1267650600228229401496703205376)%Q with (2 ^ (-100))%Q.
  apply pow2_le. lia.
Qed.

(** ** The harmonic sum of line 84 *)

Lemma range_cons (a b : Z) : a < b -> range a b = a :: range (a + 1) b.
Proof.
  intros H. unfold range.
  replace (Z.to_nat (b - a)) with (S (Z.to_nat (b - (a + 1)))) by lia.
  cbn [seq map]. f_equal; [lia|].
  rewrite <- seq_shift, map_map. apply map_ext. intros k. lia.
Qed.

Lemma range_bounds (a b x : Z) : In x (range a b) -> a <= x < b.
Proof.
  unfold range. rewrite in_map_iff. intros (k & <- & Hk).
  apply in_seq in Hk. lia.
Qed.

Lemma one_value : normal (nearest_int 1) /\ (float_value (nearest_int 1) == 1)%Q.
Proof.
  destruct (nearest_int_exact 1) as (H1 & H2 & _); [split; [lia | reflexivity]|].
  split; [exact H1 | exact H2].
Qed.

(** [1. / x] for an [int] [x] of at least 2. *)
Lemma reciprocal_near (x : Z) :
  2 <= x <= 2 ^ 20 ->
  normal (fdiv (nearest_int 1) (nearest_int x)) /\
  near (float_value (fdiv (nearest_int 1) (nearest_int x))) (1 / inject_Z x).
Proof.
  intros Hx. destruct one_value as [N1 V1].
  change (2 ^ 20) with 1048576 in Hx.
  destruct (nearest_int_exact x) as (Nx & Vx & _);
    [change (2 ^ 53) with 9007199254740992; lia|].
  assert (Hq : (2 <= inject_Z x <= 1048576)%Q)
    by (change 2%Q with (inject_Z 2); change 1048576%Q with (inject_Z 1048576);
        rewrite <- !Zle_Qle; exact Hx).
  assert (Hr : (1 # 1048576 <= 1 / inject_Z x <= 1 # 2)%Q).
  { split.
    - apply Qle_shift_div_l; lra.
    - apply Qle_shift_div_r; lra. }
  assert (E : (float_value (nearest_int 1) / float_value (nearest_int x)
               == 1 / inject_Z x)%Q) by (rewrite V1, Vx; reflexivity).
  pose proof pow2_1022_big. pose proof pow2_1021_small.
  destruct (fdiv_near (nearest_int 1) (nearest_int x) N1 Nx) as [Hn Hnear].
  - rewrite E. lra.
  - rewrite E. lra.
  - split; [exact Hn|].
    apply (near_eq _ _ _ _ (Qeq_refl _) (Qeq_sym _ _ E)). exact Hnear.
Qed.

Lemma harmonic_step (acc : float) (x k : Z) :
  3 <= x <= 2 ^ 20 -> 1 <= k < 2 ^ 20 ->
  normal acc ->
  ((1 # 2) - inject_Z k * (1 # 4294967296) <= float_value acc
   <= inject_Z k * (1 # 2))%Q ->
  normal (fadd acc (fdiv (nearest_int 1) (nearest_int x))) /\
  ((1 # 2) - inject_Z (k + 1) * (1 # 4294967296)
   <= float_value (fadd acc (fdiv (nearest_int 1) (nearest_int x)))
   <= inject_Z (k + 1) * (1 # 2))%Q.
Proof.
  intros Hx Hk Hacc [Hl Hu].
  destruct (reciprocal_near x ltac:(lia)) as [Ht Hnt].
  set (t := fdiv (nearest_int 1) (nearest_int x)) in *.
  change (2 ^ 20) with 1048576 in Hx, Hk.
  assert (Hq : (3 <= inject_Z x)%Q)
    by (change 3%Q with (inject_Z 3); rewrite <- Zle_Qle; lia).
  assert (Hkq : (1 <= inject_Z k <= 1048576)%Q)
    by (change 1%Q with (inject_Z 1); change 1048576%Q with (inject_Z 1048576);
        rewrite <- !Zle_Qle; lia).
  assert (Hr : (0 < 1 / inject_Z x <= 1 # 3)%Q).
  { split.
    - apply Qlt_shift_div_l; lra.
    - apply Qle_shift_div_r; lra. }
  pose proof (normal_pos t Ht) as Pt.
  unfold near, eps in Hnt. destruct Hnt as [Tl Tu].
  pose proof pow2_1022_big.
  destruct (fadd_near acc t Hacc Ht) as [Hn [Al Au]]; [lra|].
  split; [exact Hn|]. unfold eps in Al, Au.
  rewrite inject_Z_plus. change (inject_Z 1) with 1%Q.
  set (va := float_value acc) in *. set (vt := float_value t) in *.
  set (r := (1 / inject_Z x)%Q) in *.
  set (v := float_value (fadd acc t)) in *. set (kq := inject_Z k) in *.
  clearbody va vt r v kq. split; lra.
Qed.

Lemma harmonic_fold (l : list Z) (acc : float) (k : Z) :
  (forall x, In x l -> 3 <= x <= 2 ^ 20) ->
  1 <= k -> k + Z.of_nat (List.length l) <= 2 ^ 20 ->
  normal acc ->
  ((1 # 2) - inject_Z k * (1 # 4294967296) <= float_value acc
   <= inject_Z k * (1 # 2))%Q ->
  let h := fold_left (fun acc x => fadd acc (fdiv (nearest_int 1) (nearest_int x)))
             l acc in
  normal h /\
  ((1 # 2) - inject_Z (k + Z.of_nat (List.length l)) * (1 # 4294967296)
   <= float_value h
   <= inject_Z (k + Z.of_nat (List.length l)) * (1 # 2))%Q.
Proof.
  revert acc k. induction l as [|x l IH]; intros acc k Hin Hk Hlen Hacc Hb;
    cbn [fold_left List.length].
  - cbv zeta. rewrite Z.add_0_r. split; assumption.
  - cbn [List.length] in Hlen. rewrite Nat2Z.inj_succ in Hlen |- *.
    destruct (harmonic_step acc x k) as [Hn Hb'];
      [apply Hin; left; reflexivity | lia | exact Hacc | exact Hb |].
    replace (k + Z.succ (Z.of_nat (List.length l)))
      with (k + 1 + Z.of_nat (List.length l)) by lia.
    apply IH; [intros y Hy; apply Hin; right; exact Hy | lia | lia
               | exact Hn | exact Hb'].
Qed.

(** The sum is a normal double between 1/4 and [n_lines / 2]. *)
Lemma harmonic_float_bounds (n : Z) :
  2 <= n <= 2 ^ 20 ->
  normal (harmonic_float n) /\
  (1 # 4 <= float_value (harmonic_float n) <= inject_Z n * (1 # 2))%Q.
Proof.
  intros Hn. unfold harmonic_float.
  rewrite range_cons by lia. cbn [fold_left].
  change (fadd (S754_zero false) (fdiv (nearest_int 1) (nearest_int 2)))
    with (S754_finite false 4503599627370496 (-53)).
  destruct (harmonic_fold (range (2 + 1) (n + 1))
              (S754_finite false 4503599627370496 (-53)) 1) as [Hh [Hl Hu]].
  - intros x Hx. apply range_bounds in Hx. lia.
  - lia.
  - rewrite range_length. lia.
  - exists 4503599627370496%positive, (-53). repeat split; lia.
  - split; vm_compute; discriminate.
  - cbv zeta in Hh, Hl, Hu. split; [exact Hh|].
    rewrite range_length in Hl, Hu.
    replace (1 + Z.of_nat (Z.to_nat (n + 1 - (2 + 1)))) with (n + -1) in Hl, Hu
      by lia.
    change (2 ^ 20) with 1048576 in Hn.
    assert (Hq : (2 <= inject_Z n <= 1048576)%Q)
      by (change 2%Q with (inject_Z 2); change 1048576%Q with (inject_Z 1048576);
          rewrite <- !Zle_Qle; exact Hn).
    rewrite inject_Z_plus in Hl, Hu.
    change (inject_Z (-1)) with (-1)%Q in Hl, Hu.
    split; lra.
Qed.


(** ** The velocities of [inertial_scroll] on binary64 *)

Lemma ftruediv_normal (x y : float) : normal y -> ftruediv x y = Ok (fdiv x y).
Proof. intros (m & e & -> & _). reflexivity. Qed.

Lemma pow2_window (a b : Z) (x : Q) :
  -1021 <= a -> b <= 1022 -> (2 ^ a <= x <= 2 ^ b)%Q ->
  (2 ^ (-1022) <= x)%Q /\ (2 ^ (-1021) <= x)%Q /\ (x <= 2 ^ 1022)%Q.
Proof.
  intros Ha Hb [Hl Hu].
  split; [|split].
  - eapply Qle_trans; [|exact Hl]. apply pow2_le. lia.
  - eapply Qle_trans; [|exact Hl]. apply pow2_le. lia.
  - eapply Qle_trans; [exact Hu|]. apply pow2_le. lia.
Qed.

Section InertialFloat.

Variable n : Z.
Variables total duration : float.
Hypothesis n_range : 2 <= n <= 2 ^ 20.
Hypothesis total_normal : normal total.
Hypothesis total_range : (1 # 4 <= float_value total <= inject_Z n * (1 # 2))%Q.
Hypothesis duration_normal : normal duration.
Hypothesis duration_range : (2 ^ (-900) <= float_value duration <= 2 ^ 900)%Q.

(** Lines 84-85: the initial velocity is a normal double. *)
Lemma initial_velocity_from_normal :
  exists V,
    initial_velocity_from total n duration = Ok V /\ normal V /\
    (2 ^ (-924) <= float_value V <= 2 ^ 942)%Q.
Proof.
  assert (R53 : 2 ^ 20 < 2 ^ 53) by (apply Z.pow_lt_mono_r; lia).
  destruct (nearest_int_exact n) as (Nn & Vn & Fn); [lia|].
  destruct (nearest_int_exact (n - 1)) as (Nn1 & Vn1 & Fn1); [lia|].
  destruct total_range as [Hhl Hhu].
  unfold initial_velocity_from. rewrite Fn, Fn1. cbn [bindr].
  assert (Bn : (2 ^ 1 <= float_value (nearest_int n) <= 2 ^ 20)%Q)
    by (rewrite Vn; apply inject_pow2_bounds; [lia | lia |];
        change (2 ^ 1) with 2; lia).
  assert (Bn1 : (2 ^ 0 <= float_value (nearest_int (n - 1)) <= 2 ^ 20)%Q)
    by (rewrite Vn1; apply inject_pow2_bounds; [lia | lia |];
        change (2 ^ 0) with 1; lia).
  assert (Bh : (2 ^ (-2) <= float_value total <= 2 ^ 19)%Q).
  { split; [exact Hhl|]. eapply Qle_trans; [exact Hhu|].
    destruct (inject_pow2_bounds n 1 20 ltac:(lia) ltac:(lia)) as [_ H];
      [change (2 ^ 1) with 2; lia|].
    assert (E : (2 ^ 19 == 2 ^ 20 * (1 # 2))%Q) by reflexivity.
    rewrite E. apply Qmult_le_compat_r; [exact H | discriminate]. }
  (* the numerator *)
  pose proof (pow2_mul_bounds _ _ _ _ _ _ Bn Bh) as Pa.
  edestruct pow2_window as (Wa1 & _ & Wa2); [| |exact Pa|]; [lia | lia |].
  destruct (fmul_near _ _ Nn total_normal Wa1 Wa2) as [Na Ha].
  pose proof (near_pow2_bounds _ _ _ _ Pa Ha) as Ba.
  (* the denominator *)
  pose proof (pow2_mul_bounds _ _ _ _ _ _ Bn1 duration_range) as Pb.
  edestruct pow2_window as (Wb1 & _ & Wb2); [| |exact Pb|]; [lia | lia |].
  destruct (fmul_near _ _ Nn1 duration_normal Wb1 Wb2) as [Nb Hb].
  pose proof (near_pow2_bounds _ _ _ _ Pb Hb) as Bb.
  (* the quotient *)
  rewrite (ftruediv_normal _ _ Nb).
  pose proof (pow2_div_bounds _ _ _ _ _ _ Ba Bb) as Pv.
  edestruct pow2_window as (_ & Wv1 & Wv2); [| |exact Pv|]; [lia | lia |].
  destruct (fdiv_near _ _ Na Nb Wv1 Wv2) as [Nv Hv].
  pose proof (near_pow2_bounds _ _ _ _ Pv Hv) as Bv.
  eexists. split; [reflexivity|]. split; [exact Nv|].
  exact Bv.
Qed.

End InertialFloat.

(** Line 86: so is the decrement. *)
Lemma d_velocity_float_normal (n : Z) (V : float) :
  2 <= n <= 2 ^ 20 -> normal V ->
  (2 ^ (-924) <= float_value V <= 2 ^ 942)%Q ->
  float_of_int n = Ok (nearest_int n) /\
  ftruediv V (nearest_int n) = Ok (fdiv V (nearest_int n)) /\
  normal (fdiv V (nearest_int n)) /\
  near (float_value (fdiv V (nearest_int n))) (float_value V / inject_Z n).
Proof.
  intros Hn NV BV.
  assert (R53 : 2 ^ 20 < 2 ^ 53) by (apply Z.pow_lt_mono_r; lia).
  destruct (nearest_int_exact n) as (Nn & Vn & Fn); [lia|].
  assert (Bn : (2 ^ 1 <= float_value (nearest_int n) <= 2 ^ 20)%Q)
    by (rewrite Vn; apply inject_pow2_bounds; [lia | lia |];
        change (2 ^ 1) with 2; lia).
  pose proof (pow2_div_bounds _ _ _ _ _ _ BV Bn) as Pd.
  edestruct pow2_window as (_ & Wd1 & Wd2); [| |exact Pd|]; [lia | lia |].
  destruct (fdiv_near _ _ NV Nn Wd1 Wd2) as [Nd Hd].
  split; [exact Fn|]. split; [apply ftruediv_normal; exact Nn|].
  split; [exact Nd|].
  assert (E : (float_value V / float_value (nearest_int n)
               == float_value V / inject_Z n)%Q) by (rewrite Vn; reflexivity).
  apply (near_eq _ _ _ _ (Qeq_refl _) (Qeq_sym _ _ E)). exact Hd.
Qed.

Section VelocityLoop.

Variable n : Z.
Variables V D : float.
Hypothesis n_range : 2 <= n <= 2 ^ 20.
Hypothesis V_normal : normal V.
Hypothesis V_range : (2 ^ (-924) <= float_value V <= 2 ^ 942)%Q.
Hypothesis D_normal : normal D.
Hypothesis D_near : near (float_value D) (float_value V / inject_Z n).

Local Abbreviation s := (inject_Z n).
Local Abbreviation u := (float_value V / inject_Z n)%Q.
Local Abbreviation gamma := (1 # 2147483648)%Q.

Lemma lines_as_rational : (2 <= s <= 1048576)%Q.
Proof.
  change (2 ^ 20) with 1048576 in n_range.
  change 2%Q with (inject_Z 2). change 1048576%Q with (inject_Z 1048576).
  rewrite <- !Zle_Qle. exact n_range.
Qed.

Lemma velocity_split : (float_value V == s * u)%Q.
Proof. pose proof lines_as_rational. field. lra. Qed.

Lemma unit_velocity_bounds : (2 ^ (-944) <= u)%Q /\ (0 < u)%Q.
Proof.
  assert (Bn : (2 ^ 1 <= s <= 2 ^ 20)%Q)
    by (apply inject_pow2_bounds; [lia | lia |]; change (2 ^ 1) with 2; lia).
  destruct (pow2_div_bounds _ _ _ _ _ _ V_range Bn) as [H _].
  change (-924 - 20) with (-944) in H. split; [exact H|].
  eapply Qlt_le_trans; [apply (pow2_pos (-944)) | exact H].
Qed.

(** On entry to iteration [i] the velocity is a normal double, within
    [gamma * i * u] of [V - i * u], where [u] is [V / n_lines]. *)
Lemma velocity_at_float_bounds (i : nat) :
  Z.of_nat i <= n - 1 ->
  normal (velocity_at_float V D i) /\
  (s * u - (1 + gamma) * (inject_Z (Z.of_nat i) * u)
   <= float_value (velocity_at_float V D i)
   <= s * u - (1 - gamma) * (inject_Z (Z.of_nat i) * u))%Q.
Proof.
  pose proof lines_as_rational as Hs.
  pose proof velocity_split as HV.
  destruct unit_velocity_bounds as [Hu944 Hu].
  pose proof D_near as HD. pose proof V_range as [_ VU].
  set (w := (float_value V / inject_Z n)%Q) in *. clearbody w.
  induction i as [|i IH]; intros Hi.
  - change (velocity_at_float V D 0) with V. split; [exact V_normal|].
    change (inject_Z (Z.of_nat 0)) with 0%Q. split; lra.
  - destruct IH as [Nv [Bl Bu]]; [lia|].
    change (velocity_at_float V D (S i))
      with (fsub (velocity_at_float V D i) D).
    rewrite Nat2Z.inj_succ. unfold Z.succ. rewrite inject_Z_plus.
    change (inject_Z 1) with 1%Q.
    set (v := velocity_at_float V D i) in *.
    set (k := inject_Z (Z.of_nat i)) in *.
    assert (Hk : (0 <= k <= s - 2)%Q).
    { unfold k. split.
      - change 0%Q with (inject_Z 0). rewrite <- Zle_Qle. lia.
      - assert (H : (inject_Z (Z.of_nat i + 2) <= s)%Q)
          by (rewrite <- Zle_Qle; rewrite Nat2Z.inj_succ in Hi; lia).
        rewrite inject_Z_plus in H. change (inject_Z 2) with 2%Q in H. lra. }
    assert (Hku : (0 <= k * w <= (s - 2) * w)%Q).
    { split.
      - apply Qmult_le_0_compat; lra.
      - apply Qmult_le_compat_r; lra. }
    assert (Hsu : (s * w <= 1048576 * w)%Q)
      by (apply Qmult_le_compat_r; lra).
    unfold near, eps in HD. destruct HD as [Dl Du].
    assert (Hlow : (2 ^ (-1022) <= w * (1 # 2))%Q).
    { assert (E : (2 ^ (-1022) <= 2 ^ (-944) * (1 # 2))%Q).
      { change (1 # 2)%Q with (2 ^ (-1))%Q. rewrite <- pow2_add.
        apply pow2_le. lia. }
      lra. }
    assert (Hhigh : (2 ^ 942 <= 2 ^ 1022)%Q) by (apply pow2_le; lia).
    destruct (fsub_near v D Nv D_normal) as [Nv' [Nl Nu]]; [lra | lra |].
    split; [exact Nv'|]. unfold eps in Nl, Nu.
    set (x := float_value v) in *. set (d := float_value D) in *.
    set (y := float_value (fsub v D)) in *.
    split; lra.
Qed.

End VelocityLoop.

Lemma inertial_loop_float_ok (n : Z) (V D : float) (m : nat) :
  forall a, 0 <= a ->
  (forall j, a <= j < a + Z.of_nat m ->
     normal (velocity_at_float V D (Z.to_nat j))) ->
  inertial_loop_float n D (range a (a + Z.of_nat m))
    (velocity_at_float V D (Z.to_nat a))
  = Ok (map (hold_at_float n V D) (range a (a + Z.of_nat m))).
Proof.
  induction m as [|m IH]; intros a Ha Hn.
  - unfold range. replace (Z.to_nat (a + Z.of_nat 0 - a)) with 0%nat by lia.
    reflexivity.
  - rewrite range_cons by lia.
    replace (a + Z.of_nat (S m)) with (a + 1 + Z.of_nat m) by lia.
    cbn [inertial_loop_float map].
    rewrite (ftruediv_normal _ _ (Hn a ltac:(lia))). cbn [bindr].
    change (fsub (velocity_at_float V D (Z.to_nat a)) D)
      with (velocity_at_float V D (S (Z.to_nat a))).
    replace (S (Z.to_nat a)) with (Z.to_nat (a + 1)) by lia.
    rewrite IH; [reflexivity | lia |].
    intros j Hj. apply Hn. lia.
Qed.

(** C7, as the code has it. On binary64, in an inertial run over
    [2 <= S <= 2^20] lines with a tick that is a normal double between
    [2^-900] and [2^900] seconds, whatever normal double between 1/4 and
    [S / 2] the sum of line 84 comes to (as the sum added from the left
    does): the velocity is positive on entry to every iteration, each
    [1 / velocity] is defined, the velocity at the last paced step is within
    [v_1 / 2^31] of [v_1 * 2 / S], and the arithmetic of the loop raises
    nothing. *)
Theorem inertial_velocity_positive_float (target : Z) (duration : float) :
  2 <= Z.abs target <= 2 ^ 20 ->
  normal duration ->
  (2 ^ (-900) <= float_value duration <= 2 ^ 900)%Q ->
  (normal (harmonic_float (Z.abs target)) /\
   (1 # 4 <= float_value (harmonic_float (Z.abs target))
    <= inject_Z (Z.abs target) * (1 # 2))%Q) /\
  forall total,
    normal total ->
    (1 # 4 <= float_value total <= inject_Z (Z.abs target) * (1 # 2))%Q ->
    exists v1 dv,
      initial_velocity_from total (Z.abs target) duration = Ok v1 /\
      ftruediv v1 (nearest_int (Z.abs target)) = Ok dv /\
      (forall i, (i < Z.to_nat (Z.abs target))%nat ->
         (0 < float_value (velocity_at_float v1 dv i))%Q /\
         ftruediv (nearest_int 1) (velocity_at_float v1 dv i)
         = Ok (fdiv (nearest_int 1) (velocity_at_float v1 dv i))) /\
      (Qabs (float_value (velocity_at_float v1 dv (Z.to_nat (Z.abs target - 2)))
             - float_value v1 * 2 / inject_Z (Z.abs target))
       <= float_value v1 * (1 # 2147483648))%Q /\
      inertial_holds_from total target duration
      = Ok (map (hold_at_float (Z.abs target) v1 dv) (range 0 (Z.abs target))).
Proof.
  intros Hn Nd Bd. set (n := Z.abs target) in *.
  split; [apply harmonic_float_bounds; exact Hn|].
  intros total Nt Bt.
  destruct (initial_velocity_from_normal n total duration Hn Nt Bt Nd Bd)
    as (V & HV & NV & BV).
  destruct (d_velocity_float_normal n V Hn NV BV) as (Fn & HD & ND & DN).
  set (D := fdiv V (nearest_int n)) in *.
  pose proof (velocity_at_float_bounds n V D Hn NV BV ND DN) as Hinv.
  exists V, D. split; [exact HV|]. split; [exact HD|].
  split; [|split].
  - intros i Hi. destruct (Hinv i ltac:(lia)) as [Ni _].
    split; [apply normal_pos; exact Ni | apply ftruediv_normal; exact Ni].
  - destruct (Hinv (Z.to_nat (n - 2)) ltac:(lia)) as [_ [Bl Bu]].
    rewrite Z2Nat.id in Bl, Bu by lia.
    pose proof (lines_as_rational n Hn) as Hs.
    pose proof (velocity_split n V Hn) as HVs.
    destruct (unit_velocity_bounds n V Hn BV) as [_ Hu].
    assert (E : (inject_Z (n - 2) == inject_Z n - 2)%Q).
    { unfold Z.sub. rewrite inject_Z_plus. reflexivity. }
    assert (E2 : (float_value V * 2 / inject_Z n
                  == 2 * (float_value V / inject_Z n))%Q) by (field; lra).
    rewrite E in Bl, Bu. rewrite E2.
    set (w := (float_value V / inject_Z n)%Q) in *.
    assert (Hsw : (0 <= inject_Z n * w)%Q)
      by (apply Qmult_le_0_compat; lra).
    apply Qabs_Qle_condition. split; lra.
  - unfold inertial_holds_from. fold n. rewrite HV, Fn. cbn [bindr].
    rewrite HD. cbn [bindr].
    pose proof (inertial_loop_float_ok n V D (Z.to_nat n) 0 ltac:(lia)) as Hloop.
    rewrite Z.add_0_l, Z2Nat.id in Hloop by lia.
    apply Hloop. intros j Hj.
    destruct (Hinv (Z.to_nat j) ltac:(lia)) as [Nj _]. exact Nj.
Qed.

Lemma inertial_velocity_positive_float_witness :
  exists v1 dv,
    initial_velocity_float 5 (nearest_ratio 1 100) = Ok v1 /\
    ftruediv v1 (nearest_int 5) = Ok dv /\
    (0 < float_value (velocity_at_float v1 dv 3))%Q /\
    inertial_holds_float 5 (nearest_ratio 1 100)
    = Ok (map (hold_at_float 5 v1 dv) (range 0 5)).
Proof.
  destruct (inertial_velocity_positive_float 5 (nearest_ratio 1 100))
    as [[Nh Bh] H].
  - vm_compute. split; discriminate.
  - exists 5764607523034235%positive, (-59).
    split; [vm_compute; reflexivity|]. split; [reflexivity | lia].
  - split; vm_compute; discriminate.
  - destruct (H (harmonic_float 5) Nh Bh) as (v1 & dv & H1 & H2 & H3 & _ & H5).
    exists v1, dv. split; [exact H1|]. split; [exact H2|].
    split; [|exact H5].
    apply (H3 3%nat). vm_compute. lia.
Defined.

(** * Further properties *)

(** ** [KakSender.__init__] and the socket path *)

Lemma ends_with_sep_app (a b : pystr) :
  b <> [] -> ends_with_sep (a ++ b) = ends_with_sep b.
Proof.
  intros Hb. unfold ends_with_sep. rewrite rev_app_distr.
  destruct (rev b) as [|c r] eqn:E.
  - apply (f_equal (@rev Z)) in E. rewrite rev_involutive in E. contradiction.
  - reflexivity.
Qed.

(** Joining one relative component to a directory that has no trailing
    separator. *)
Lemma path_join_relative (a b : pystr) :
  a <> [] -> ends_with_sep a = false -> starts_with_sep b = false ->
  path_join a [b] = a ++ sep :: b.
Proof.
  intros Ha He Hb. unfold path_join. cbn [fold_left].
  rewrite Hb, He. destruct a; [contradiction | reflexivity].
Qed.

(** X1. With [XDG_RUNTIME_DIR] set to a directory without a trailing
    slash and a session name that does not begin with a slash, the sender
    is built without reading [TMPDIR] or [USER], and its socket is
    [<XDG_RUNTIME_DIR>/kakoune/<session>]. *)
Theorem init_socket_path_xdg (env : environ) (s c x : pystr) :
  kak_session env = Some s ->
  kak_client env = Some c ->
  XDG_RUNTIME_DIR env = Some x ->
  x <> [] -> ends_with_sep x = false -> starts_with_sep s = false ->
  KakSender_init env
  = Ok {| session := s; client := c;
          socket_path := x ++ lit "/kakoune/" ++ s |}.
Proof.
  intros Hs Hc Hx Hne He Hss. unfold KakSender_init.
  rewrite Hs, Hc, Hx. cbn [getenv bindr].
  rewrite (path_join_relative x (lit "kakoune")) by (assumption || reflexivity).
  rewrite path_join_relative.
  - rewrite <- app_assoc. reflexivity.
  - destruct x; discriminate.
  - apply (ends_with_sep_app x (sep :: lit "kakoune")). discriminate.
  - exact Hss.
Qed.

Lemma init_socket_path_xdg_witness :
  KakSender_init demo_environ = Ok demo_sender.
Proof.
  apply (init_socket_path_xdg demo_environ (lit "s") (lit "c")
           (lit "/run/user/1000")); try reflexivity; discriminate.
Defined.

(** X2. Without [XDG_RUNTIME_DIR] the socket is
    [<TMPDIR>/kakoune/<USER>/<session>], with [/tmp] for a missing
    [TMPDIR], when no directory has a trailing slash and neither the user
    nor the session name begins with one. *)
Theorem init_socket_path_tmpdir (env : environ) (s c u : pystr) :
  kak_session env = Some s ->
  kak_client env = Some c ->
  XDG_RUNTIME_DIR env = None ->
  USER env = Some u ->
  match TMPDIR env with
  | Some t => t <> [] /\ ends_with_sep t = false
  | None => True
  end ->
  u <> [] -> starts_with_sep u = false -> ends_with_sep u = false ->
  starts_with_sep s = false ->
  KakSender_init env
  = Ok {| session := s; client := c;
          socket_path :=
            match TMPDIR env with Some t => t | None => lit "/tmp" end
            ++ lit "/kakoune/" ++ u ++ lit "/" ++ s |}.
Proof.
  intros Hs Hc Hx Hu Ht Hne Hus Hue Hss. unfold KakSender_init.
  rewrite Hs, Hc, Hx, Hu. cbn [getenv bindr].
  set (t := match TMPDIR env with Some t => t | None => lit "/tmp" end).
  assert (Htn : t <> [] /\ ends_with_sep t = false).
  { unfold t. destruct (TMPDIR env); [exact Ht | split; [discriminate | reflexivity]]. }
  destruct Htn as [Htn Hte].
  assert (Hj : path_join t [lit "kakoune"; u] = t ++ lit "/kakoune/" ++ u).
  { unfold path_join. cbn [fold_left].
    change (starts_with_sep (lit "kakoune")) with false. cbv iota.
    rewrite Hte.
    assert (Hk : match t with [] => true | _ :: _ => false end = false)
      by (destruct t; [contradiction | reflexivity]).
    rewrite Hk. rewrite Hus.
    assert (He2 : ends_with_sep (t ++ sep :: lit "kakoune") = false)
      by (apply (ends_with_sep_app t (sep :: lit "kakoune")); discriminate).
    rewrite He2.
    destruct (t ++ sep :: lit "kakoune") eqn:E;
      [destruct t; discriminate|].
    rewrite <- E. rewrite <- app_assoc. reflexivity. }
  rewrite Hj. rewrite path_join_relative.
  - do 2 f_equal. rewrite <- !app_assoc. reflexivity.
  - destruct t; [contradiction | discriminate].
  - rewrite app_assoc. rewrite ends_with_sep_app by assumption. exact Hue.
  - exact Hss.
Qed.

Lemma init_socket_path_tmpdir_witness :
  KakSender_init tmp_environ
  = Ok {| session := lit "s"; client := lit "c";
          socket_path := lit "/tmp/kakoune/u/s" |}.
Proof.
  apply (init_socket_path_tmpdir tmp_environ (lit "s") (lit "c") (lit "u"));
    try reflexivity; try discriminate; try exact I.
Defined.

(** X3. Building the sender fails exactly when [kak_session] or
    [kak_client] is missing, or when both [XDG_RUNTIME_DIR] and [USER] are;
    the exception is then [KeyError]. A missing [TMPDIR] is never an
    error. *)
Theorem init_fails_on_missing_variable (env : environ) :
  (kak_session env = None \/ kak_client env = None
   \/ (XDG_RUNTIME_DIR env = None /\ USER env = None)
   -> KakSender_init env = Raise KeyError) /\
  (forall e, KakSender_init env = Raise e ->
     e = KeyError /\
     (kak_session env = None \/ kak_client env = None
      \/ (XDG_RUNTIME_DIR env = None /\ USER env = None))).
Proof.
  unfold KakSender_init. split.
  - intros H.
    destruct (kak_session env) as [s|]; destruct (kak_client env) as [c|];
      destruct (XDG_RUNTIME_DIR env) as [x|]; destruct (USER env) as [u|];
      cbn [getenv bindr]; try reflexivity; exfalso;
      destruct H as [H | [H | [H1 H2]]]; discriminate.
  - intros e.
    destruct (kak_session env) as [s|]; destruct (kak_client env) as [c|];
      destruct (XDG_RUNTIME_DIR env) as [x|]; destruct (USER env) as [u|];
      cbn [getenv bindr]; intros He; try discriminate He;
      (split; [congruence | auto 6]).
Qed.

Lemma init_fails_on_missing_variable_witness :
  KakSender_init bare_environ = Raise KeyError.
Proof.
  apply (init_fails_on_missing_variable bare_environ). left. reflexivity.
Defined.

(** X4. A session name that begins with a slash replaces the runtime
    directory altogether: the socket path is the session name itself. *)
Theorem init_absolute_session (env : environ) (sender : KakSender) (s : pystr) :
  kak_session env = Some s ->
  starts_with_sep s = true ->
  KakSender_init env = Ok sender ->
  socket_path sender = s.
Proof.
  intros Hs Hss. unfold KakSender_init. rewrite Hs. cbn [getenv bindr].
  destruct (kak_client env) as [c|]; cbn [getenv bindr]; [|discriminate].
  destruct (match XDG_RUNTIME_DIR env with
            | Some xdg => _
            | None => _
            end) as [rp|e]; cbn [bindr]; [|discriminate].
  intros H. assert (Hp : sender = {| session := s; client := c;
                                     socket_path := path_join rp [s] |})
    by congruence.
  rewrite Hp. cbn [socket_path]. unfold path_join. cbn [fold_left].
  rewrite Hss. reflexivity.
Qed.

Lemma init_absolute_session_witness :
  socket_path
    {| session := lit "/var/evil"; client := lit "c";
       socket_path := lit "/var/evil" |}
  = lit "/var/evil".
Proof.
  apply (init_absolute_session
           {| kak_session := Some (lit "/var/evil");
              kak_client := Some (lit "c");
              XDG_RUNTIME_DIR := Some (lit "/run/user/1000");
              TMPDIR := None; USER := None |}
           {| session := lit "/var/evil"; client := lit "c";
              socket_path := lit "/var/evil" |}
           (lit "/var/evil")); reflexivity.
Defined.

(** ** Lengths and encodings *)

(** X5. [_get_length_bytes] raises [OverflowError] exactly for a length
    outside [0, 2^32); inside, it gives four bytes that read back as the
    length, and the big-endian bytes are the little-endian ones reversed. *)
Theorem length_bytes_range (bo : byteorder) (n : Z) :
  (n < 0 \/ 2 ^ 32 <= n -> _get_length_bytes bo n = Raise OverflowError) /\
  (0 <= n < 2 ^ 32 ->
   exists b, _get_length_bytes bo n = Ok b /\ List.length b = 4%nat /\
             from_bytes4 bo b = n /\ Forall is_byte b) /\
  (forall bl bb,
     _get_length_bytes little n = Ok bl -> _get_length_bytes big n = Ok bb ->
     bb = rev bl).
Proof.
  unfold _get_length_bytes. split; [|split].
  - intros H. unfold to_bytes4.
    destruct (n <? 0) eqn:E0; [reflexivity|].
    destruct (2 ^ 32 <=? n) eqn:E1; [reflexivity|].
    apply Z.ltb_ge in E0. apply Z.leb_gt in E1. lia.
  - intros H. destruct (to_bytes4_ok bo n H) as [b Hb].
    exists b. split; [exact Hb|].
    destruct (to_bytes4_inv _ _ _ Hb) as (_ & H1 & H2 & H3). auto.
  - unfold to_bytes4. destruct ((n <? 0) || (2 ^ 32 <=? n)); [discriminate|].
    intros bl bb Hl Hb. congruence.
Qed.

Lemma length_bytes_range_witness :
  _get_length_bytes big 258 = Ok [0; 0; 1; 2]
  /\ _get_length_bytes little (2 ^ 32) = Raise OverflowError.
Proof.
  split.
  - reflexivity.
  - apply (length_bytes_range little (2 ^ 32)). right. lia.
Defined.

Lemma utf8_char_none (c : Z) : utf8_char c = None <-> surrogate c = true.
Proof.
  unfold utf8_char, surrogate.
  destruct (c <? 0x80) eqn:E1.
  { apply Z.ltb_lt in E1. split; [discriminate|].
    intros H. apply andb_true_iff in H. destruct H as [H _].
    apply Z.leb_le in H. lia. }
  destruct (c <? 0x800) eqn:E2.
  { apply Z.ltb_lt in E2. split; [discriminate|].
    intros H. apply andb_true_iff in H. destruct H as [H _].
    apply Z.leb_le in H. lia. }
  destruct ((0xD800 <=? c) && (c <=? 0xDFFF)); [tauto|].
  destruct (c <? 0x10000); split; discriminate.
Qed.

(** X6. Encoding a command fails exactly when it holds a surrogate code
    point, and then with [UnicodeEncodeError]. *)
Theorem encode_fails_on_surrogate (s : pystr) :
  (encode_utf8 s = Raise UnicodeEncodeError
   <-> Exists (fun c => surrogate c = true) s) /\
  (forall e, encode_utf8 s = Raise e -> e = UnicodeEncodeError).
Proof.
  split.
  - unfold encode_utf8.
    induction s as [|c s IH]; cbn [utf8_encode].
    + split; [discriminate | intros H; inversion H].
    + destruct (utf8_char c) as [bc|] eqn:Ec.
      * assert (Hc : surrogate c <> true).
        { intros H. apply utf8_char_none in H. congruence. }
        destruct (utf8_encode s) as [bs|].
        -- split; [discriminate|]. intros H. apply Exists_cons in H.
           destruct H as [H | H]; [contradiction|].
           apply IH in H. discriminate.
        -- split; [intros _; apply Exists_cons_tl; apply IH; reflexivity
                  | reflexivity].
      * split; [|reflexivity]. intros _. apply Exists_cons_hd.
        apply utf8_char_none. exact Ec.
  - unfold encode_utf8. destruct (utf8_encode s); intros e H; congruence.
Qed.

Lemma encode_fails_on_surrogate_witness :
  encode_utf8 (lit "3j" ++ [0xDC80]) = Raise UnicodeEncodeError.
Proof.
  apply (encode_fails_on_surrogate (lit "3j" ++ [0xDC80])).
  apply Exists_cons_tl, Exists_cons_tl, Exists_cons_hd. reflexivity.
Defined.

Lemma utf8_char_length (c : Z) (b : bytes) :
  utf8_char c = Some b ->
  (1 <= List.length b <= 4)%nat /\
  (c < 0x80 -> b = [c]) /\
  (0x80 <= c -> (2 <= List.length b)%nat).
Proof.
  unfold utf8_char.
  destruct (c <? 0x80) eqn:E1.
  { apply Z.ltb_lt in E1. intros H.
    assert (b = [c]) by congruence. subst b. cbn [List.length].
    repeat split; lia. }
  apply Z.ltb_ge in E1.
  destruct (c <? 0x800); [|destruct (surrogate c); [discriminate|];
                           destruct (c <? 0x10000)];
    intros H;
    apply (f_equal (fun o => match o with Some x => List.length x | None => 0%nat end))
      in H; cbn [List.length] in H; repeat split; lia.
Qed.

(** X7. The UTF-8 encoding of a command has at least as many bytes as the
    command has characters and at most four times as many; a command of
    ASCII characters is its own encoding, and one character outside ASCII
    makes the encoding strictly longer. *)
Theorem encoded_length (s : pystr) (b : bytes) :
  utf8_encode s = Some b ->
  len s <= len b <= 4 * len s /\
  (Forall (fun c => c < 0x80) s -> b = s) /\
  (Exists (fun c => 0x80 <= c) s -> len s < len b).
Proof.
  revert b. induction s as [|c s IH]; intros b; cbn [utf8_encode].
  - intros H. assert (b = []) by congruence. subst b.
    split; [unfold len; cbn; lia|]. split; [reflexivity|].
    intros H0. inversion H0.
  - destruct (utf8_char c) as [bc|] eqn:Ec; [|discriminate].
    destruct (utf8_encode s) as [bs|]; [|discriminate].
    intros H. assert (b = bc ++ bs) by congruence. subst b.
    destruct (utf8_char_length c bc Ec) as (L1 & L2 & L3).
    destruct (IH bs eq_refl) as (I1 & I2 & I3).
    unfold len in *. rewrite length_app. cbn [List.length].
    split; [lia|]. split.
    + intros HF. apply Forall_cons_iff in HF. destruct HF as [Hc HF].
      rewrite (L2 Hc), (I2 HF). reflexivity.
    + intros HE. apply Exists_cons in HE. destruct HE as [Hc | HE].
      * specialize (L3 Hc). lia.
      * specialize (I3 HE). lia.
Qed.

Lemma encoded_length_witness :
  len [0x20AC] < len [226; 130; 172].
Proof.
  apply (encoded_length [0x20AC] [226; 130; 172]).
  - reflexivity.
  - apply Exists_cons_hd. lia.
Defined.

(** ** Sending *)

Lemma wf_lit (s : string) : wf_str (lit s).
Proof.
  induction s as [|a s IH]; cbn [lit]; constructor; [|exact IH].
  unfold code_point. pose proof (nat_ascii_bounded a). lia.
Qed.

Lemma sleeps_app (a b : list event) : sleeps (a ++ b) = sleeps a ++ sleeps b.
Proof. apply flat_map_app. Qed.

(** X8. A command that cannot be encoded makes [send_cmd] raise
    [UnicodeEncodeError] before any connection is tried; a refused
    connection raises [OSError]; and whenever [send_cmd] raises, it is one of
    [UnicodeEncodeError], [OSError] and [OverflowError] and nothing was
    sent. *)
Theorem send_cmd_failure (bo : byteorder) (sys : system) (self : KakSender)
    (cmd : pystr) (w : world) :
  (utf8_encode cmd = None ->
   send_cmd bo sys self cmd w = (Raise UnicodeEncodeError, w)) /\
  (utf8_encode cmd <> None -> connects sys w (socket_path self) = false ->
   send_cmd bo sys self cmd w = (Raise OSError, w)) /\
  (forall e w', send_cmd bo sys self cmd w = (Raise e, w') ->
     w' = w /\ (e = UnicodeEncodeError \/ e = OSError \/ e = OverflowError)).
Proof.
  unfold send_cmd, bind, lift, connect, sock_send, ret, encode_utf8.
  split; [|split].
  - intros H. rewrite H. reflexivity.
  - intros H Hc. destruct (utf8_encode cmd); [|contradiction].
    rewrite Hc. reflexivity.
  - intros e w'. destruct (utf8_encode cmd) as [b_cmd|].
    2:{ intros H. split; [congruence | left; congruence]. }
    destruct (connects sys w (socket_path self)).
    2:{ intros H. split; [congruence | right; left; congruence]. }
    destruct (frame bo b_cmd) as [msg|e1] eqn:Ef.
    2:{ apply frame_raises in Ef. intros H.
        split; [congruence | right; right; congruence]. }
    destruct (accepts sys w msg); [discriminate|].
    intros H. split; [congruence | right; left; congruence].
Qed.

Lemma send_cmd_failure_witness :
  send_cmd little unreachable demo_sender [0xD800] boot
  = (Raise UnicodeEncodeError, boot)
  /\ send_cmd little unreachable demo_sender (lit "nop") boot
     = (Raise OSError, boot).
Proof.
  split.
  - apply (send_cmd_failure little unreachable demo_sender [0xD800] boot).
    reflexivity.
  - apply (send_cmd_failure little unreachable demo_sender (lit "nop") boot).
    + discriminate.
    + reflexivity.
Defined.

(** X9. What a completed [send_keys] put on the wire is one message, and
    it reads back as [execute-keys -client <client> <keys>]. *)
Theorem send_keys_on_the_wire (bo : byteorder) (sys : system) (self : KakSender)
    (keys : pystr) (w w' : world) (b : bool) :
  wf_str (client self) -> wf_str keys ->
  send_keys bo sys self keys w = (Ok b, w') ->
  exists msg k,
    trace w' = trace w ++ [Sent (socket_path self) (execute_keys self keys) msg k] /\
    decode bo msg
    = Some (lit "execute-keys -client " ++ client self ++ lit " " ++ keys) /\
    b = (k =? len msg).
Proof.
  intros Hc Hk Hrun. unfold send_keys in Hrun.
  apply send_cmd_inv in Hrun.
  destruct Hrun as (msg & k & _ & Hm & _ & Hb & ->).
  exists msg, k. split; [reflexivity|]. split; [|exact Hb].
  assert (Hwf : wf_str (lit "execute-keys -client " ++ client self ++ lit " " ++ keys)).
  { unfold wf_str. rewrite !Forall_app.
    repeat split; try assumption; apply wf_lit. }
  destruct (message_roundtrip bo _ msg Hwf Hm) as (b_cmd & l1 & l2 & m0 & H).
  apply H.
Qed.

Lemma send_keys_on_the_wire_witness :
  exists msg k,
    trace (snd (send_keys big reliable demo_sender (lit "3j3vj") boot))
    = trace boot
      ++ [Sent (socket_path demo_sender) (execute_keys demo_sender (lit "3j3vj"))
               msg k] /\
    decode big msg
    = Some (lit "execute-keys -client " ++ client demo_sender ++ lit " "
            ++ lit "3j3vj") /\
    true = (k =? len msg).
Proof.
  apply (send_keys_on_the_wire big reliable demo_sender (lit "3j3vj") boot
           (snd (send_keys big reliable demo_sender (lit "3j3vj") boot)) true).
  - apply wf_lit.
  - apply wf_lit.
  - vm_compute. reflexivity.
Defined.

(** ** The clock *)

Section Clock.

Variable bo : byteorder.
Variable sys : system.

(** A completed [scroll_once], on the clock: either the send was shorter
    than the hold and the rest was slept, or it was not and nothing was. *)
Lemma scroll_once_clock (sender : KakSender) (step : Z) (d : Q)
    (w w' : world) (u : unit) :
  scroll_once bo sys sender step d w = (Ok u, w') ->
  exists L,
    L = send_time sys {| now := now w; trace := trace w ++ [Scroll step d] |} /\
    ((L < d /\ now w' == now w + d
      /\ exists x, sleeps (trace w') = sleeps (trace w) ++ [x] /\ x == d - L)
     \/ (d <= L /\ now w' == now w + L
         /\ sleeps (trace w') = sleeps (trace w)))%Q.
Proof.
  unfold scroll_once, bind, log, time, send_keys.
  set (w1 := {| now := now w; trace := trace w ++ [Scroll step d] |}).
  destruct (send_cmd bo sys sender _ w1) as [[b|e] w2] eqn:Es; [|discriminate].
  apply send_cmd_inv in Es. destruct Es as (msg & k & _ & _ & _ & _ & ->).
  cbn [now after_send w1].
  destruct (Qltb (now w + send_time sys w1 - now w) d) eqn:E.
  - apply Qltb_lt in E. unfold sleep. intros Hrun.
    apply (f_equal snd) in Hrun. cbn [snd now trace] in Hrun. subst w'.
    exists (send_time sys w1). split; [reflexivity|].
    unfold after_send. cbn [now trace].
    change (now w1) with (now w).
    change (trace w1) with (trace w ++ [Scroll step d]).
    left. split; [lra|]. split; [ring|].
    eexists. split.
    + rewrite !sleeps_app. cbn [sleeps flat_map sleep_of app].
      rewrite !app_nil_r. reflexivity.
    + ring.
  - unfold ret. intros Hrun.
    apply (f_equal snd) in Hrun. cbn [snd] in Hrun. subst w'.
    exists (send_time sys w1). split; [reflexivity|].
    unfold after_send. cbn [now trace].
    change (now w1) with (now w).
    change (trace w1) with (trace w ++ [Scroll step d]).
    right.
    assert (~ (now w + send_time sys w1 - now w < d)%Q).
    { intros Hlt. apply Qltb_lt in Hlt. congruence. }
    split; [lra|]. split; [reflexivity|].
    rewrite !sleeps_app. cbn [sleeps flat_map sleep_of app].
    rewrite !app_nil_r. reflexivity.
Qed.

End Clock.

(** X10. A completed [scroll_once] takes at least [duration] on the clock,
    sends exactly one command, and sleeps at most once, for a positive
    time. *)
Theorem scroll_once_takes_duration (bo : byteorder) (sys : system)
    (sender : KakSender) (step : Z) (d : Q) (w w' : world) (u : unit) :
  scroll_once bo sys sender step d w = (Ok u, w') ->
  (now w + d <= now w')%Q /\
  commands (trace w')
  = commands (trace w) ++ [execute_keys sender (scroll_keys step)] /\
  exists l, sleeps (trace w') = sleeps (trace w) ++ l /\
            (List.length l <= 1)%nat /\ Forall (fun x => (0 < x)%Q) l.
Proof.
  intros Hrun.
  pose proof (scroll_once_inv _ _ _ _ _ _ _ _ Hrun) as [_ Hc].
  destruct (scroll_once_clock _ _ _ _ _ _ _ _ Hrun) as (L & _ & [H | H]).
  - destruct H as (Hlt & Hn & x & Hs & Hx).
    split; [lra|]. split; [exact Hc|].
    exists [x]. split; [exact Hs|]. split; [cbn; lia|].
    constructor; [lra | constructor].
  - destruct H as (Hle & Hn & Hs).
    split; [lra|]. split; [exact Hc|].
    exists []. rewrite app_nil_r. split; [exact Hs|]. split; [cbn; lia|].
    constructor.
Qed.

Lemma scroll_once_takes_duration_witness :
  (now boot + (1 # 100)
   <= now (snd (scroll_once little reliable demo_sender 3 (1 # 100) boot)))%Q.
Proof.
  apply (scroll_once_takes_duration little reliable demo_sender 3 (1 # 100) boot
           (snd (scroll_once little reliable demo_sender 3 (1 # 100) boot)) tt).
  vm_compute. reflexivity.
Defined.

(** ** Loops *)

(** What every step of a loop keeps, the loop keeps, however it ends. *)
Lemma for_fold_rel {A St} (R : world -> world -> Prop)
    (body : A -> St -> M St) (l : list A) :
  (forall w, R w w) ->
  (forall w1 w2 w3, R w1 w2 -> R w2 w3 -> R w1 w3) ->
  (forall i s w r w', In i l -> body i s w = (r, w') -> R w w') ->
  forall s w r w', for_fold l body s w = (r, w') -> R w w'.
Proof.
  intros Hrefl Htrans. induction l as [|i l IH]; intros Hbody s w r w';
    cbn [for_fold].
  - unfold ret. intros H. assert (w' = w) by congruence. subst w'. apply Hrefl.
  - unfold bind.
    destruct (body i s w) as [[s1|e] w1] eqn:E1.
    + intros Hrest. apply (Htrans w w1 w').
      * exact (Hbody i s w _ w1 (or_introl eq_refl) E1).
      * apply (IH (fun j s0 w0 r0 w0' Hj => Hbody j s0 w0 r0 w0' (or_intror Hj))
                  s1 w1 r w' Hrest).
    + intros H. assert (w' = w1) by congruence. subst w'.
      exact (Hbody i s w _ w1 (or_introl eq_refl) E1).
Qed.

(** The same for loops that run to their end. *)
Lemma for_fold_ok_rel {A St} (R : world -> world -> Prop)
    (body : A -> St -> M St) (l : list A) :
  (forall w, R w w) ->
  (forall w1 w2 w3, R w1 w2 -> R w2 w3 -> R w1 w3) ->
  (forall i s w s' w', In i l -> body i s w = (Ok s', w') -> R w w') ->
  forall s w sf w', for_fold l body s w = (Ok sf, w') -> R w w'.
Proof.
  intros Hrefl Htrans. induction l as [|i l IH]; intros Hbody s w sf w';
    cbn [for_fold].
  - unfold ret. intros H. assert (w' = w) by congruence. subst w'. apply Hrefl.
  - unfold bind.
    destruct (body i s w) as [[s1|e] w1] eqn:E1; [|discriminate].
    intros Hrest. apply (Htrans w w1 w').
    + exact (Hbody i s w s1 w1 (or_introl eq_refl) E1).
    + apply (IH (fun j s0 w0 s0' w0' Hj => Hbody j s0 w0 s0' w0' (or_intror Hj))
                s1 w1 sf w' Hrest).
Qed.


(** A loop whose completed steps each send the command [c] has sent it once
    per step when it ends. *)
Lemma for_fold_ok_commands {A St} (c : pystr)
    (body : A -> St -> M St) (l : list A) :
  (forall i s w s' w', In i l -> body i s w = (Ok s', w') ->
     commands (trace w') = commands (trace w) ++ [c]) ->
  forall s w sf w', for_fold l body s w = (Ok sf, w') ->
  commands (trace w') = commands (trace w) ++ repeat c (List.length l).
Proof.
  induction l as [|i l IH]; intros Hbody s w sf w'; cbn [for_fold].
  - unfold ret. intros H. assert (w' = w) by congruence. subst w'.
    cbn [List.length repeat]. rewrite app_nil_r. reflexivity.
  - unfold bind.
    destruct (body i s w) as [[s1|e] w1] eqn:E1; [|discriminate].
    intros Hrest.
    rewrite (IH (fun j s0 w0 s0' w0' Hj => Hbody j s0 w0 s0' w0' (or_intror Hj))
                s1 w1 sf w' Hrest).
    rewrite (Hbody i s w s1 w1 (or_introl eq_refl) E1).
    cbn [List.length repeat]. rewrite <- app_assoc. reflexivity.
Qed.

(** ** The direction of what is sent *)


Lemma sent_only_refl (P : pystr -> Prop) (w : world) : sent_only P w w.
Proof. exists []. rewrite app_nil_r. split; [reflexivity | constructor]. Qed.

Lemma sent_only_trans (P : pystr -> Prop) (w1 w2 w3 : world) :
  sent_only P w1 w2 -> sent_only P w2 w3 -> sent_only P w1 w3.
Proof.
  intros (l1 & H1 & F1) (l2 & H2 & F2). exists (l1 ++ l2).
  rewrite H2, H1, <- app_assoc. split; [reflexivity | apply Forall_app; auto].
Qed.

Lemma scroll_keys_up (step : Z) : step <= 0 -> scroll_keys step = up_keys (Z.abs step).
Proof.
  intros H. unfold scroll_keys, up_keys.
  replace (step >? 0) with false by (symmetry; lia). reflexivity.
Qed.

Lemma scroll_keys_down (step : Z) : 0 < step -> scroll_keys step = down_keys step.
Proof.
  intros H. unfold scroll_keys, down_keys.
  replace (step >? 0) with true by (symmetry; lia).
  rewrite Z.abs_eq by lia. reflexivity.
Qed.

Lemma n_lines_nonneg (a : inputs) :
  2 <= window_height a -> 1 <= cursor_line a <= line_count a ->
  0 <= maxscroll a /\ 0 <= n_lines a <= maxscroll a.
Proof.
  intros Hw Hc.
  assert (Hm : 0 <= maxscroll a).
  { unfold maxscroll. destruct (Qltb 0 (amount a)); lia. }
  assert (Hr : (0 <= requested a)%Q).
  { unfold requested. apply Qmult_le_0_compat; [apply Qmult_le_0_compat|].
    - change 0%Q with (inject_Z 0). rewrite <- Zle_Qle. unfold count. lia.
    - apply Qabs_nonneg.
    - change 0%Q with (inject_Z 0). rewrite <- Zle_Qle. lia. }
  assert (Hp : 0 <= py_int (requested a)).
  { rewrite py_int_nonneg by exact Hr.
    change 0 with (Qfloor 0). apply Qfloor_resp_le. exact Hr. }
  split; [exact Hm|]. unfold n_lines. lia.
Qed.

Section Direction.

Variable bo : byteorder.
Variable sys : system.
Variable sender : KakSender.

Lemma scroll_once_sent_only (P : pystr -> Prop) (step : Z) (d : Q)
    (w w' : world) (r : result unit) :
  P (execute_keys sender (scroll_keys step)) ->
  scroll_once bo sys sender step d w = (r, w') -> sent_only P w w'.
Proof.
  intros HP Hrun. apply scroll_once_inv in Hrun. destruct Hrun as [_ Hc].
  destruct r as [u|e].
  - exists [execute_keys sender (scroll_keys step)].
    split; [exact Hc | constructor; [exact HP | constructor]].
  - destruct Hc as [_ Hc]. exists []. rewrite app_nil_r.
    split; [exact Hc | constructor].
Qed.

Lemma fixed_scroll_sent_only (P : pystr -> Prop) (n sgn spd : Z) (d : Q)
    (w w' : world) (r : result unit) :
  P (execute_keys sender (scroll_keys (sgn * spd))) ->
  fixed_scroll bo sys sender n sgn spd d w = (r, w') -> sent_only P w w'.
Proof.
  intros HP. unfold fixed_scroll, for_each.
  apply for_fold_rel.
  - apply sent_only_refl.
  - apply sent_only_trans.
  - intros i s w0 r0 w0' _ Hb. exact (scroll_once_sent_only P _ _ _ _ _ HP Hb).
Qed.

Lemma inertial_scroll_sent_only (P : pystr -> Prop) (target : Z) (d : Q)
    (w w' : world) (r : result unit) :
  P (execute_keys sender (scroll_keys (if target >? 0 then 1 else -1))) ->
  inertial_scroll bo sys sender target d w = (r, w') -> sent_only P w w'.
Proof.
  intros HP. unfold inertial_scroll.
  unfold bind at 1, lift at 1.
  destruct (truediv _ _) as [velocity|e1].
  2:{ intros H. assert (w' = w) by congruence. subst w'. apply sent_only_refl. }
  unfold bind at 1, lift at 1.
  destruct (truediv velocity _) as [d_velocity|e2].
  2:{ intros H. assert (w' = w) by congruence. subst w'. apply sent_only_refl. }
  unfold bind at 1.
  destruct (for_fold _ _ velocity w) as [[vf|e3] w1] eqn:El.
  - unfold ret. intros H. assert (w' = w1) by congruence. subst w'.
    revert El. apply for_fold_rel.
    + apply sent_only_refl.
    + apply sent_only_trans.
    + intros i s w0 r0 w0' _. unfold inertial_body, bind, lift.
      destruct (truediv 1 s) as [inv|e4].
      2:{ intros H0. assert (w0' = w0) by congruence. subst w0'.
          apply sent_only_refl. }
      destruct (scroll_once bo sys sender _ _ w0) as [[u1|e5] w2] eqn:Es.
      * unfold ret. intros H0. assert (w0' = w2) by congruence. subst w0'.
        exact (scroll_once_sent_only P _ _ _ _ _ HP Es).
      * intros H0. assert (w0' = w2) by congruence. subst w0'.
        exact (scroll_once_sent_only P _ _ _ _ _ HP Es).
  - intros H. assert (w' = w1) by congruence. subst w'.
    revert El. apply for_fold_rel.
    + apply sent_only_refl.
    + apply sent_only_trans.
    + intros i s w0 r0 w0' _. unfold inertial_body, bind, lift.
      destruct (truediv 1 s) as [inv|e4].
      2:{ intros H0. assert (w0' = w0) by congruence. subst w0'.
          apply sent_only_refl. }
      destruct (scroll_once bo sys sender _ _ w0) as [[u1|e5] w2] eqn:Es.
      * unfold ret. intros H0. assert (w0' = w2) by congruence. subst w0'.
        exact (scroll_once_sent_only P _ _ _ _ _ HP Es).
      * intros H0. assert (w0' = w2) by congruence. subst w0'.
        exact (scroll_once_sent_only P _ _ _ _ _ HP Es).
Qed.

End Direction.

(** X11. For an amount that is not positive, in a window of at least two
    lines with the cursor inside the buffer and a speed that is not
    negative, every command [main] sends scrolls up, on both paths and also
    when the run is cut short by an exception. *)
Theorem main_scrolls_up (bo : byteorder) (sys : system) (env : environ)
    (sender : KakSender) (a : inputs) (w w' : world) (r : result unit) :
  KakSender_init env = Ok sender ->
  ~ (0 < amount a)%Q ->
  0 <= speed a ->
  2 <= window_height a -> 1 <= cursor_line a <= line_count a ->
  main bo sys env a w = (r, w') ->
  sent_only (scrolls_up sender) w w'.
Proof.
  intros He Ha Hs Hw Hc.
  destruct (n_lines_nonneg a Hw Hc) as [_ [Hn _]].
  assert (Hsign : sign a = -1).
  { unfold sign. destruct (Qltb 0 (amount a)) eqn:E; [|reflexivity].
    apply Qltb_lt in E. contradiction. }
  unfold main. destruct (maxscroll a =? 0).
  { unfold ret. intros H. assert (w' = w) by congruence. subst w'.
    apply sent_only_refl. }
  unfold bind, lift. rewrite He, Hsign.
  destruct (fixed_path a).
  - apply fixed_scroll_sent_only.
    rewrite scroll_keys_up by lia. exists (Z.abs (-1 * speed a)).
    split; [lia | reflexivity].
  - apply inertial_scroll_sent_only.
    replace (-1 * n_lines a >? 0) with false by (symmetry; lia).
    exists 1. split; [lia | reflexivity].
Qed.

Lemma main_scrolls_up_witness :
  sent_only (scrolls_up demo_sender) boot
    (snd (main little reliable demo_environ (short_scroll (-1 # 2) 0) boot)).
Proof.
  apply (main_scrolls_up little reliable demo_environ demo_sender
           (short_scroll (-1 # 2) 0) boot _ (Ok tt)).
  - reflexivity.
  - intros H. discriminate H.
  - cbn. lia.
  - cbn. lia.
  - cbn. lia.
  - vm_compute. reflexivity.
Defined.

(** X12. For a positive amount, in a window of at least two lines with the
    cursor inside the buffer, every command [main] sends scrolls down,
    provided the speed is at least 1 whenever the fixed-speed path is
    taken. *)
Theorem main_scrolls_down (bo : byteorder) (sys : system) (env : environ)
    (sender : KakSender) (a : inputs) (w w' : world) (r : result unit) :
  KakSender_init env = Ok sender ->
  (0 < amount a)%Q ->
  (fixed_path a = true -> 1 <= speed a) ->
  2 <= window_height a -> 1 <= cursor_line a <= line_count a ->
  main bo sys env a w = (r, w') ->
  sent_only (scrolls_down sender) w w'.
Proof.
  intros He Ha Hs Hw Hc.
  destruct (n_lines_nonneg a Hw Hc) as [_ [Hn _]].
  assert (Hsign : sign a = 1).
  { unfold sign. apply Qltb_lt in Ha. rewrite Ha. reflexivity. }
  unfold main. destruct (maxscroll a =? 0).
  { unfold ret. intros H. assert (w' = w) by congruence. subst w'.
    apply sent_only_refl. }
  unfold bind, lift. rewrite He, Hsign.
  destruct (fixed_path a).
  - specialize (Hs eq_refl). apply fixed_scroll_sent_only.
    rewrite scroll_keys_down by lia. exists (1 * speed a).
    split; [lia | reflexivity].
  - rewrite Z.mul_1_l.
    destruct (Z.eq_dec (n_lines a) 0) as [H0 | H0].
    + rewrite H0. rewrite inertial_zero_raises.
      intros H. assert (w' = w) by congruence. subst w'. apply sent_only_refl.
    + apply inertial_scroll_sent_only.
      replace (n_lines a >? 0) with true by (symmetry; lia).
      exists 1. split; [lia | reflexivity].
Qed.

Lemma main_scrolls_down_witness :
  sent_only (scrolls_down demo_sender) boot
    (snd (main little reliable demo_environ (short_scroll (1 # 2) 0) boot)).
Proof.
  apply (main_scrolls_down little reliable demo_environ demo_sender
           (short_scroll (1 # 2) 0) boot _ (Ok tt)).
  - reflexivity.
  - reflexivity.
  - intros H. discriminate H.
  - cbn. lia.
  - cbn. lia.
  - vm_compute. reflexivity.
Defined.

(** ** What a completed run has done *)

Lemma Zsum_app (a b : list Z) : Zsum (a ++ b) = Zsum a + Zsum b.
Proof. induction a as [|x a IH]; cbn [app Zsum]; lia. Qed.

Lemma Zsum_repeat (x : Z) (n : nat) : Zsum (repeat x n) = Z.of_nat n * x.
Proof. induction n as [|n IH]; cbn [repeat Zsum]; lia. Qed.

Lemma steps_app (a b : list event) : steps (a ++ b) = steps a ++ steps b.
Proof. unfold steps. rewrite calls_app, map_app. reflexivity. Qed.

Lemma lines_moved_steps (t t' : list event) (ss : list Z) :
  steps t' = steps t ++ ss ->
  lines_moved t' = lines_moved t + Zsum (map Z.abs ss).
Proof.
  intros H. unfold lines_moved. rewrite H, map_app, Zsum_app. reflexivity.
Qed.

Lemma Qsum_const {A} (c : Q) (l : list A) :
  (Qsum (map (fun _ => c) l) == inject_Z (Z.of_nat (List.length l)) * c)%Q.
Proof.
  induction l as [|x l IH]; cbn [map Qsum List.length].
  - ring.
  - rewrite IH, Nat2Z.inj_succ. unfold Z.succ. rewrite inject_Z_plus.
    change (inject_Z 1) with 1%Q. ring.
Qed.

Lemma inertial_one_raises (bo : byteorder) (sys : system) (sender : KakSender)
    (target : Z) (duration : Q) (w : world) :
  Z.abs target = 1 ->
  inertial_scroll bo sys sender target duration w = (Raise ZeroDivisionError, w).
Proof.
  intros H. unfold inertial_scroll, bind, lift. rewrite H.
  rewrite truediv_zero; [reflexivity|].
  change (inject_Z (1 - 1)) with 0%Q. ring.
Qed.

Lemma inertial_body_commands (bo : byteorder) (sys : system) (sender : KakSender)
    (step S : Z) (dv : Q) (i : Z) (v v' : Q) (w w' : world) :
  inertial_body bo sys sender step S dv i v w = (Ok v', w') ->
  commands (trace w')
  = commands (trace w) ++ [execute_keys sender (scroll_keys step)].
Proof.
  unfold inertial_body, bind, lift.
  destruct (truediv 1 v) as [inv|e]; [|discriminate].
  destruct (scroll_once bo sys sender step _ w) as [[u|e] w1] eqn:Es;
    [|discriminate].
  apply scroll_once_inv in Es. destruct Es as [_ Hc].
  unfold ret. intros H. assert (w' = w1) by congruence. subst w'. exact Hc.
Qed.

(** X13. An inertial run over [S >= 2] lines that runs to its end has
    sent exactly [S] commands, each for one line in the direction of the
    target, so it has moved [S] lines. *)
Theorem inertial_run_commands (bo : byteorder) (sys : system)
    (sender : KakSender) (target : Z) (duration : Q) (w w' : world) :
  2 <= Z.abs target -> (0 < duration)%Q ->
  inertial_scroll bo sys sender target duration w = (Ok tt, w') ->
  steps (trace w')
  = steps (trace w)
    ++ repeat (if target >? 0 then 1 else -1) (Z.to_nat (Z.abs target)) /\
  commands (trace w')
  = commands (trace w)
    ++ repeat (execute_keys sender
                 (if target >? 0 then down_keys 1 else up_keys 1))
              (Z.to_nat (Z.abs target)) /\
  lines_moved (trace w') = lines_moved (trace w) + Z.abs target.
Proof.
  intros HS HD Hrun.
  assert (Hsteps : steps (trace w')
                   = steps (trace w)
                     ++ repeat (if target >? 0 then 1 else -1)
                               (Z.to_nat (Z.abs target))).
  { unfold steps. rewrite (inertial_scroll_calls _ _ _ _ _ HS HD _ _ Hrun).
    rewrite map_app, map_map. cbn [fst]. rewrite map_const, length_seq.
    reflexivity. }
  split; [exact Hsteps|]. split.
  - rewrite (inertial_scroll_loop _ _ _ _ _ HS HD) in Hrun. unfold bind in Hrun.
    destruct (for_fold _ _ _ w) as [[vf|e] w1] eqn:El; [|discriminate].
    unfold ret in Hrun. assert (w1 = w') by congruence. subst w1.
    apply (for_fold_ok_commands
             (execute_keys sender (scroll_keys (if target >? 0 then 1 else -1))))
      in El.
    + rewrite length_map, length_seq in El. rewrite El.
      destruct (target >? 0); reflexivity.
    + intros i s w0 s' w0' _ Hb. exact (inertial_body_commands _ _ _ _ _ _ _ _ _ _ _ Hb).
  - rewrite (lines_moved_steps _ _ _ Hsteps).
    assert (Hab : forall x n, map Z.abs (repeat x n) = repeat (Z.abs x) n)
      by (intros x n; induction n; cbn [repeat map]; congruence).
    rewrite Hab, Zsum_repeat. destruct (target >? 0); cbn [Z.abs]; lia.
Qed.

Lemma inertial_run_commands_witness :
  commands (trace (snd (inertial_scroll little reliable demo_sender (-3) (1 # 100) boot)))
  = commands (trace boot) ++ repeat (lit "execute-keys -client c 1k1vk") 3.
Proof.
  apply (inertial_run_commands little reliable demo_sender (-3) (1 # 100) boot
           (snd (inertial_scroll little reliable demo_sender (-3) (1 # 100) boot))).
  - cbn. lia.
  - reflexivity.
  - vm_compute. reflexivity.
Defined.

(** X14. A fixed-speed run of at least one tick that runs to its end has
    held every tick but the last for [duration] and the last for 0: the
    holds add up to [(ticks - 1) * duration]. *)
Theorem fixed_run_holds (bo : byteorder) (sys : system) (sender : KakSender)
    (n sgn spd : Z) (duration : Q) (w w' : world) :
  1 <= n / Z.max spd 1 ->
  fixed_scroll bo sys sender n sgn spd duration w = (Ok tt, w') ->
  exists hs,
    holds (trace w') = holds (trace w) ++ hs /\
    List.length hs = Z.to_nat (n / Z.max spd 1) /\
    (forall i, (i < Z.to_nat (n / Z.max spd 1 - 1))%nat ->
       (nth i hs 0 == duration)%Q) /\
    (nth (Z.to_nat (n / Z.max spd 1 - 1)) hs 0 == 0)%Q /\
    (Qsum hs == inject_Z (n / Z.max spd 1 - 1) * duration)%Q.
Proof.
  intros Ht Hrun. unfold fixed_scroll in Hrun.
  set (t := n / Z.max spd 1) in *.
  apply fixed_loop_inv in Hrun. destruct Hrun as [Hc _].
  set (f := fun k : nat => (duration * b2q (0 + Z.of_nat k <? t - 1))%Q).
  exists (map f (seq 0 (Z.to_nat t))).
  assert (Hpaced : forall k, (k < Z.to_nat (t - 1))%nat -> (f k == duration)%Q).
  { intros k Hk. unfold f.
    replace (0 + Z.of_nat k <? t - 1) with true
      by (symmetry; apply Z.ltb_lt; lia).
    cbn [b2q]. ring. }
  assert (Hlast : (f (Z.to_nat (t - 1)) == 0)%Q).
  { unfold f.
    replace (0 + Z.of_nat (Z.to_nat (t - 1)) <? t - 1) with false
      by (symmetry; apply Z.ltb_ge; lia).
    cbn [b2q]. ring. }
  split.
  { unfold holds. rewrite Hc, map_app, map_map. cbn [snd].
    unfold range. rewrite map_map, Z.sub_0_r. reflexivity. }
  split; [rewrite length_map, length_seq; reflexivity|].
  split; [intros i Hi; rewrite nth_map_seq by lia; apply Hpaced; exact Hi|].
  split; [rewrite nth_map_seq by lia; exact Hlast|].
  replace (Z.to_nat t) with (S (Z.to_nat (t - 1))) by lia.
  rewrite seq_S, map_app, Qsum_app. cbn [Nat.add map Qsum].
  rewrite Hlast.
  rewrite (Qsum_map_ext f (fun _ => duration)).
  - rewrite Qsum_const, length_seq, Z2Nat.id by lia. ring.
  - intros k Hk. apply in_seq in Hk. apply Hpaced. lia.
Qed.

Lemma fixed_run_holds_witness :
  exists hs,
    holds (trace (snd (fixed_scroll little reliable demo_sender 10 1 3 (1 # 100) boot)))
    = holds (trace boot) ++ hs /\
    (Qsum hs == 2 # 100)%Q.
Proof.
  destruct (fixed_run_holds little reliable demo_sender 10 1 3 (1 # 100) boot
              (snd (fixed_scroll little reliable demo_sender 10 1 3 (1 # 100) boot)))
    as (hs & H1 & _ & _ & _ & H5).
  - vm_compute. discriminate.
  - vm_compute. reflexivity.
  - exists hs. split; [exact H1|]. rewrite H5. reflexivity.
Defined.

(** ** How long a run takes *)

Lemma holds_app (a b : list event) : holds (a ++ b) = holds a ++ holds b.
Proof. unfold holds. rewrite calls_app, map_app. reflexivity. Qed.

Section Pace.

Variable bo : byteorder.
Variable sys : system.
Variable L : Q.

Lemma paced_refl (w : world) : paced sys L w w.
Proof.
  exists []. rewrite app_nil_r. cbn [map Qsum].
  split; [reflexivity|]. split; [lra | intros _; lra].
Qed.

Lemma paced_trans (w1 w2 w3 : world) :
  paced sys L w1 w2 -> paced sys L w2 w3 -> paced sys L w1 w3.
Proof.
  intros (h1 & E1 & Lo1 & Up1) (h2 & E2 & Lo2 & Up2).
  exists (h1 ++ h2). rewrite E2, E1, <- app_assoc.
  split; [reflexivity|]. rewrite map_app, !Qsum_app. split.
  - lra.
  - intros HL. specialize (Up1 HL). specialize (Up2 HL). lra.
Qed.

Lemma scroll_once_paced (sender : KakSender) (step : Z) (d : Q)
    (w w' : world) (u : unit) :
  scroll_once bo sys sender step d w = (Ok u, w') -> paced sys L w w'.
Proof.
  intros Hrun.
  pose proof (scroll_once_inv _ _ _ _ _ _ _ _ Hrun) as [Hc _].
  destruct (scroll_once_clock _ _ _ _ _ _ _ _ Hrun) as (L0 & HL0 & Hcase).
  exists [d]. split.
  { unfold holds. rewrite Hc, map_app. reflexivity. }
  cbn [map Qsum].
  pose proof (Q.le_max_l d L) as M1. pose proof (Q.le_max_r d L) as M2.
  destruct Hcase as [(Hlt & Hn & _) | (Hle & Hn & _)].
  - split; [lra | intros _; lra].
  - split; [lra|]. intros HL. pose proof (HL {| now := now w; trace := trace w ++ [Scroll step d] |}) as Hb.
    rewrite <- HL0 in Hb. lra.
Qed.

Lemma fixed_scroll_paced (sender : KakSender) (n sgn spd : Z) (d : Q)
    (w w' : world) (u : unit) :
  fixed_scroll bo sys sender n sgn spd d w = (Ok u, w') -> paced sys L w w'.
Proof.
  unfold fixed_scroll, for_each. apply for_fold_ok_rel.
  - apply paced_refl.
  - apply paced_trans.
  - intros i s w0 s' w0' _ Hb. exact (scroll_once_paced _ _ _ _ _ _ Hb).
Qed.

Lemma inertial_body_paced (sender : KakSender) (step S : Z) (dv : Q) (i : Z)
    (v v' : Q) (w w' : world) :
  inertial_body bo sys sender step S dv i v w = (Ok v', w') -> paced sys L w w'.
Proof.
  unfold inertial_body, bind, lift.
  destruct (truediv 1 v) as [inv|e]; [|discriminate].
  destruct (scroll_once bo sys sender step _ w) as [[u|e] w1] eqn:Es;
    [|discriminate].
  unfold ret. intros H. assert (w' = w1) by congruence. subst w'.
  exact (scroll_once_paced _ _ _ _ _ _ Es).
Qed.

Lemma inertial_scroll_paced (sender : KakSender) (target : Z) (d : Q)
    (w w' : world) (u : unit) :
  inertial_scroll bo sys sender target d w = (Ok u, w') -> paced sys L w w'.
Proof.
  unfold inertial_scroll, bind, lift.
  destruct (truediv _ _) as [velocity|e1]; [|discriminate].
  destruct (truediv velocity _) as [d_velocity|e2]; [|discriminate].
  destruct (for_fold _ _ velocity w) as [[vf|e3] w1] eqn:El; [|discriminate].
  unfold ret. intros H. assert (w' = w1) by congruence. subst w'.
  revert El. apply for_fold_ok_rel.
  - apply paced_refl.
  - apply paced_trans.
  - intros i s w0 s' w0' _ Hb. exact (inertial_body_paced _ _ _ _ _ _ _ _ _ Hb).
Qed.

End Pace.

Lemma hold_at_first_shortest (S : Z) (D : Q) (k : nat) :
  2 <= S -> (0 < D)%Q -> (k < Z.to_nat (S - 1))%nat ->
  (hold_at S D 0 <= hold_at S D k)%Q.
Proof.
  intros HS HD Hk. destruct k as [|k].
  - apply Qle_refl.
  - apply Qlt_le_weak. apply hold_at_increasing; try assumption. lia.
Qed.

Lemma inertial_holds_total (S : Z) (D : Q) :
  2 <= S -> (0 < D)%Q ->
  (Qsum (map (hold_at S D) (seq 0 (Z.to_nat S))) == inject_Z (S - 1) * D)%Q.
Proof.
  intros HS HD.
  replace (Z.to_nat S) with (Datatypes.S (Z.to_nat (S - 1))) by lia.
  rewrite seq_S, map_app, Qsum_app. cbn [Nat.add map Qsum].
  rewrite hold_at_sum by assumption. rewrite hold_at_last by assumption. ring.
Qed.

(** X15. An inertial run over [S >= 2] lines that runs to its end takes at
    least [(S - 1) * duration] on the clock, the time of a fixed-speed
    scroll of the same size; when no send takes longer than the first, the
    shortest, hold, it takes no more than that plus one send. *)
Theorem inertial_run_time (bo : byteorder) (sys : system) (sender : KakSender)
    (target : Z) (duration : Q) (w w' : world) :
  2 <= Z.abs target -> (0 < duration)%Q ->
  inertial_scroll bo sys sender target duration w = (Ok tt, w') ->
  (now w + inject_Z (Z.abs target - 1) * duration <= now w')%Q /\
  (forall L, latency_at_most sys L -> (0 <= L)%Q ->
     (L <= hold_at (Z.abs target) duration 0)%Q ->
     (now w' <= now w + inject_Z (Z.abs target - 1) * duration + L)%Q).
Proof.
  intros HS HD Hrun.
  pose proof (inertial_scroll_calls _ _ _ _ _ HS HD _ _ Hrun) as Hc.
  assert (Hh : holds (trace w')
               = holds (trace w)
                 ++ map (hold_at (Z.abs target) duration)
                        (seq 0 (Z.to_nat (Z.abs target)))).
  { unfold holds. rewrite Hc, map_app, map_map. reflexivity. }
  split.
  - destruct (inertial_scroll_paced bo sys 0 _ _ _ _ _ _ Hrun) as (hs & E & Lo & _).
    rewrite Hh in E. apply app_inv_head in E. subst hs.
    rewrite inertial_holds_total in Lo by assumption. exact Lo.
  - intros L HL H0 Hshort.
    destruct (inertial_scroll_paced bo sys L _ _ _ _ _ _ Hrun) as (hs & E & _ & Up).
    rewrite Hh in E. apply app_inv_head in E. subst hs.
    specialize (Up HL). rewrite map_map in Up.
    replace (Z.to_nat (Z.abs target))
      with (Datatypes.S (Z.to_nat (Z.abs target - 1))) in Up by lia.
    rewrite seq_S, map_app, Qsum_app in Up. cbn [Nat.add map Qsum] in Up.
    rewrite (Qsum_map_ext (fun k => Qmax (hold_at (Z.abs target) duration k) L)
                          (hold_at (Z.abs target) duration)) in Up.
    2:{ intros k Hk. apply in_seq in Hk. apply Q.max_l.
        apply (Qle_trans _ (hold_at (Z.abs target) duration 0)); [exact Hshort|].
        apply hold_at_first_shortest; try assumption. lia. }
    rewrite hold_at_sum in Up by assumption.
    rewrite (Q.max_r (hold_at (Z.abs target) duration (Z.to_nat (Z.abs target - 1))) L)
      in Up.
    2:{ rewrite hold_at_last by assumption. exact H0. }
    lra.
Qed.

Lemma inertial_run_time_witness :
  (now boot + inject_Z (Z.abs 5 - 1) * (1 # 100)
   <= now (snd (inertial_scroll little reliable demo_sender 5 (1 # 100) boot)))%Q.
Proof.
  destruct (inertial_run_time little reliable demo_sender 5 (1 # 100) boot
              (snd (inertial_scroll little reliable demo_sender 5 (1 # 100) boot)))
    as [Hlow _].
  - cbn. lia.
  - reflexivity.
  - vm_compute. reflexivity.
  - exact Hlow.
Defined.

(** X16. A fixed-speed run of at least one tick that runs to its end
    takes at least [(ticks - 1) * duration] on the clock; when no send takes
    longer than [duration], it takes no more than that plus one send. *)
Theorem fixed_run_time (bo : byteorder) (sys : system) (sender : KakSender)
    (n sgn spd : Z) (duration : Q) (w w' : world) :
  1 <= n / Z.max spd 1 ->
  fixed_scroll bo sys sender n sgn spd duration w = (Ok tt, w') ->
  (now w + inject_Z (n / Z.max spd 1 - 1) * duration <= now w')%Q /\
  (forall L, latency_at_most sys L -> (0 <= L <= duration)%Q ->
     (now w' <= now w + inject_Z (n / Z.max spd 1 - 1) * duration + L)%Q).
Proof.
  intros Ht Hrun.
  set (t := n / Z.max spd 1) in *.
  set (f := fun k : nat => (duration * b2q (0 + Z.of_nat k <? t - 1))%Q).
  assert (Hpaced : forall k, (k < Z.to_nat (t - 1))%nat -> (f k == duration)%Q).
  { intros k Hk. unfold f.
    replace (0 + Z.of_nat k <? t - 1) with true
      by (symmetry; apply Z.ltb_lt; lia).
    cbn [b2q]. ring. }
  assert (Hlast : (f (Z.to_nat (t - 1)) == 0)%Q).
  { unfold f.
    replace (0 + Z.of_nat (Z.to_nat (t - 1)) <? t - 1) with false
      by (symmetry; apply Z.ltb_ge; lia).
    cbn [b2q]. ring. }
  assert (Hh : holds (trace w') = holds (trace w) ++ map f (seq 0 (Z.to_nat t))).
  { pose proof Hrun as Hrun'. unfold fixed_scroll in Hrun'. fold t in Hrun'.
    apply fixed_loop_inv in Hrun'. destruct Hrun' as [Hc _].
    unfold holds. rewrite Hc, map_app, map_map. cbn [snd].
    unfold range. rewrite map_map, Z.sub_0_r. reflexivity. }
  assert (Hsum : (Qsum (map f (seq 0 (Z.to_nat (t - 1))))
                  == inject_Z (t - 1) * duration)%Q).
  { rewrite (Qsum_map_ext f (fun _ => duration)).
    - rewrite Qsum_const, length_seq, Z2Nat.id by lia. reflexivity.
    - intros k Hk. apply in_seq in Hk. apply Hpaced. lia. }
  split.
  - destruct (fixed_scroll_paced bo sys 0 _ _ _ _ _ _ _ _ Hrun) as (hs & E & Lo & _).
    rewrite Hh in E. apply app_inv_head in E. subst hs.
    replace (Z.to_nat t) with (S (Z.to_nat (t - 1))) in Lo by lia.
    rewrite seq_S, map_app, Qsum_app in Lo. cbn [Nat.add map Qsum] in Lo.
    rewrite Hsum, Hlast in Lo. lra.
  - intros L HL [H0 HD].
    destruct (fixed_scroll_paced bo sys L _ _ _ _ _ _ _ _ Hrun) as (hs & E & _ & Up).
    rewrite Hh in E. apply app_inv_head in E. subst hs.
    specialize (Up HL). rewrite map_map in Up.
    replace (Z.to_nat t) with (S (Z.to_nat (t - 1))) in Up by lia.
    rewrite seq_S, map_app, Qsum_app in Up. cbn [Nat.add map Qsum] in Up.
    rewrite (Qsum_map_ext (fun k => Qmax (f k) L) f) in Up.
    2:{ intros k Hk. apply in_seq in Hk. apply Q.max_l.
        rewrite Hpaced by lia. exact HD. }
    rewrite Hsum in Up.
    rewrite (Q.max_r (f (Z.to_nat (t - 1))) L) in Up
      by (rewrite Hlast; exact H0).
    lra.
Qed.

Lemma fixed_run_time_witness :
  (now (snd (fixed_scroll little reliable demo_sender 10 1 3 (1 # 100) boot))
   <= now boot + inject_Z (10 / Z.max 3 1 - 1) * (1 # 100) + (1 # 1000))%Q.
Proof.
  destruct (fixed_run_time little reliable demo_sender 10 1 3 (1 # 100) boot
              (snd (fixed_scroll little reliable demo_sender 10 1 3 (1 # 100) boot)))
    as [_ Hup].
  - vm_compute. discriminate.
  - vm_compute. reflexivity.
  - apply (Hup (1 # 1000)%Q).
    + intros w. apply Qle_refl.
    + split; vm_compute; discriminate.
Defined.

(** ** [main] as a whole *)


Lemma sign_cases (a : inputs) : sign a = 1 \/ sign a = -1.
Proof. unfold sign. destruct (Qltb 0 (amount a)); auto. Qed.

Lemma inertial_duration_pos (a : inputs) :
  fixed_path a = false -> (0 < duration_s a)%Q.
Proof.
  unfold fixed_path. intros H. apply orb_false_iff in H. destruct H as [_ H].
  destruct (Qlt_le_dec (duration_s a) (1 # 1000)) as [Hlt | Hle].
  - apply Qltb_lt in Hlt. congruence.
  - apply (Qlt_le_trans _ (1 # 1000)); [reflexivity | exact Hle].
Qed.

Section Exceptions.

Variable bo : byteorder.
Variable sys : system.
Variable sender : KakSender.




End Exceptions.

Lemma fixed_scroll_steps (bo : byteorder) (sys : system) (sender : KakSender)
    (n sgn spd : Z) (d : Q) (w w' : world) (u : unit) :
  fixed_scroll bo sys sender n sgn spd d w = (Ok u, w') ->
  steps (trace w')
  = steps (trace w) ++ repeat (sgn * spd) (Z.to_nat (n / Z.max spd 1)).
Proof.
  unfold fixed_scroll. intros Hrun. apply fixed_loop_inv in Hrun.
  destruct Hrun as [Hc _]. unfold steps.
  rewrite Hc, map_app, map_map. cbn [fst].
  rewrite map_const, range_length, Z.sub_0_r. reflexivity.
Qed.












(** X19. Whatever number of lines [n >= 0] line 115 arrives at, a run of
    lines 117-123 that runs to its end has asked for no more than [n]
    lines: all [n] on the inertial path, and on the fixed-speed path (speed
    at least 1) [n // speed * speed], which is [n] less fewer than [speed]
    lines. *)
Theorem scroll_by_lines_moved (bo : byteorder) (sys : system)
    (sender : KakSender) (fixed : bool) (sgn spd : Z) (duration : Q) (n : Z)
    (w w' : world) :
  0 <= n -> sgn = 1 \/ sgn = -1 ->
  (fixed = true -> 1 <= spd) ->
  (fixed = false -> (0 < duration)%Q) ->
  scroll_by bo sys sender fixed sgn spd duration n w = (Ok tt, w') ->
  exists moved,
    lines_moved (trace w') = lines_moved (trace w) + moved /\
    0 <= moved <= n /\
    (fixed = false -> moved = n) /\
    (fixed = true -> moved = n / spd * spd /\ n - spd < moved).
Proof.
  intros Hn Hsgn Hs Hd.
  assert (Hab : forall x k, map Z.abs (repeat x k) = repeat (Z.abs x) k)
    by (intros x k; induction k; cbn [repeat map]; congruence).
  unfold scroll_by. destruct fixed.
  - specialize (Hs eq_refl). intros Hrun.
    pose proof (fixed_scroll_steps _ _ _ _ _ _ _ _ _ _ Hrun) as Hst.
    rewrite Z.max_l in Hst by lia.
    exists (n / spd * spd).
    assert (Hq : 0 <= n / spd) by (apply Z.div_pos; lia).
    pose proof (Z.mul_div_le n spd ltac:(lia)) as Hle.
    pose proof (Z.mul_succ_div_gt n spd ltac:(lia)) as Hgt.
    split.
    { rewrite (lines_moved_steps _ _ _ Hst), Hab, Zsum_repeat.
      rewrite Z2Nat.id by lia.
      destruct Hsgn as [-> | ->]; f_equal; f_equal; lia. }
    split; [nia|]. split; [discriminate|].
    intros _. split; [reflexivity | nia].
  - specialize (Hd eq_refl). intros Hrun.
    assert (Habs : Z.abs (sgn * n) = n) by (destruct Hsgn as [-> | ->]; lia).
    assert (HS : 2 <= Z.abs (sgn * n)).
    { destruct (Z_le_gt_dec 2 (Z.abs (sgn * n))) as [H2 | H2];
        [exact H2|]. exfalso.
      assert (Hc' : Z.abs (sgn * n) = 1 \/ sgn * n = 0) by lia.
      destruct Hc' as [Hc' | Hc'].
      - rewrite inertial_one_raises in Hrun by exact Hc'. discriminate.
      - rewrite Hc', inertial_zero_raises in Hrun. discriminate. }
    pose proof (inertial_scroll_calls _ _ _ _ _ HS Hd _ _ Hrun) as Hcalls.
    assert (Hst : steps (trace w')
                  = steps (trace w)
                    ++ repeat (if sgn * n >? 0 then 1 else -1)
                              (Z.to_nat (Z.abs (sgn * n)))).
    { unfold steps. rewrite Hcalls, map_app, map_map. cbn [fst].
      rewrite map_const, length_seq. reflexivity. }
    exists n.
    split.
    { rewrite (lines_moved_steps _ _ _ Hst), Hab, Zsum_repeat, Habs.
      rewrite Z2Nat.id by lia.
      destruct (sgn * n >? 0); cbn [Z.abs]; lia. }
    split; [lia|]. split; [reflexivity | discriminate].
Qed.

Lemma scroll_by_lines_moved_witness :
  exists moved,
    lines_moved
      (trace (snd (scroll_by little reliable demo_sender true 1 4 (1 # 1000) 6 boot)))
    = lines_moved (trace boot) + moved /\
    0 <= moved <= 6 /\
    (true = false -> moved = 6) /\
    (true = true -> moved = 6 / 4 * 4 /\ 6 - 4 < moved).
Proof.
  apply (scroll_by_lines_moved little reliable demo_sender true 1 4 (1 # 1000) 6
           boot
           (snd (scroll_by little reliable demo_sender true 1 4 (1 # 1000) 6 boot))).
  - lia.
  - left. reflexivity.
  - intros _. lia.
  - discriminate.
  - vm_compute. reflexivity.
Defined.

(** [main] is its guard, the sender and [scroll_by] at [n_lines]. *)
Lemma main_scroll_by (bo : byteorder) (sys : system) (env : environ)
    (a : inputs) (w : world) :
  main bo sys env a w
  = (if maxscroll a =? 0 then ret tt
     else sender <- lift (KakSender_init env) ;;
          scroll_by bo sys sender (fixed_path a) (sign a) (speed a)
            (duration_s a) (n_lines a)) w.
Proof. reflexivity. Qed.
